(** * Kanji Video Player: timeline index, position aligner, dictionary
      resolution and annotation compositor

    A shallow embedding of [docs/subtitle-parser.js], of the two variants of
    [video-player.js] (the tokenizer-driven overlay player and the
    ruby-driven tree-merge player) and of the [KanjiDictionary] class,
    together with the properties stated about them in the specification. *)

From stdpp Require Import gmap list strings sorting.
Open Scope Z_scope.

(** ** JavaScript values *)

(** A JavaScript string is a sequence of UTF-16 code units. *)
Abbreviation jsstring := (list Z).

(** The code units of an ASCII literal. *)
Definition js (s : string) : jsstring :=
  map (λ a, Z.of_nat (Ascii.nat_of_ascii a)) (String.list_ascii_of_string s).

(** The numbers the parser computes with: integers (all far below 2^53, so
    exactly representable) and [NaN]. *)
Inductive jsnum := NaN | Num (z : Z).

Definition num_add (a b : jsnum) : jsnum :=
  match a, b with Num x, Num y => Num (x + y) | _, _ => NaN end.
Definition num_mul (a b : jsnum) : jsnum :=
  match a, b with Num x, Num y => Num (x * y) | _, _ => NaN end.
(** [a >= b] and [a <= b]; a comparison with [NaN] is false. *)
Definition num_ge (a b : jsnum) : bool :=
  match a, b with Num x, Num y => x >=? y | _, _ => false end.
Definition num_le (a b : jsnum) : bool :=
  match a, b with Num x, Num y => x <=? y | _, _ => false end.

Module JS.

Definition len (s : jsstring) : Z := Z.of_nat (length s).

Definition clamp (n lo hi : Z) : Z := Z.min (Z.max n lo) hi.

(** [s.startsWith(w)] at offset 0. *)
Fixpoint startsWith (s w : jsstring) {struct w} : bool :=
  match w, s with
  | [], _ => true
  | _ :: _, [] => false
  | x :: w', y :: s' => (x =? y) && startsWith s' w'
  end.

(** The scan of [indexOf]: [s] is the part of the receiver that starts at
    offset [k]. *)
Fixpoint indexOf_scan (w s : jsstring) (k : Z) : Z :=
  if startsWith s w then k
  else match s with
       | [] => -1
       | _ :: s' => indexOf_scan w s' (k + 1)
       end.

(** [s.indexOf(w, position)]: the start position is clamped to
    [0 .. s.length], the result is [-1] when there is no occurrence. *)
Definition indexOf (s w : jsstring) (position : Z) : Z :=
  let start := clamp position 0 (len s) in
  indexOf_scan w (drop (Z.to_nat start) s) start.

(** [s.includes(w)]. *)
Definition includes (s w : jsstring) : bool := negb (indexOf s w 0 =? -1).

(** [s.substring(from, to)]: both ends clamped, swapped when out of order. *)
Definition substring (s : jsstring) (from to : Z) : jsstring :=
  let a := clamp from 0 (len s) in
  let b := clamp to 0 (len s) in
  take (Z.to_nat (Z.max a b - Z.min a b)) (drop (Z.to_nat (Z.min a b)) s).

(** [s.substring(from)]. *)
Definition substringFrom (s : jsstring) (from : Z) : jsstring :=
  substring s from (len s).

(** [s.substr(start, length)]: a negative start counts from the end. *)
Definition substr (s : jsstring) (start n : Z) : jsstring :=
  let st := if start <? 0 then Z.max (len s + start) 0 else Z.min start (len s) in
  let l := clamp n 0 (len s - st) in
  take (Z.to_nat l) (drop (Z.to_nat st) s).

(** White space and line terminators, the characters [trim] strips. *)
Definition isWhiteSpace (c : Z) : bool :=
  ((9 <=? c) && (c <=? 13)) || (c =? 32) || (c =? 160) || (c =? 0x1680)
  || ((0x2000 <=? c) && (c <=? 0x200A)) || (c =? 0x2028) || (c =? 0x2029)
  || (c =? 0x202F) || (c =? 0x205F) || (c =? 0x3000) || (c =? 0xFEFF).

Fixpoint trimStart (s : jsstring) : jsstring :=
  match s with
  | [] => []
  | c :: s' => if isWhiteSpace c then trimStart s' else s
  end.
Definition trimEnd (s : jsstring) : jsstring := reverse (trimStart (reverse s)).
Definition trim (s : jsstring) : jsstring := trimEnd (trimStart s).

(** [s.trim() === ''] *)
Definition isBlank (s : jsstring) : bool :=
  match trim s with [] => true | _ :: _ => false end.

(** [s.split(sep)] for a non-empty separator: separators are found left to
    right and do not overlap; [skip] counts the code units of a separator
    that was just matched and is being stepped over. *)
Fixpoint split_go (sep : jsstring) (skip : nat) (s : jsstring) : list jsstring :=
  match s with
  | [] => [[]]
  | c :: s' =>
      match skip with
      | S k => split_go sep k s'
      | O =>
          if startsWith s sep then [] :: split_go sep (length sep - 1) s'
          else match split_go sep 0 s' with
               | cur :: rest => (c :: cur) :: rest
               | [] => [[c]]
               end
      end
  end.
Definition split (s sep : jsstring) : list jsstring := split_go sep 0 s.

(** [parts.join(sep)] *)
Fixpoint join (sep : jsstring) (parts : list jsstring) : jsstring :=
  match parts with
  | [] => []
  | [p] => p
  | p :: rest => p ++ sep ++ join sep rest
  end.

Definition isDigit (c : Z) : bool := (48 <=? c) && (c <=? 57).

Definition digitsValue (s : jsstring) : Z :=
  foldl (λ acc c, acc * 10 + (c - 48)) 0 s.

(** [Number(s)] on strings of decimal digits (the empty string is 0).
    Every other string is mapped to [NaN]: signs, fractions, exponents and
    radix prefixes are not modelled, the timestamp pattern admits none. *)
Definition Number (s : jsstring) : jsnum :=
  if forallb isDigit s then Num (digitsValue s) else NaN.

Fixpoint leadingDigits (s : jsstring) : jsstring :=
  match s with
  | c :: s' => if isDigit c then c :: leadingDigits s' else []
  | [] => []
  end.

(** [parseInt(s)]: the leading run of decimal digits, [NaN] when there is
    none (leading white space, signs and the [0x] prefix are not
    modelled). [None] is the argument [undefined]. *)
Definition parseInt (s : option jsstring) : jsnum :=
  match s with
  | None => NaN
  | Some s =>
      match leadingDigits s with
      | [] => NaN
      | ds => Num (digitsValue ds)
      end
  end.

(** [s.replace(/\r\n|\r|\n/g, '\n')] *)
Fixpoint normalizeLineBreaks (s : jsstring) : jsstring :=
  match s with
  | [] => []
  | c :: s' =>
      if c =? 13 then
        10 :: match s' with
              | [] => []
              | d :: s'' => if d =? 10 then normalizeLineBreaks s''
                            else normalizeLineBreaks s'
              end
      else c :: normalizeLineBreaks s'
  end.

(** [arr.find(p)]: the first element, by index, on which [p] holds. *)
Fixpoint find {A} (p : A → bool) (arr : list A) : option A :=
  match arr with
  | [] => None
  | x :: rest => if p x then Some x else find p rest
  end.

(** A stable [arr.sort(cmp)]: [x] goes after [y] only when [cmp x y > 0],
    so elements that compare equal keep their order ([x] is inserted in
    front of elements that followed it in the array). *)
Fixpoint sort_insert {A} (cmp : A → A → Z) (x : A) (sorted : list A) : list A :=
  match sorted with
  | [] => [x]
  | y :: rest => if cmp x y <=? 0 then x :: sorted
                 else y :: sort_insert cmp x rest
  end.
Definition sort {A} (cmp : A → A → Z) (arr : list A) : list A :=
  foldr (sort_insert cmp) [] arr.

End JS.

(** ** docs/subtitle-parser.js *)

Module SubtitleParser.

Record SubtitleEntry := {
  start : jsnum;
  end_ : jsnum;
  text : jsstring
}.

(** The state of the parser object. *)
Record t := { subtitles : list SubtitleEntry }.

(** *** The timestamp pattern
    [/(\d{2}:\d{2}:\d{2},\d{3}) --> (\d{2}:\d{2}:\d{2},\d{3})/] is a fixed
    sequence of atoms, searched for at the leftmost offset. *)
Inductive atom := Digit | Lit (c : Z).

Definition atom_ok (a : atom) (c : Z) : bool :=
  match a with
  | Digit => JS.isDigit c
  | Lit l => c =? l
  end.

Fixpoint matchHere (p : list atom) (s : jsstring) {struct p} : bool :=
  match p, s with
  | [], _ => true
  | _ :: _, [] => false
  | a :: p', c :: s' => atom_ok a c && matchHere p' s'
  end.

(** The suffix of [s] that starts at the leftmost match of [p]. *)
Fixpoint search (p : list atom) (s : jsstring) : option jsstring :=
  if matchHere p s then Some s
  else match s with
       | [] => None
       | _ :: s' => search p s'
       end.

Definition stampPattern : list atom :=
  [Digit; Digit; Lit 58; Digit; Digit; Lit 58; Digit; Digit; Lit 44;
   Digit; Digit; Digit].
Definition arrowPattern : list atom := map Lit (js " --> ").
Definition rangePattern : list atom :=
  stampPattern ++ arrowPattern ++ stampPattern.

(** [timestampLine.match(...)]: the two capture groups. *)
Definition timeMatch (timestampLine : jsstring) : option (jsstring * jsstring) :=
  match search rangePattern timestampLine with
  | None => None
  | Some m => Some (take 12 m, take 12 (drop 17 m))
  end.

(** [timeToMilliseconds(timeString)] *)
Definition timeToMilliseconds (timeString : jsstring) : jsnum :=
  let parts := JS.split timeString (js ",") in
  let time := default [] (parts !! 0%nat) in
  let milliseconds := parts !! 1%nat in
  let nums := map JS.Number (JS.split time (js ":")) in
  let hours := default NaN (nums !! 0%nat) in
  let minutes := default NaN (nums !! 1%nat) in
  let seconds := default NaN (nums !! 2%nat) in
  num_add
    (num_mul
       (num_add (num_add (num_mul hours (Num 3600)) (num_mul minutes (Num 60)))
                seconds)
       (Num 1000))
    (JS.parseInt milliseconds).

(** One iteration of the loop over the blocks: [None] is [continue],
    [Some e] is the entry that is pushed. *)
Definition blockEntry (block : jsstring) : option SubtitleEntry :=
  let lines := JS.split block [10] in
  if (length lines <? 3)%nat then None
  else
    let timestampLine := default [] (lines !! 1%nat) in
    match timeMatch timestampLine with
    | None => None
    | Some (g1, g2) =>
        let startTime := timeToMilliseconds g1 in
        let endTime := timeToMilliseconds g2 in
        let text := JS.join (js " ") (drop 2 lines) in
        Some {| start := startTime; end_ := endTime; text := text |}
    end.

Definition subtitleBlocks (content : jsstring) : list jsstring :=
  let normalizedContent := JS.normalizeLineBreaks content in
  JS.split (JS.trim normalizedContent) [10; 10].

(** [parseSRT(content)]: the parser's list is reset, each block either
    continues or pushes; the new state and the returned array coincide. *)
Definition parseSRT (this : t) (content : jsstring) : t * list SubtitleEntry :=
  let subs :=
    foldl (λ subs block,
             match blockEntry block with
             | None => subs
             | Some e => subs ++ [e]
             end)
          [] (subtitleBlocks content) in
  ({| subtitles := subs |}, subs).

(** [findSubtitleAtTime(time)]; [None] is [null]. *)
Definition findSubtitleAtTime (this : t) (time : Z) : option SubtitleEntry :=
  JS.find (λ subtitle,
             num_ge (Num time) (start subtitle) && num_le (Num time) (end_ subtitle))
          (subtitles this).

End SubtitleParser.

(** ** Data shared by the two players *)

(** A dictionary record [{word, hiragana, meaning}]; it is the [data] of a
    word and the shape of a match returned by the dictionary service.
    [None] is a missing, [null] or [undefined] field. *)
Record WordData := {
  wd_word : option jsstring;
  hiragana : option jsstring;
  meaning : option jsstring
}.

(** A word with its offset into the subtitle text; [data] is [None] when the
    object carries no [data]. *)
Record WordObj := {
  word : jsstring;
  position : Z;
  length_ : Z;
  data : option WordData
}.

(** The truth value of a string-valued field: missing and empty are falsy. *)
Definition truthy (o : option jsstring) : bool :=
  match o with
  | Some (_ :: _) => true
  | _ => false
  end.

(** [m.meaning && m.meaning.trim() !== ''] *)
Definition hasMeaning (m : WordData) : bool :=
  truthy (meaning m) && negb (JS.isBlank (default [] (meaning m))).

(** [m.word === word] *)
Definition wordIs (w : jsstring) (m : WordData) : bool :=
  bool_decide (wd_word m = Some w).

(** The markup tree. Element names are kept in lower case, the form in which
    the players compare them. *)
Unset Elimination Schemes.
Inductive Node :=
| Text (nodeValue : jsstring)
| Element (nodeName : string) (attributes : list (string * string))
          (childNodes : list Node).
Set Elimination Schemes.

(** [el.textContent = s]: the children are replaced by one text node, by
    none when [s] is empty. *)
Definition setTextContent (s : jsstring) : list Node :=
  match s with
  | [] => []
  | _ :: _ => [Text s]
  end.

(** The popup payload: reading and meaning joined with [" - "]. *)
Definition popupText (d : option WordData) : jsstring :=
  match d with
  | Some d =>
      let content :=
        (if truthy (hiragana d) then [default [] (hiragana d)] else [])
        ++ (if truthy (meaning d) then [default [] (meaning d)] else []) in
      JS.join (js " - ") content
  | None => js "No meaning available"
  end.

(** [<span class="kanji-popup">payload</span>] *)
Definition popup (d : option WordData) : Node :=
  Element "span" [("class", "kanji-popup")] (setTextContent (popupText d)).

(** [<span class="kanji-word">text<span class="kanji-popup">...</span></span>] *)
Definition wordSpan (wordText : jsstring) (d : option WordData) : Node :=
  Element "span" [("class", "kanji-word")] (setTextContent wordText ++ [popup d]).

(** [name === 'rt' || name === 'rp'] on the lower-cased element name. *)
Definition isRtOrRp (name : string) : bool :=
  String.eqb name "rt" || String.eqb name "rp".

(** [/[\u4e00-\u9faf\u3400-\u4dbf]/.test(s)]: the pattern has no [u] flag, so
    it holds when some code unit of [s] lies in one of the two ranges. *)
Definition isKanjiUnit (c : Z) : bool :=
  ((0x4E00 <=? c) && (c <=? 0x9FAF)) || ((0x3400 <=? c) && (c <=? 0x4DBF)).
Definition testKanji (s : jsstring) : bool := existsb isKanjiUnit s.

(** The kanji of [word], one string per code unit, in order:
    [for (i ...) { char = word.charAt(i); if (/[...]/.test(char)) push(char) }] *)
Definition kanjiCharsOf (word : jsstring) : list jsstring :=
  flat_map (λ c, if testKanji [c] then [[c]] else []) word.

(** The elements named [name] in the subtree of [node], [node] included, in
    document order. *)
Fixpoint selectAll (name : string) (node : Node) : list Node :=
  match node with
  | Text _ => []
  | Element n _ children =>
      (if String.eqb n name then [node] else [])
      ++ flat_map (selectAll name) children
  end.

(** [el.querySelectorAll(name)]: the matching descendants of [el]. *)
Definition querySelectorAll (name : string) (el : Node) : list Node :=
  match el with
  | Text _ => []
  | Element _ _ children => flat_map (selectAll name) children
  end.

(** [el.querySelector(name)]: the first of them, [None] for [null]. *)
Definition querySelector (name : string) (el : Node) : option Node :=
  head (querySelectorAll name el).

(** ** The dictionary service and the effects of a lookup *)

Module Net.

(** The three endpoints: [/search/inflected], [/search] and
    [/search/partial] (the latter always with [limit=5]). *)
Inductive Endpoint := SearchInflected | SearchDirect | SearchPartial.

(** A request: the endpoint and the word of the query string. The
    percent-encoding of the word is not spelled out. *)
Record Request := { endpoint : Endpoint; q : jsstring }.

(** The body of a response: [Malformed] is a body on which [json()] rejects
    or whose value cannot be read as [{matches: [...]}] without a
    [TypeError]; [Json None] is a value without a [matches] array. *)
Inductive Body := Malformed | Json (matches : option (list WordData)).

(** What a [fetch] produces: a rejection (network error) or a response with
    its [ok] flag. *)
Inductive Reply := Rejected | Response (ok : bool) (body : Body).

(** The service answers the last request of the history it is given; the
    history makes stateful services expressible. *)
Definition Service := list Request → Reply.

(** The session state a lookup can touch: the requests issued so far and
    the cache of the [KanjiDictionary] object. *)
Record World := {
  requests : list Request;
  cache : gmap jsstring (option WordData)
}.

Inductive Outcome (A : Type) := Returned (a : A) | Thrown.
Arguments Returned {A} a.
Arguments Thrown {A}.

(** Computations that issue requests and may throw. *)
Definition M (A : Type) : Type := World → Outcome A * World.

Definition ret {A} (a : A) : M A := λ w, (Returned a, w).
Definition throw {A} : M A := λ w, (Thrown, w).
Definition bind {A B} (m : M A) (k : A → M B) : M B :=
  λ w, match m w with
       | (Returned a, w') => k a w'
       | (Thrown, w') => (Thrown, w')
       end.
(** [try { m } catch { h }] *)
Definition try_catch {A} (m : M A) (h : M A) : M A :=
  λ w, match m w with
       | (Returned a, w') => (Returned a, w')
       | (Thrown, w') => h w'
       end.

Notation "'let*' x ':=' m 'in' k" := (bind m (λ x, k))
  (at level 10, x name, m at level 100, k at level 200).

(** A lone surrogate makes [encodeURIComponent] throw a [URIError]. *)
Fixpoint wellFormed (s : jsstring) : bool :=
  match s with
  | [] => true
  | c :: s' =>
      if (0xD800 <=? c) && (c <=? 0xDBFF) then
        match s' with
        | d :: s'' => (0xDC00 <=? d) && (d <=? 0xDFFF) && wellFormed s''
        | [] => false
        end
      else if (0xDC00 <=? c) && (c <=? 0xDFFF) then false
      else wellFormed s'
  end.

(** The URL of a query: building it throws when the word cannot be
    encoded. *)
Definition url (e : Endpoint) (w : jsstring) : M Request :=
  if wellFormed w then ret {| endpoint := e; q := w |} else throw.

Section WithService.
Context (service : Service).

(** [await fetch(url)] *)
Definition fetch (r : Request) : M (bool * Body) :=
  λ w, let w' := {| requests := requests w ++ [r]; cache := cache w |} in
       match service (requests w') with
       | Rejected => (Thrown, w')
       | Response ok body => (Returned (ok, body), w')
       end.

End WithService.

(** [await response.json()], followed by the read of [.matches] *)
Definition json (b : Body) : M (option (list WordData)) :=
  match b with
  | Malformed => throw
  | Json matches => ret matches
  end.

(** [wordObj.data.meaning = s]; a [TypeError] when there is no [data]. *)
Definition setMeaning (wordObj : WordObj) (s : jsstring) : M WordObj :=
  match data wordObj with
  | None => throw
  | Some d =>
      ret {| word := word wordObj; position := position wordObj;
             length_ := length_ wordObj;
             data := Some {| wd_word := wd_word d; hiragana := hiragana d;
                             meaning := Some s |} |}
  end.

(** The read of [wordObj.data.meaning]. *)
Definition getMeaning (wordObj : WordObj) : M (option jsstring) :=
  match data wordObj with
  | None => throw
  | Some d => ret (meaning d)
  end.

(** [m.meaning] where the caller has checked that it is truthy. *)
Definition meaningOf (m : WordData) : jsstring := default [] (meaning m).

Definition noDefinitionFound : jsstring := js "No definition found".
Definition errorFetchingMeaning : jsstring := js "Error fetching meaning".
Definition noDefinitionAvailable : jsstring := js "No definition available".

End Net.

(** ** KanjiDictionary: the cached single-endpoint lookup *)

Module KanjiDictionary.
Import Net.

Section WithService.
Context (service : Service).

Definition cacheSet (w : jsstring) (v : option WordData) : M unit :=
  λ st, (Returned (), {| requests := requests st; cache := <[w := v]> (cache st) |}).

(** [getWordMeaning(word)]; the result [None] is [null]. *)
Definition getWordMeaning (w : jsstring) : M (option WordData) :=
  λ st,
    match cache st !! w with
    | Some cached => (Returned cached, st)
    | None =>
        try_catch
          (let* u := url SearchDirect w in
           let* response := fetch service u in
           if negb (fst response) then ret None
           else
             let* matches := json (snd response) in
             match matches with
             | Some (m0 :: _) => let* _ := cacheSet w (Some m0) in ret (Some m0)
             | _ => let* _ := cacheSet w None in ret None
             end)
          (ret None) st
    end.

End WithService.

Section WithAnalyzer.
Context (service : Service).
(** [this.KuroshiroClass?.Util.hasKanji], when the library is loaded and
    has it. *)
Context (utilHasKanji : option (jsstring → bool)).

(** [util && util.hasKanji ? util.hasKanji(s) : /[...]/.test(s)] *)
Definition hasKanji (s : jsstring) : bool :=
  match utilHasKanji with
  | Some f => f s
  | None => testKanji s
  end.

(** [matches.find(m => m.word === w) || matches[0]] on a non-empty array. *)
Definition exactOrFirst (w : jsstring) (m0 : WordData) (matches : list WordData)
    : WordData :=
  default m0 (JS.find (wordIs w) matches).

(** The two pushes for a kanji whose match has a meaning; the state is the
    pair [kanjiMeanings], [kanjiReadings]. *)
Definition noteKanji (acc : list jsstring * list jsstring) (kanji : jsstring)
    (m : WordData) : list jsstring * list jsstring :=
  (fst acc ++ [kanji ++ js ": " ++ meaningOf m],
   if truthy (hiragana m)
   then snd acc ++ [kanji ++ js ": " ++ default [] (hiragana m)]
   else snd acc).

(** One [try { ... } catch { }] of the loop of [lookupIndividualKanji]; the
    direct and the partial search have the same body, the flag is [found]
    (which the partial search does not set). A throw comes before any push,
    so the handler sees the arrays as they were. *)
Definition kanjiTry (u : Request) (kanji : jsstring)
    (acc : list jsstring * list jsstring)
    : M (bool * (list jsstring * list jsstring)) :=
  try_catch
    (let* response := fetch service u in
     if fst response then
       let* data := json (snd response) in
       match data with
       | Some ((m0 :: _) as matches) =>
           let match_ := exactOrFirst kanji m0 matches in
           if truthy (meaning match_) then ret (true, noteKanji acc kanji match_)
           else ret (false, acc)
       | _ => ret (false, acc)
       end
     else ret (false, acc))
    (ret (false, acc)).

(** The loop over [kanjiChars]. *)
Fixpoint lookupKanjiChars (kanjiChars : list jsstring)
    (acc : list jsstring * list jsstring) : M (list jsstring * list jsstring) :=
  match kanjiChars with
  | [] => ret acc
  | kanji :: rest =>
      let* url := Net.url SearchDirect kanji in
      let* direct := kanjiTry url kanji acc in
      let* acc' :=
        if negb (fst direct) then
          let* partialUrl := Net.url SearchPartial kanji in
          let* partial := kanjiTry partialUrl kanji (snd direct) in
          ret (snd partial)
        else ret (snd direct) in
      lookupKanjiChars rest acc'
  end.

(** [lookupIndividualKanji(word, text, results)]: the array [results] after
    the call. *)
Definition lookupIndividualKanji (word text : jsstring) (results : list WordObj)
    : M (list WordObj) :=
  let kanjiChars := kanjiCharsOf word in
  if (length kanjiChars =? 0)%nat then ret results
  else
    let* collected := lookupKanjiChars kanjiChars ([], []) in
    let kanjiMeanings := fst collected in
    let kanjiReadings := snd collected in
    if (0 <? length kanjiMeanings)%nat then
      let position := JS.indexOf text word 0 in
      ret (results ++
           [ {| word := word; position := position; length_ := JS.len word;
                data := Some {| wd_word := Some word;
                                hiragana :=
                                  Some (if (0 <? length kanjiReadings)%nat
                                        then JS.join (js " + ") kanjiReadings
                                        else []);
                                meaning := Some (JS.join (js "; ") kanjiMeanings) |} |} ])
    else ret results.

(** One iteration of the loop over [expectedWords]. The array [results] is
    pushed to as the last action of a [try] body, so the handler starts from
    the array the iteration started with. *)
Definition expectedStep (text : jsstring) (results : list WordObj)
    (word : jsstring) : M (list WordObj) :=
  if negb (hasKanji word) then ret results
  else
    let* wordUrl := url SearchDirect word in
    try_catch
      (let* response := fetch service wordUrl in
       if fst response then
         let* data := json (snd response) in
         match data with
         | Some ((m0 :: _) as matches) =>
             let matchToUse := exactOrFirst word m0 matches in
             let position := JS.indexOf text word 0 in
             let position := if position =? -1 then 0 else position in
             ret (results ++
                  [ {| word := word; position := position; length_ := JS.len word;
                       data := Some matchToUse |} ])
         | _ => lookupIndividualKanji word text results
         end
       else lookupIndividualKanji word text results)
      (lookupIndividualKanji word text results).

Fixpoint expectedLoop (text : jsstring) (expectedWords : list jsstring)
    (results : list WordObj) : M (list WordObj) :=
  match expectedWords with
  | [] => ret results
  | word :: rest =>
      let* results' := expectedStep text results word in
      expectedLoop text rest results'
  end.

(** The distinct kanji of [text], in order of first appearance. *)
Definition standaloneKanji (text : jsstring) : list jsstring :=
  foldl (λ kanjiChars c,
           if hasKanji [c] && negb (bool_decide ([c] ∈ kanjiChars))
           then kanjiChars ++ [[c]] else kanjiChars)
        [] text.

(** One iteration of the loop over the standalone kanji. *)
Definition standaloneStep (text : jsstring) (results : list WordObj)
    (kanji : jsstring) : M (list WordObj) :=
  let* kanjiUrl := url SearchDirect kanji in
  try_catch
    (let* response := fetch service kanjiUrl in
     if fst response then
       let* data := json (snd response) in
       match data with
       | Some ((m0 :: _) as matches) =>
           let match_ := exactOrFirst kanji m0 matches in
           let position := JS.indexOf text kanji 0 in
           ret (results ++
                [ {| word := kanji; position := position; length_ := JS.len kanji;
                     data := Some match_ |} ])
       | _ => ret results
       end
     else ret results)
    (ret results).

Fixpoint standaloneLoop (text : jsstring) (kanjiChars : list jsstring)
    (results : list WordObj) : M (list WordObj) :=
  match kanjiChars with
  | [] => ret results
  | kanji :: rest =>
      let* results' := standaloneStep text results kanji in
      standaloneLoop text rest results'
  end.

(** [findKanjiWords(text, expectedWords)] *)
Definition findKanjiWords (text : jsstring) (expectedWords : list jsstring)
    : M (list WordObj) :=
  if negb (truthy (Some text)) || JS.isBlank text then ret []
  else
    try_catch
      (if negb (hasKanji text) then ret []
       else
         let* results := expectedLoop text expectedWords [] in
         let* results :=
           if (length results =? 0)%nat
           then standaloneLoop text (standaloneKanji text) results
           else ret results in
         ret (JS.sort (λ a b, position a - position b) results))
      (ret []).

End WithAnalyzer.
End KanjiDictionary.

(** ** video-player.js, first variant: tokenizer-driven overlay player *)

Module Overlay.
Import Net.

(** A token of the morphological analyzer. *)
Record Token := {
  surface_form : jsstring;
  reading : option jsstring;
  pos : jsstring
}.

Record SegmentedWord := {
  sw_word : jsstring;
  sw_reading : jsstring;
  sw_pos : jsstring
}.

(** [String.fromCharCode(n)] *)
Definition fromCharCode (n : Z) : Z := n mod 65536.

(** [convertKatakanaToHiragana(text)]; [None] is a missing argument. *)
Definition convertKatakanaToHiragana (text : option jsstring) : jsstring :=
  if negb (truthy text) then []
  else map (λ c, if (0x30A1 <=? c) && (c <=? 0x30F6)
                 then fromCharCode (c - 0x60) else c)
           (default [] text).

(** The parts of speech that are kept: noun, verb, adverb, adjective. *)
Definition targetPos : list jsstring :=
  [ [0x540D; 0x8A5E]; [0x52D5; 0x8A5E]; [0x526F; 0x8A5E];
    [0x5F62; 0x5BB9; 0x8A5E] ].

(** [token.reading || ""] *)
Definition orEmpty (o : option jsstring) : jsstring :=
  if truthy o then default [] o else [].

(** The words kept from the analyzer's output; [None] stands for an
    analyzer that is not ready or that throws, which leaves the list empty. *)
Definition segmentWords (tokens : option (list Token)) : list SegmentedWord :=
  match tokens with
  | None => []
  | Some tokens =>
      map (λ token,
             {| sw_word := surface_form token;
                sw_reading := convertKatakanaToHiragana (Some (orEmpty (reading token)));
                sw_pos := pos token |})
          (List.filter (λ token, bool_decide (pos token ∈ targetPos)) tokens)
  end.

Definition mkWordObj (w : jsstring) (p : Z) (r : jsstring) : WordObj :=
  {| word := w; position := p; length_ := JS.len w;
     data := Some {| wd_word := Some w; hiragana := Some r; meaning := None |} |}.

(** One iteration of the alignment loop of [enhanceWithKanjiPopups]; the
    state is the list [kanjiWords] and the cursor [textIndex]. *)
Definition alignStep (originalText : jsstring) (st : list WordObj * Z)
    (wordData : SegmentedWord) : list WordObj * Z :=
  let '(kanjiWords, textIndex) := st in
  let w := sw_word wordData in
  if JS.isBlank w then st
  else
    let position := JS.indexOf originalText w textIndex in
    if position =? -1 then
      let posFromStart := JS.indexOf originalText w 0 in
      if posFromStart =? -1 then st
      else (kanjiWords ++ [mkWordObj w posFromStart (sw_reading wordData)],
            posFromStart + JS.len w)
    else (kanjiWords ++ [mkWordObj w position (sw_reading wordData)],
          position + JS.len w).

(** The alignment loop, from [textIndex = 0] and an empty [kanjiWords]. *)
Definition alignWords (originalText : jsstring)
    (segmentedWords : list SegmentedWord) : list WordObj :=
  fst (foldl (alignStep originalText) ([], 0) segmentedWords).

Section WithService.
Context (service : Service).

(** The tail of [lookupWholeWord]: the default when nothing was found. *)
Definition finish (wordObj : WordObj) : M WordObj :=
  let* m := getMeaning wordObj in
  if negb (truthy m) || JS.isBlank (default [] m)
  then setMeaning wordObj noDefinitionFound
  else ret wordObj.

Definition partialSearch (wordObj : WordObj) : M WordObj :=
  let* partialUrl := url SearchPartial (word wordObj) in
  let* partialResponse := fetch service partialUrl in
  if fst partialResponse then
    let* partialData := json (snd partialResponse) in
    match partialData with
    | Some ((_ :: _) as matches) =>
        match JS.find (λ m, wordIs (word wordObj) m && hasMeaning m) matches with
        | Some exactPartialMatch => setMeaning wordObj (meaningOf exactPartialMatch)
        | None =>
            match JS.find hasMeaning matches with
            | Some anyPartialMatchWithMeaning =>
                setMeaning wordObj (meaningOf anyPartialMatchWithMeaning)
            | None => finish wordObj
            end
        end
    | _ => finish wordObj
    end
  else finish wordObj.

Definition directSearch (wordObj : WordObj) : M WordObj :=
  let* directUrl := url SearchDirect (word wordObj) in
  let* directResponse := fetch service directUrl in
  if fst directResponse then
    let* directData := json (snd directResponse) in
    match directData with
    | Some ((_ :: _) as matches) =>
        match JS.find hasMeaning matches with
        | Some matchWithMeaning => setMeaning wordObj (meaningOf matchWithMeaning)
        | None => partialSearch wordObj
        end
    | _ => partialSearch wordObj
    end
  else partialSearch wordObj.

Definition inflectedSearch (wordObj : WordObj) : M WordObj :=
  let* inflectedUrl := url SearchInflected (word wordObj) in
  let* response := fetch service inflectedUrl in
  if fst response then
    let* data := json (snd response) in
    match data with
    | Some ((m0 :: _) as matches) =>
        match JS.find (λ m, wordIs (word wordObj) m && hasMeaning m) matches with
        | Some exactMatchWithMeaning =>
            setMeaning wordObj (meaningOf exactMatchWithMeaning)
        | None =>
            match JS.find hasMeaning matches with
            | Some anyMatchWithMeaning =>
                setMeaning wordObj (meaningOf anyMatchWithMeaning)
            | None =>
                if truthy (meaning m0) then
                  let* wordObj' := setMeaning wordObj (meaningOf m0) in
                  directSearch wordObj'
                else directSearch wordObj
            end
        end
    | _ => directSearch wordObj
    end
  else directSearch wordObj.

(** [lookupWholeWord(wordObj)]: the three searches inside one [try], whose
    [catch] stores the error text. *)
Definition lookupWholeWord (wordObj : WordObj) : M WordObj :=
  try_catch (inflectedSearch wordObj)
            (setMeaning wordObj errorFetchingMeaning).

(** The loop that resolves the words one after the other. *)
Fixpoint resolveAll (kanjiWords : list WordObj) : M (list WordObj) :=
  match kanjiWords with
  | [] => ret []
  | wordObj :: rest =>
      let* wordObj' := try_catch (lookupWholeWord wordObj)
                           (setMeaning wordObj errorFetchingMeaning) in
      let* rest' := resolveAll rest in
      ret (wordObj' :: rest')
  end.

End WithService.

(** [collectTextNodes(node, textNodes)]: the values of the collected text
    nodes, in document order. *)
Fixpoint collectTextNodes (node : Node) : list jsstring :=
  match node with
  | Text v => if negb (JS.isBlank v) then [v] else []
  | Element name _ children =>
      if isRtOrRp name then []
      else flat_map collectTextNodes children
  end.

(** The first loop of [applyHighlighting]: the offset of each collected
    text node in the original text ([None]: not entered in the map). *)
Definition locateStep (originalText : jsstring) (st : list (option Z) * Z)
    (text : jsstring) : list (option Z) * Z :=
  let '(textNodePositions, currentTextPosition) := st in
  match text with
  | [] => (textNodePositions ++ [None], currentTextPosition)
  | _ :: _ =>
      let position := JS.indexOf originalText text currentTextPosition in
      if position =? -1 then (textNodePositions ++ [None], currentTextPosition)
      else (textNodePositions ++ [Some position], position + JS.len text)
  end.

Definition locateTextNodes (originalText : jsstring) (textNodes : list jsstring)
    : list (option Z) :=
  fst (foldl (locateStep originalText) ([], 0) textNodes).

(** One iteration of the loop over the relevant words of a text node; the
    state is [fragments] and [lastIndex]. *)
Definition highlightStep (text : jsstring) (nodePosition : Z)
    (st : list Node * Z) (wordObj : WordObj) : list Node * Z :=
  let '(fragments, lastIndex) := st in
  let wordStartInNode := Z.max 0 (position wordObj - nodePosition) in
  if wordStartInNode >=? JS.len text then st
  else
    let availableLength := JS.len text - wordStartInNode in
    let wordLengthInNode := Z.min (length_ wordObj) availableLength in
    if (wordStartInNode <? 0) || (wordLengthInNode <=? 0) then st
    else
      let fragments :=
        if wordStartInNode >? lastIndex
        then fragments ++ [Text (JS.substring text lastIndex wordStartInNode)]
        else fragments in
      let wordText := JS.substr text wordStartInNode wordLengthInNode in
      (fragments ++ [wordSpan wordText (data wordObj)],
       wordStartInNode + wordLengthInNode).

(** The words whose range meets the text node's range, by position. *)
Definition relevantWords (kanjiWords : list WordObj) (text : jsstring)
    (nodePosition : Z) : list WordObj :=
  let nodeEndPosition := nodePosition + JS.len text in
  JS.sort (λ a b, (position a - nodePosition) - (position b - nodePosition))
    (List.filter
       (λ w, let wordEndPosition := position w + length_ w in
             ((position w >=? nodePosition) && (position w <? nodeEndPosition))
             || ((position w <? nodePosition) && (wordEndPosition >? nodePosition)))
       kanjiWords).

(** The second loop of [applyHighlighting] on one text node: the fragments
    that replace it, or [None] when the node stays. *)
Definition highlightLeaf (kanjiWords : list WordObj) (text : jsstring)
    (located : option Z) : option (list Node) :=
  if JS.isBlank text then None
  else
    let nodePosition := default 0 located in
    let relevant := relevantWords kanjiWords text nodePosition in
    if (length relevant =? 0)%nat then None
    else
      let '(fragments, lastIndex) :=
        foldl (highlightStep text nodePosition) ([], 0) relevant in
      let fragments :=
        if lastIndex <? JS.len text
        then fragments ++ [Text (JS.substringFrom text lastIndex)]
        else fragments in
      if (0 <? length fragments)%nat && (0 <? lastIndex) then Some fragments
      else None.

(** [parent.replaceChild(fragment, textNode)] over the whole tree: the
    collected text nodes are met in the order of [collectTextNodes], each
    takes the next entry of [rs]. *)
Fixpoint replaceLeaves (node : Node) (rs : list (option (list Node)))
    : list Node * list (option (list Node)) :=
  match node with
  | Text v =>
      if negb (JS.isBlank v) then
        match rs with
        | r :: rs' => (default [node] r, rs')
        | [] => ([node], [])
        end
      else ([node], rs)
  | Element name attrs children =>
      if isRtOrRp name then ([node], rs)
      else
        let '(children', rs') :=
          (fix go (cs : list Node) (rs : list (option (list Node))) :=
             match cs with
             | [] => ([], rs)
             | c :: cs' =>
                 let '(c', rs1) := replaceLeaves c rs in
                 let '(cs'', rs2) := go cs' rs1 in
                 (c' ++ cs'', rs2)
             end) children rs in
        ([Element name attrs children'], rs')
  end.

Fixpoint replaceForest (cs : list Node) (rs : list (option (list Node)))
    : list Node * list (option (list Node)) :=
  match cs with
  | [] => ([], rs)
  | c :: cs' =>
      let '(c', rs1) := replaceLeaves c rs in
      let '(cs'', rs2) := replaceForest cs' rs1 in
      (c' ++ cs'', rs2)
  end.

(** [applyHighlighting(rootNode, kanjiWords, originalText)]: the root after
    the mutation. A root that is itself a text node has no parent and is
    never replaced. *)
Definition applyHighlighting (rootNode : Node) (kanjiWords : list WordObj)
    (originalText : jsstring) : Node :=
  let textNodes := collectTextNodes rootNode in
  let textNodePositions := locateTextNodes originalText textNodes in
  let replacements := zip_with (highlightLeaf kanjiWords) textNodes textNodePositions in
  match rootNode with
  | Text _ => rootNode
  | Element name attrs children =>
      if isRtOrRp name then rootNode
      else Element name attrs (fst (replaceForest children replacements))
  end.

Definition childNodesOf (n : Node) : list Node :=
  match n with
  | Text _ => []
  | Element _ _ children => children
  end.

(** The comparator of the sort before highlighting: by position, longer
    words first. *)
Definition byPositionThenLonger (a b : WordObj) : Z :=
  if negb (position a =? position b) then position a - position b
  else length_ b - length_ a.

(** The second half of [enhanceWithKanjiPopups]: with no word the display
    is left as it is; otherwise the converter's markup [formatted] of the
    original text is highlighted and becomes the display. *)
Definition render (display formatted : list Node) (originalText : jsstring)
    (kanjiWords : list WordObj) : list Node :=
  if (length kanjiWords =? 0)%nat then display
  else
    let tempDiv := Element "div" [] formatted in
    let sorted := JS.sort byPositionThenLonger kanjiWords in
    childNodesOf (applyHighlighting tempDiv sorted originalText).

(** [enhanceWithKanjiPopups(originalText)] as a transformer of the display;
    [tokens] is the analyzer's answer and [formatted] the converter's. *)
Definition enhanceWithKanjiPopups (service : Service)
    (tokens : option (list Token)) (formatted : list Node)
    (originalText : jsstring) (display : list Node) : M (list Node) :=
  try_catch
    (let segmentedWords := segmentWords tokens in
     let kanjiWords := alignWords originalText segmentedWords in
     let* kanjiWords := resolveAll service kanjiWords in
     ret (render display formatted originalText kanjiWords))
    (ret display).

End Overlay.

(** ** video-player.js, second variant: ruby-driven tree-merge player *)

Module TreeMerge.
Import Net.

(** [node.textContent] *)
Fixpoint textContent (node : Node) : jsstring :=
  match node with
  | Text v => v
  | Element _ _ children => flat_map textContent children
  end.

(** [s.replace(/[()]/g, '')] *)
Definition removeParens (s : jsstring) : jsstring :=
  List.filter (λ c, negb ((c =? 40) || (c =? 41))) s.

(** [getRubyBase(rubyElement)]: the text of the children other than [rt]
    and [rp], without parentheses, trimmed. *)
Definition getRubyBase (rubyElement : Node) : jsstring :=
  let baseText :=
    match rubyElement with
    | Text _ => []
    | Element _ _ children =>
        flat_map (λ child,
                    match child with
                    | Text v => v
                    | Element name _ _ =>
                        if isRtOrRp name then [] else textContent child
                    end)
                 children
    end in
  JS.trim (removeParens baseText).

(** [isRangeProcessed(start, end, processedIndexes)] *)
Definition isRangeProcessed (start end_ : Z) (processedIndexes : gset Z) : bool :=
  existsb (λ i, bool_decide (i ∈ processedIndexes)) (seqZ start (end_ - start)).

(** [markRangeProcessed(start, end, processedIndexes)] *)
Definition markRangeProcessed (start end_ : Z) (processedIndexes : gset Z) : gset Z :=
  foldl (λ s i, {[i]} ∪ s) processedIndexes (seqZ start (end_ - start)).

(** The words that occur in a text node, by first occurrence, longer words
    first among those that start together. *)
Definition relevantWords (kanjiWords : list WordObj) (text : jsstring)
    : list WordObj :=
  JS.sort (λ a b,
             let posA := JS.indexOf text (word a) 0 in
             let posB := JS.indexOf text (word b) 0 in
             if negb (posA =? posB) then posA - posB
             else JS.len (word b) - JS.len (word a))
          (List.filter (λ kw, JS.includes text (word kw)) kanjiWords).

(** The state of the loop over the relevant words of a text node: the nodes
    appended so far, [lastIndex] and [processedIndexes]. *)
Record LeafState := {
  appended : list Node;
  lastIndex : Z;
  processedIndexes : gset Z
}.

Definition leafStep (text : jsstring) (st : LeafState) (w : WordObj) : LeafState :=
  let position := JS.indexOf text (word w) (lastIndex st) in
  if (position =? -1)
     || isRangeProcessed position (position + JS.len (word w)) (processedIndexes st)
  then st
  else
    let before :=
      if position >? lastIndex st
      then [Text (JS.substring text (lastIndex st) position)]
      else [] in
    {| appended := appended st ++ before ++ [wordSpan (word w) (data w)];
       lastIndex := position + JS.len (word w);
       processedIndexes :=
         markRangeProcessed position (position + JS.len (word w))
                            (processedIndexes st) |}.

(** The text-node case of [processNode]. *)
Definition processText (kanjiWords : list WordObj) (text : jsstring) : list Node :=
  if JS.isBlank text then [Text text]
  else
    let relevant := relevantWords kanjiWords text in
    if (length relevant =? 0)%nat then [Text text]
    else
      let st := foldl (leafStep text)
                      {| appended := []; lastIndex := 0; processedIndexes := ∅ |}
                      relevant in
      if lastIndex st <? JS.len text
      then appended st ++ [Text (JS.substringFrom text (lastIndex st))]
      else appended st.

(** The ruby case of [processNode]: the element is wrapped when a word
    matches its base text. *)
Definition processRuby (kanjiWords : list WordObj) (node : Node) : list Node :=
  let rubyBase := getRubyBase node in
  match JS.find (λ kw, bool_decide (rubyBase = word kw)
                       || JS.includes rubyBase (word kw)
                       || JS.includes (word kw) rubyBase) kanjiWords with
  | Some matchingKanjiWord =>
      [Element "span" [("class", "kanji-word")]
               [popup (data matchingKanjiWord); node]]
  | None => [node]
  end.

(** [processNode(node, fragment, kanjiWords)]: the nodes appended to
    [fragment] when no call of the function throws. The function with its
    throws is [processNodeDom] below. *)
Fixpoint processNode (kanjiWords : list WordObj) (node : Node) : list Node :=
  match node with
  | Element name attrs children =>
      if String.eqb name "rt" then [node]
      else if String.eqb name "ruby" then processRuby kanjiWords node
      else [Element name attrs (flat_map (processNode kanjiWords) children)]
  | Text text => processText kanjiWords text
  end.

(** The end of [enhanceWithKanjiPopups]: with no word the display is left
    as it is; otherwise the display is rebuilt by [processNode] from a
    [div] that holds it. *)
Definition render (display : list Node) (allWords : list WordObj) : list Node :=
  if (length allWords =? 0)%nat then display
  else
    let tempDiv := Element "div" [] display in
    let sorted := JS.sort (λ a b, position a - position b) allWords in
    processNode sorted tempDiv.

(** The two calls of [processNode] that can throw:
    [document.createElement(node.nodeName)] and
    [newNode.setAttribute(attr.name, attr.value)] throw an
    InvalidCharacterError when the browser refuses the name, and the HTML
    parser, from which the display comes, lets such names through (an
    attribute may be called [=x]). Which names are refused depends on the
    browser, so the two tests are taken as they come. A node that is neither
    a text nor an element (a comment) is read as a childless element named
    [#comment], a name that browsers refuse. *)
Record NameTests := {
  elementNameOk : string → bool;
  attributeNameOk : string → bool
}.

(** [processNode(node, fragment, kanjiWords)] with its throws: [None] when
    a call throws, otherwise the nodes appended to [fragment]. Elements
    [rt] and [ruby] are cloned, which does not throw; any other element is
    created anew, then its attributes are set one by one, then its children
    are processed in order. *)
Fixpoint processNodeDom (dom : NameTests) (kanjiWords : list WordObj)
    (node : Node) : option (list Node) :=
  match node with
  | Element name attrs children =>
      if String.eqb name "rt" then Some [node]
      else if String.eqb name "ruby" then Some (processRuby kanjiWords node)
      else if negb (elementNameOk dom name) then None
      else if negb (forallb (λ attr, attributeNameOk dom (fst attr)) attrs)
      then None
      else
        match
          (fix processChildren (childNodes : list Node) : option (list Node) :=
             match childNodes with
             | [] => Some []
             | child :: rest =>
                 match processNodeDom dom kanjiWords child with
                 | Some nodes =>
                     match processChildren rest with
                     | Some more => Some (nodes ++ more)
                     | None => None
                     end
                 | None => None
                 end
             end) children
        with
        | Some childFragment => Some [Element name attrs childFragment]
        | None => None
        end
  | Text text => Some (processText kanjiWords text)
  end.

(** The end of [enhanceWithKanjiPopups] with its throws: with no word the
    display is left as it is; otherwise [processNode] runs on the [div] that
    holds the display, and the display is replaced when it has returned. *)
Definition rebuild (dom : NameTests) (display : list Node)
    (allWords : list WordObj) : M (list Node) :=
  if (length allWords =? 0)%nat then ret display
  else
    let tempDiv := Element "div" [] display in
    let sorted := JS.sort (λ a b, position a - position b) allWords in
    match processNodeDom dom sorted tempDiv with
    | Some fragment => ret fragment
    | None => throw
    end.

Section WithService.
Context (service : Service).

Definition finish (wordObj : WordObj) : M WordObj :=
  let* m := getMeaning wordObj in
  if negb (truthy m) then setMeaning wordObj noDefinitionFound
  else ret wordObj.

Definition partialSearch (wordObj : WordObj) : M WordObj :=
  let* partialUrl := url SearchPartial (word wordObj) in
  let* partialResponse := fetch service partialUrl in
  if fst partialResponse then
    let* partialData := json (snd partialResponse) in
    match partialData with
    | Some (m0 :: _) =>
        if truthy (meaning m0) then setMeaning wordObj (meaningOf m0)
        else finish wordObj
    | _ => finish wordObj
    end
  else finish wordObj.

Definition directSearch (wordObj : WordObj) : M WordObj :=
  let* directUrl := url SearchDirect (word wordObj) in
  let* directResponse := fetch service directUrl in
  if fst directResponse then
    let* directData := json (snd directResponse) in
    match directData with
    | Some (m0 :: _) =>
        if truthy (meaning m0) then setMeaning wordObj (meaningOf m0)
        else partialSearch wordObj
    | _ => partialSearch wordObj
    end
  else partialSearch wordObj.

Definition inflectedSearch (wordObj : WordObj) : M WordObj :=
  let* inflectedUrl := url SearchInflected (word wordObj) in
  let* response := fetch service inflectedUrl in
  if fst response then
    let* data := json (snd response) in
    match data with
    | Some ((m0 :: _) as matches) =>
        match JS.find (wordIs (word wordObj)) matches with
        | Some exactMatch =>
            if truthy (meaning exactMatch)
            then setMeaning wordObj (meaningOf exactMatch)
            else if truthy (meaning m0) then setMeaning wordObj (meaningOf m0)
            else directSearch wordObj
        | None =>
            if truthy (meaning m0) then setMeaning wordObj (meaningOf m0)
            else directSearch wordObj
        end
    | _ => directSearch wordObj
    end
  else directSearch wordObj.

(** [lookupWholeWord(wordObj)] of this variant. *)
Definition lookupWholeWord (wordObj : WordObj) : M WordObj :=
  try_catch (inflectedSearch wordObj)
            (setMeaning wordObj errorFetchingMeaning).

(** [buildMeaningFromKanji(wordObj)] *)
Definition buildMeaningFromKanji (wordObj : WordObj) : M WordObj :=
  let* wordObj' := lookupWholeWord wordObj in
  let* m := getMeaning wordObj' in
  if negb (truthy m) then setMeaning wordObj' noDefinitionAvailable
  else ret wordObj'.

End WithService.

(** A word gathered from a ruby element: the word object and its
    [kanjiChars]. *)
Record RubyWord := {
  rw_obj : WordObj;
  kanjiChars : list jsstring
}.

(** One iteration of the loop over the ruby elements of the display; the
    state is [rubyWords] and the keys of [wordDataMap] (the values of the
    map are never read). *)
Definition rubyStep (originalText : jsstring)
    (st : list RubyWord * gset jsstring) (ruby : Node)
    : list RubyWord * gset jsstring :=
  let '(rubyWords, wordDataMap) := st in
  let baseText := getRubyBase ruby in
  if truthy (Some baseText) && negb (JS.isBlank baseText) then
    let w := removeParens (JS.trim baseText) in
    if existsb (λ rw, bool_decide (word (rw_obj rw) = w)) rubyWords then st
    else
      let reading :=
        match querySelector "rt" ruby with
        | Some rtElement => JS.trim (textContent rtElement)
        | None => []
        end in
      let position := JS.indexOf originalText w 0 in
      let position := if position =? -1 then 0 else position in
      (rubyWords ++
       [ {| rw_obj := {| word := w; position := position; length_ := JS.len w;
                         data := Some {| wd_word := Some w;
                                         hiragana := Some reading;
                                         meaning := None |} |};
            kanjiChars := kanjiCharsOf w |} ],
       {[w]} ∪ wordDataMap)
  else st.

(** The ruby words of the display, with the keys of [wordDataMap]. *)
Definition gatherRubyWords (originalText : jsstring) (display : list Node)
    : list RubyWord * gset jsstring :=
  let tempDiv := Element "div" [] display in
  foldl (rubyStep originalText) ([], ∅) (querySelectorAll "ruby" tempDiv).

(** The loop that resolves the ruby words one after the other. *)
Fixpoint resolveRubyWords (service : Service) (rubyWords : list RubyWord)
    : M (list RubyWord) :=
  match rubyWords with
  | [] => ret []
  | rw :: rest =>
      let wordObj := rw_obj rw in
      let* wordObj' :=
        try_catch
          (if (0 <? length (kanjiChars rw))%nat
           then buildMeaningFromKanji service wordObj
           else lookupWholeWord service wordObj)
          (setMeaning wordObj errorFetchingMeaning) in
      let* rest' := resolveRubyWords service rest in
      ret ({| rw_obj := wordObj'; kanjiChars := kanjiChars rw |} :: rest')
  end.

(** One iteration of the loop that adds the words found besides the ruby
    words. *)
Definition mergeStep (st : list WordObj * gset jsstring) (w : WordObj)
    : list WordObj * gset jsstring :=
  let '(allWords, wordDataMap) := st in
  if bool_decide (word w ∈ wordDataMap) then st
  else (allWords ++ [w], {[word w]} ∪ wordDataMap).

(** [enhanceWithKanjiPopups(originalText)] of this variant as a transformer
    of the display: the words of the ruby elements are resolved, the words
    found by [findKanjiWords] are added, and the display is rebuilt. When
    the rebuilding throws, the [catch] leaves the display as it is. *)
Definition enhanceWithKanjiPopups (service : Service) (dom : NameTests)
    (utilHasKanji : option (jsstring → bool)) (originalText : jsstring)
    (display : list Node) : M (list Node) :=
  try_catch
    (let gathered := gatherRubyWords originalText display in
     let wordDataMap := snd gathered in
     let* rubyWords := resolveRubyWords service (fst gathered) in
     let expectedWords := map (λ rw, word (rw_obj rw)) rubyWords in
     let* kanjiWords :=
       KanjiDictionary.findKanjiWords service utilHasKanji originalText
                                      expectedWords in
     let allWords :=
       fst (foldl mergeStep (map rw_obj rubyWords, wordDataMap) kanjiWords) in
     rebuild dom display allWords)
    (ret display).

End TreeMerge.

(** ** Notions used to state the properties *)

(** [w] occurs in [text] at offset [p]. *)
Definition occursAt (text w : jsstring) (p : Z) : Prop :=
  0 ≤ p ∧ p + JS.len w ≤ JS.len text
  ∧ take (length w) (drop (Z.to_nat p) text) = w.

(** [p] is the first occurrence of [w] at or after offset [k]. *)
Definition firstFrom (text w : jsstring) (k p : Z) : Prop :=
  k ≤ p ∧ occursAt text w p ∧ ∀ q, k ≤ q → q < p → ¬ occursAt text w q.

(** [w] does not occur at or after offset [k]. *)
Definition noneFrom (text w : jsstring) (k : Z) : Prop :=
  ∀ q, k ≤ q → ¬ occursAt text w q.

(** The Position Aligner as the specification words it: words are taken in
    order with one forward cursor; a word is searched from the cursor, then
    from offset 0, and dropped when it occurs nowhere. *)
Inductive Aligned (text : jsstring) : Z → list Overlay.SegmentedWord → list WordObj → Prop :=
| Aligned_nil (textIndex : Z) :
    Aligned text textIndex [] []
| Aligned_cursor (textIndex p : Z) wd rest out :
    firstFrom text (Overlay.sw_word wd) textIndex p →
    Aligned text (p + JS.len (Overlay.sw_word wd)) rest out →
    Aligned text textIndex (wd :: rest)
            (Overlay.mkWordObj (Overlay.sw_word wd) p (Overlay.sw_reading wd) :: out)
| Aligned_fallback (textIndex p : Z) wd rest out :
    noneFrom text (Overlay.sw_word wd) textIndex →
    firstFrom text (Overlay.sw_word wd) 0 p →
    Aligned text (p + JS.len (Overlay.sw_word wd)) rest out →
    Aligned text textIndex (wd :: rest)
            (Overlay.mkWordObj (Overlay.sw_word wd) p (Overlay.sw_reading wd) :: out)
| Aligned_discard (textIndex : Z) wd rest out :
    noneFrom text (Overlay.sw_word wd) 0 →
    Aligned text textIndex rest out →
    Aligned text textIndex (wd :: rest) out.

(** The text a viewer reads: the text leaves in document order, without
    the popup payloads and without the reading sub-nodes ([rt], [rp]). *)
Definition isPopup (attrs : list (string * string)) : bool :=
  bool_decide (("class", "kanji-popup") ∈ attrs).

Fixpoint visibleText (node : Node) : jsstring :=
  match node with
  | Text v => v
  | Element name attrs children =>
      if isRtOrRp name || isPopup attrs then []
      else flat_map visibleText children
  end.

(** A fragment of a split text leaf: plain text, or a word in its wrapper. *)
Inductive Piece := Plain (s : jsstring) | Wrapped (w : WordObj).

Definition pieceNode (p : Piece) : Node :=
  match p with
  | Plain s => Text s
  | Wrapped w => wordSpan (word w) (data w)
  end.

Definition pieceText (p : Piece) : jsstring :=
  match p with
  | Plain s => s
  | Wrapped w => word w
  end.

(** *** Replies of the dictionary service, tier by tier *)

Section Tiers.
Import Net.
Context (service : Service).

Definition request (e : Endpoint) (w : jsstring) : Request :=
  {| endpoint := e; q := w |}.

(** The replies a resolution of [w] gets when it starts after the requests
    [past] and goes through the tiers in order. *)
Definition reply1 (past : list Request) (w : jsstring) : Reply :=
  service (past ++ [request SearchInflected w]).
Definition reply2 (past : list Request) (w : jsstring) : Reply :=
  service (past ++ [request SearchInflected w; request SearchDirect w]).
Definition reply3 (past : list Request) (w : jsstring) : Reply :=
  service (past ++ [request SearchInflected w; request SearchDirect w;
                    request SearchPartial w]).

(** A reply on which the awaiting code throws: a rejected fetch, or an OK
    response whose body cannot be read. *)
Definition throws (r : Reply) : bool :=
  match r with
  | Rejected => true
  | Response true Malformed => true
  | _ => false
  end.

(** The matches of an OK response; a response that is not OK is not read. *)
Definition matchesOf (r : Reply) : list WordData :=
  match r with
  | Response true (Json (Some ms)) => ms
  | _ => []
  end.

(** Some match has a meaning that is not blank. *)
Definition usable (r : Reply) : bool := existsb hasMeaning (matchesOf r).

(** Some match is the word itself with a meaning that is not empty. *)
Definition exactNonEmpty (w : jsstring) (r : Reply) : bool :=
  existsb (λ m, wordIs w m && truthy (meaning m)) (matchesOf r).

(** Some match is the word itself with a meaning that is not blank. *)
Definition exactUsable (w : jsstring) (r : Reply) : bool :=
  existsb (λ m, wordIs w m && hasMeaning m) (matchesOf r).

(** The first match that is the word itself has a meaning that is not
    blank. *)
Definition firstExactUsable (w : jsstring) (r : Reply) : bool :=
  match JS.find (wordIs w) (matchesOf r) with
  | Some m => hasMeaning m
  | None => false
  end.

(** What the tree-merge player takes from a reply: the meaning of the first
    exact match (inflected search only), else of the first match. *)
Definition firstTruthy (exactFirst : bool) (w : jsstring) (r : Reply) : bool :=
  (exactFirst &&
   match JS.find (wordIs w) (matchesOf r) with
   | Some m => truthy (meaning m)
   | None => false
   end)
  || match matchesOf r with
     | m0 :: _ => truthy (meaning m0)
     | [] => false
     end.

(** The requests of one resolution when every tier is entered only after
    the previous one neither threw nor stopped the resolution; [stop1] and
    [stop2] say when the first and second reply end it. *)
Definition tierRequests (stop1 stop2 : Reply → bool) (past : list Request)
    (w : jsstring) : list Request :=
  if negb (wellFormed w) then []
  else
    request SearchInflected w ::
    (if throws (reply1 past w) || stop1 (reply1 past w) then []
     else request SearchDirect w ::
          (if throws (reply2 past w) || stop2 (reply2 past w) then []
           else [request SearchPartial w])).

(** Some tier that was entered threw, or the word could not be encoded. *)
Definition aborted (stop1 stop2 : Reply → bool) (past : list Request)
    (w : jsstring) : bool :=
  negb (wellFormed w)
  || throws (reply1 past w)
  || (negb (stop1 (reply1 past w))
      && (throws (reply2 past w)
          || (negb (stop2 (reply2 past w)) && throws (reply3 past w)))).

End Tiers.

(** The meaning stored in a word. *)
Definition gloss (wordObj : WordObj) : option jsstring :=
  match data wordObj with
  | Some d => meaning d
  | None => None
  end.

(** *** Sample data *)

Definition s_tokyo : jsstring := [0x6771; 0x4EAC].
Definition s_tokyoto : jsstring := [0x6771; 0x4EAC; 0x90FD].
Definition s_ni : jsstring := [0x306B].
Definition s_iku : jsstring := [0x884C; 0x304F].
Definition s_tokyo_ni_iku : jsstring := s_tokyo ++ s_ni ++ s_iku.
Definition s_noun : jsstring := [0x540D; 0x8A5E].
Definition s_verb : jsstring := [0x52D5; 0x8A5E].
Definition s_particle : jsstring := [0x52A9; 0x8A5E].
(** The readings, in katakana as the analyzer gives them. *)
Definition r_tokyo : jsstring := [0x30C8; 0x30A6; 0x30AD; 0x30E7; 0x30A6].
Definition r_iku : jsstring := [0x30A4; 0x30AF].
(** The same readings in hiragana. *)
Definition h_tokyo : jsstring := [0x3068; 0x3046; 0x304D; 0x3087; 0x3046].
Definition h_iku : jsstring := [0x3044; 0x304F].

(** *** Timestamps, as the specification describes them *)

(** An entry is active at [t] when both its bounds are numbers around [t]. *)
Definition covers (e : SubtitleParser.SubtitleEntry) (t : Z) : Prop :=
  ∃ a b, SubtitleParser.start e = Num a ∧ SubtitleParser.end_ e = Num b
         ∧ a ≤ t ∧ t ≤ b.

(** The nine digits of [HH:MM:SS,mmm], as values. *)
Record Stamp := {
  H1 : Z; H2 : Z; M1 : Z; M2 : Z; S1 : Z; S2 : Z; F1 : Z; F2 : Z; F3 : Z
}.

Definition stampDigits (d : Stamp) : list Z :=
  [H1 d; H2 d; M1 d; M2 d; S1 d; S2 d; F1 d; F2 d; F3 d].

Definition digitsOk (d : Stamp) : Prop :=
  Forall (λ x, 0 ≤ x ∧ x ≤ 9) (stampDigits d).

Definition stampText (d : Stamp) : jsstring :=
  [48 + H1 d; 48 + H2 d; 58; 48 + M1 d; 48 + M2 d; 58; 48 + S1 d; 48 + S2 d;
   44; 48 + F1 d; 48 + F2 d; 48 + F3 d].

(** [ms = ((H*3600 + M*60 + S) * 1000) + mmm], components read in base 10. *)
Definition stampMs (d : Stamp) : Z :=
  let H := 10 * H1 d + H2 d in
  let M := 10 * M1 d + M2 d in
  let S := 10 * S1 d + S2 d in
  let mmm := 100 * F1 d + 10 * F2 d + F3 d in
  ((H * 3600 + M * 60 + S) * 1000) + mmm.

Definition rangeText (a b : Stamp) : jsstring :=
  stampText a ++ js " --> " ++ stampText b.

(** [s] begins with a time range. *)
Definition startsRange (s : jsstring) : Prop :=
  ∃ a b post, digitsOk a ∧ digitsOk b ∧ s = rangeText a b ++ post.

(** [line] matches the time-range pattern somewhere. *)
Definition hasRange (line : jsstring) : Prop :=
  ∃ pre s, line = pre ++ s ∧ startsRange s.

(** The lines of a block and its second line (the empty string stands in
    when there is none). *)
Definition blockLines (block : jsstring) : list jsstring := JS.split block [10].
Definition secondLine (block : jsstring) : jsstring :=
  default [] (blockLines block !! 1%nat).

(** The sample timeline: two overlapping entries, the later-starting one
    loaded first. *)
Definition sampleTimeline : SubtitleParser.t :=
  {| SubtitleParser.subtitles :=
       [ {| SubtitleParser.start := Num 2000; SubtitleParser.end_ := Num 3000;
            SubtitleParser.text := js "second" |};
         {| SubtitleParser.start := Num 1000; SubtitleParser.end_ := Num 2500;
            SubtitleParser.text := js "first" |} ] |}.

Definition sampleBlock : jsstring :=
  js "1" ++ [10] ++ js "00:00:01,000 --> 00:00:02,500" ++ [10] ++ js "Hello".

(** Four blocks with mixed line endings. *)
Definition sampleSrt : jsstring :=
  js "1" ++ [13; 10] ++ js "00:00:05,000 --> 00:00:06,000" ++ [13; 10]
  ++ js "later" ++ [13; 10] ++ js "first" ++ [13; 10; 13; 10]
  ++ js "2" ++ [10] ++ js "00:61:00,000 --> 00:61:01,500" ++ [10]
  ++ js "two lines" ++ [10; 10]
  ++ js "3" ++ [13] ++ js "00:00:09,000 --> 00:00:10,000" ++ [13; 13]
  ++ js "4" ++ [10] ++ js "no time range" ++ [10] ++ js "text" ++ [10].

(** [00:61:01,500] *)
Definition sampleStamp : Stamp :=
  {| H1 := 0; H2 := 0; M1 := 6; M2 := 1; S1 := 0; S2 := 1;
     F1 := 5; F2 := 0; F3 := 0 |}.

(** The word with its meaning replaced. *)
Definition withMeaning (wordObj : WordObj) (s : jsstring) : WordObj :=
  {| word := word wordObj; position := position wordObj;
     length_ := length_ wordObj;
     data := match data wordObj with
             | Some d => Some {| wd_word := wd_word d; hiragana := hiragana d;
                                 meaning := Some s |}
             | None => None
             end |}.

(** The session after one more request. *)
Definition logged (st : Net.World) (r : Net.Request) : Net.World :=
  {| Net.requests := Net.requests st ++ [r]; Net.cache := Net.cache st |}.

(** The result of a resolution is the word itself or the word with a new
    meaning. *)
Definition sameBut (wordObj wordObj' : WordObj) : Prop :=
  wordObj' = wordObj ∨ ∃ s, wordObj' = withMeaning wordObj s.

(** What a tier does with its reply: it throws, it settles the meaning
    with a match that passes [good], or it passes on; [stop] tells the
    replies that settle the meaning. *)
Inductive TierRun (stop : Net.Reply → bool) (good : WordData → bool)
    (wordObj : WordObj) (r : Net.Reply) (st : Net.World)
    (next : Net.M WordObj) : Net.Outcome WordObj * Net.World → Prop :=
| TierThrows :
    throws r = true → TierRun stop good wordObj r st next (Net.Thrown, st)
| TierSettles m :
    throws r = false → stop r = true →
    m ∈ matchesOf r → good m = true →
    TierRun stop good wordObj r st next
            (Net.Returned (withMeaning wordObj (Net.meaningOf m)), st)
| TierPasses :
    throws r = false → stop r = false →
    TierRun stop good wordObj r st next (next st).

(** *** Sample sessions *)

Definition s_neko : jsstring := [0x732B].
Definition s_cat : jsstring := js "cat".

Definition nekoWord : WordObj := Overlay.mkWordObj s_neko 0 [].

Definition emptyWorld : Net.World := {| Net.requests := []; Net.cache := ∅ |}.

Definition matchOf (w meaning : jsstring) : WordData :=
  {| wd_word := Some w; hiragana := None; meaning := Some meaning |}.

(** Every request is answered with the word itself and a meaning of two
    spaces. *)
Definition blankService : Net.Service :=
  λ _, Net.Response true (Net.Json (Some [matchOf s_neko (js "  ")])).

(** Every request is answered with two records of the word, the first
    without a meaning. *)
Definition dupService : Net.Service :=
  λ _, Net.Response true
         (Net.Json (Some [matchOf s_neko []; matchOf s_neko s_cat])).

(** Every request is answered with the word and its meaning. *)
Definition catService : Net.Service :=
  λ _, Net.Response true (Net.Json (Some [matchOf s_neko s_cat])).

(** The first request of the session is rejected, later ones are answered. *)
Definition rejectFirstService : Net.Service :=
  λ history,
    match history with
    | [_] => Net.Rejected
    | _ => Net.Response true (Net.Json (Some [matchOf s_neko s_cat]))
    end.

(** The first request gets a response that is not OK, later ones are
    answered. *)
Definition notOkFirstService : Net.Service :=
  λ history,
    match history with
    | [_] => Net.Response false Net.Malformed
    | _ => Net.Response true (Net.Json (Some [matchOf s_neko s_cat]))
    end.

(** Every response is OK and has no match. *)
Definition emptyService : Net.Service :=
  λ _, Net.Response true (Net.Json (Some [])).

(** The session after one cached lookup of the sample word. *)
Definition cachedWorld : Net.World :=
  {| Net.requests := [request Net.SearchDirect s_neko];
     Net.cache := <[s_neko := Some (matchOf s_neko s_cat)]> ∅ |}.

(** The analyzer's tokens for the sample sentence, particle included. *)
Definition sampleTokens : list Overlay.Token :=
  [ {| Overlay.surface_form := s_tokyo; Overlay.reading := Some r_tokyo;
       Overlay.pos := s_noun |};
    {| Overlay.surface_form := s_ni; Overlay.reading := Some [0x30CB];
       Overlay.pos := s_particle |};
    {| Overlay.surface_form := s_iku; Overlay.reading := Some r_iku;
       Overlay.pos := s_verb |} ].

(** The reading stored in a word. *)
Definition readingOf (wordObj : WordObj) : option jsstring :=
  match data wordObj with
  | Some d => hiragana d
  | None => None
  end.

(** [c] is a katakana code unit of the converted range. *)
Definition isKatakana (c : Z) : bool := (0x30A1 <=? c) && (c <=? 0x30F6).

(** The text of a forest as a viewer reads it. *)
Definition visibleTextOf (nodes : list Node) : jsstring :=
  flat_map visibleText nodes.

(** The part of a text leaf that the loop of [processNode] has emitted:
    pieces that tile the leaf up to [lastIndex], wrapping words of [ws]
    only, with every claimed offset below [lastIndex]. *)
Definition leafInv (ws : list WordObj) (text : jsstring)
    (st : TreeMerge.LeafState) : Prop :=
  0 ≤ TreeMerge.lastIndex st ∧ TreeMerge.lastIndex st ≤ JS.len text
  ∧ (∀ i, i ∈ TreeMerge.processedIndexes st → i < TreeMerge.lastIndex st)
  ∧ ∃ pieces,
      TreeMerge.appended st = map pieceNode pieces
      ∧ flat_map pieceText pieces = take (Z.to_nat (TreeMerge.lastIndex st)) text
      ∧ ∀ w, Wrapped w ∈ pieces → w ∈ ws.

(** A second sample sentence, whose first word ends inside a text leaf of
    the converter's markup. *)
Definition s_toki : jsstring := [0x3068; 0x304D].
Definition s_iku_toki : jsstring := s_iku ++ s_toki.
Definition ikuTokiTokens : list Overlay.Token :=
  [ {| Overlay.surface_form := s_iku; Overlay.reading := Some r_iku;
       Overlay.pos := s_verb |};
    {| Overlay.surface_form := s_toki; Overlay.reading := Some [0x30C8; 0x30AD];
       Overlay.pos := s_noun |} ].
(** [<ruby>行<rp>(</rp><rt>い</rt><rp>)</rp></ruby>くとき] *)
Definition ikuTokiMarkup : list Node :=
  [ Element "ruby" []
      [ Text [0x884C]; Element "rp" [] [Text (js "(")];
        Element "rt" [] [Text [0x3044]]; Element "rp" [] [Text (js ")")] ];
    Text ([0x304F] ++ s_toki) ].

(** Two words that start together, the longer one first. *)
Definition tokyotoWords : list WordObj :=
  [Overlay.mkWordObj s_tokyoto 0 []; Overlay.mkWordObj s_tokyo 0 []].

(** The order in which [processNode] takes the words of a text leaf: by
    first match position, the longer word first among equal positions. *)
Definition leafOrder (text : jsstring) (a b : WordObj) : Prop :=
  JS.indexOf text (word a) 0 < JS.indexOf text (word b) 0
  ∨ (JS.indexOf text (word a) 0 = JS.indexOf text (word b) 0
     ∧ JS.len (word b) ≤ JS.len (word a)).

(** One iteration of the leaf loop of [processNode] with the test of
    [processedIndexes] left out: the word is wrapped at its first occurrence
    at or after [lastIndex], if there is one. *)
Definition leafStepFromCursor (text : jsstring) (st : TreeMerge.LeafState)
    (w : WordObj) : TreeMerge.LeafState :=
  let position := JS.indexOf text (word w) (TreeMerge.lastIndex st) in
  if position =? -1 then st
  else
    let before :=
      if position >? TreeMerge.lastIndex st
      then [Text (JS.substring text (TreeMerge.lastIndex st) position)]
      else [] in
    {| TreeMerge.appended :=
         TreeMerge.appended st ++ before ++ [wordSpan (word w) (data w)];
       TreeMerge.lastIndex := position + JS.len (word w);
       TreeMerge.processedIndexes :=
         TreeMerge.markRangeProcessed position (position + JS.len (word w))
                                      (TreeMerge.processedIndexes st) |}.

(** The state in which the leaf loop starts. *)
Definition leafStart : TreeMerge.LeafState :=
  {| TreeMerge.appended := []; TreeMerge.lastIndex := 0;
     TreeMerge.processedIndexes := ∅ |}.


(** ** Notions used to state further properties of the code *)

(** The largest value a matched timestamp can denote, [99:99:99,999]. *)
Definition maxStampMs : Z := 362439999.

(** A file with line feeds rewritten as CR LF pairs, or as lone CRs. *)
Definition toCRLF (s : jsstring) : jsstring :=
  flat_map (λ c, if c =? 10 then [13; 10] else [c]) s.
Definition toCR (s : jsstring) : jsstring :=
  map (λ c, if c =? 10 then 13 else c) s.

(** What an entry of a parsed timeline looks like. *)
Definition entryOk (e : SubtitleParser.SubtitleEntry) : Prop :=
  (∃ a b, SubtitleParser.start e = Num a ∧ SubtitleParser.end_ e = Num b
          ∧ (0 ≤ a ∧ a ≤ maxStampMs) ∧ (0 ≤ b ∧ b ≤ maxStampMs))
  ∧ (10 ∉ SubtitleParser.text e) ∧ (13 ∉ SubtitleParser.text e).

(** The number of colons in [s]. *)
Definition colons (s : jsstring) : nat := length (List.filter (λ c, c =? 58) s).

(** *** What a computation does, whatever the service answers *)

(** Run from [st], the computation [m] returns a value and a session that
    satisfy [P], or it throws in a session that satisfies [Q]. *)
Definition post {A} (m : Net.M A) (st : Net.World)
    (P : A → Net.World → Prop) (Q : Net.World → Prop) : Prop :=
  match m st with
  | (Net.Returned a, st') => P a st'
  | (Net.Thrown, st') => Q st'
  end.

(** The session [st'] continues [st]: the cache is the same and the
    requests of [st] are followed by requests that satisfy [allowed]. *)
Definition grows (allowed : Net.Request → Prop) (st st' : Net.World) : Prop :=
  Net.cache st' = Net.cache st
  ∧ ∃ new, Net.requests st' = Net.requests st ++ new ∧ Forall allowed new.

(** The meaning stored in a word is not empty, is not blank. *)
Definition hasGloss (wordObj : WordObj) : Prop :=
  ∃ s, gloss wordObj = Some s ∧ s ≠ [].
Definition hasVisibleGloss (wordObj : WordObj) : Prop :=
  ∃ s, gloss wordObj = Some s ∧ JS.isBlank s = false.

(** A request for the word [w] itself. *)
Definition asksFor (w : jsstring) (r : Net.Request) : Prop := Net.q r = w.

(** A request for one of the words [ws]. *)
Definition asksAmong (ws : list jsstring) (r : Net.Request) : Prop := Net.q r ∈ ws.

(** The word [w'] and the session [st'] after a resolution of [w] that
    started in session [st0]: the word differs from [w] in its meaning at
    most, the meaning is there, and the requests asked for the word. *)
Definition overlayDone (w : WordObj) (st0 : Net.World)
    : WordObj → Net.World → Prop :=
  λ w' st', sameBut w w' ∧ hasVisibleGloss w'
            ∧ grows (asksFor (word w)) st0 st'.
Definition treeMergeDone (w : WordObj) (st0 : Net.World)
    : WordObj → Net.World → Prop :=
  λ w' st', sameBut w w' ∧ hasGloss w'
            ∧ grows (asksFor (word w)) st0 st'.
Definition onlyAsked (w : WordObj) (st0 : Net.World) : Net.World → Prop :=
  λ st', grows (asksFor (word w)) st0 st'.

(** *** Words found by the dictionary object *)

(** A request that does not go to the inflected search. *)
Definition notInflected (r : Net.Request) : Prop :=
  Net.endpoint r ≠ Net.SearchInflected.

(** A direct or partial search for one kanji of [w]. *)
Definition kanjiQuery (w : jsstring) (r : Net.Request) : Prop :=
  notInflected r ∧ ∃ c, c ∈ w ∧ isKanjiUnit c = true ∧ Net.q r = [c].

(** The entry that [lookupIndividualKanji] builds for [w] from the
    meanings of its kanji. *)
Definition combinedEntry (w text : jsstring) (e : WordObj) : Prop :=
  word e = w ∧ position e = JS.indexOf text w 0 ∧ length_ e = JS.len w
  ∧ hasGloss e
  ∧ ∃ d, data e = Some d ∧ wd_word d = Some w ∧ is_Some (hiragana d).

(** An entry of the array that [findKanjiWords] returns for [text]. *)
Definition foundEntry (text : jsstring) (expectedWords : list jsstring)
    (e : WordObj) : Prop :=
  is_Some (data e) ∧ length_ e = JS.len (word e)
  ∧ (-1 ≤ position e ∧ position e ≤ JS.len text)
  ∧ (word e ∈ expectedWords ∨ ∃ c, c ∈ text ∧ word e = [c]).

(** The array [results] and the session [st'] in the loops of
    [findKanjiWords], which started in session [st0]. *)
Definition foundAll (text : jsstring) (expectedWords : list jsstring)
    (st0 : Net.World) : list WordObj → Net.World → Prop :=
  λ results st', Forall (foundEntry text expectedWords) results
                 ∧ grows notInflected st0 st'.
Definition notInflectedFrom (st0 : Net.World) : Net.World → Prop :=
  λ st', grows notInflected st0 st'.

(** *** Ruby elements *)

(** The markup the converter writes for a word with a reading:
    [<ruby>base<rp>(</rp><rt>reading</rt><rp>)</rp></ruby>]. *)
Definition rubyOf (base reading : jsstring) : Node :=
  Element "ruby" []
    [ Text base; Element "rp" [] [Text (js "(")];
      Element "rt" [] [Text reading]; Element "rp" [] [Text (js ")")] ].

(** The offsets [a ≤ i < b]. *)
Definition inRange (a b i : Z) : Prop := a ≤ i ∧ i < b.

(** A word gathered from the ruby elements [rubyElements] of a display
    that shows [text]. *)
Definition gathered (text : jsstring) (rubyElements : list Node)
    (rw : TreeMerge.RubyWord) : Prop :=
  let o := TreeMerge.rw_obj rw in
  (∃ ruby, ruby ∈ rubyElements ∧ word o = TreeMerge.getRubyBase ruby)
  ∧ word o ≠ []
  ∧ length_ o = JS.len (word o)
  ∧ (0 ≤ position o ∧ position o ≤ JS.len text)
  ∧ (JS.includes text (word o) = true → firstFrom text (word o) 0 (position o))
  ∧ (JS.includes text (word o) = false → position o = 0)
  ∧ TreeMerge.kanjiChars rw = kanjiCharsOf (word o)
  ∧ ∃ reading, data o = Some {| wd_word := Some (word o);
                                hiragana := Some reading; meaning := None |}.


(** The surface strings of the gathered words. *)
Definition rubyWordsOf (rubyWords : list TreeMerge.RubyWord) : list jsstring :=
  map (λ rw, word (TreeMerge.rw_obj rw)) rubyWords.

(** What the loop over the ruby elements keeps: the gathered words have
    distinct surface strings, which are the keys of [wordDataMap]. *)
Definition gatherInv (text : jsstring) (rubyElements : list Node)
    (st : list TreeMerge.RubyWord * gset jsstring) : Prop :=
  NoDup (rubyWordsOf (fst st))
  ∧ (∀ x, x ∈ snd st ↔ x ∈ rubyWordsOf (fst st))
  ∧ Forall (gathered text rubyElements) (fst st).






(** *** Words and text leaves of the overlay player *)

(** The words are in text order and no two of them overlap. *)
Definition inOrder (ws : list WordObj) : Prop :=
  StronglySorted (λ a b, position a + length_ a ≤ position b) ws.

(** The word has at least one character and lies inside [text], where
    [text] reads it. *)
Definition placed (text : jsstring) (w : WordObj) : Prop :=
  0 < length_ w ∧ length_ w = JS.len (word w)
  ∧ occursAt text (word w) (position w).

(** The range of the word lies inside the leaf [text] that starts at offset
    [nodePosition], or does not meet it. *)
Definition insideLeaf (nodePosition : Z) (text : jsstring) (w : WordObj) : Prop :=
  nodePosition ≤ position w
  ∧ position w + length_ w ≤ nodePosition + JS.len text.
Definition outsideLeaf (nodePosition : Z) (text : jsstring) (w : WordObj) : Prop :=
  position w + length_ w ≤ nodePosition
  ∨ nodePosition + JS.len text ≤ position w.

(** The text of the analyzer's tokens, one after the other. *)
Definition tokensText (tokens : list Overlay.Token) : jsstring :=
  flat_map Overlay.surface_form tokens.

(** The surface forms the aligner places: the tokens of the kept parts of
    speech that are not blank. *)
Definition keptWords (tokens : list Overlay.Token) : list jsstring :=
  List.filter (λ w, negb (JS.isBlank w))
    (map Overlay.sw_word (Overlay.segmentWords (Some tokens))).

(** *** Markup that the players must leave alone *)

(** The reading elements and the ruby elements of a forest, in document
    order. *)
Definition readingsOf (nodes : list Node) : list Node :=
  flat_map (selectAll "rt") nodes.
Definition rubiesOf (nodes : list Node) : list Node :=
  flat_map (selectAll "ruby") nodes.

(** Fragments that hold no element named [name]. *)
Definition free (name : string) (replacement : option (list Node)) : Prop :=
  ∀ fragments, replacement = Some fragments →
               flat_map (selectAll name) fragments = [].

(** The ranges of the text leaves that were located, in document order:
    offset and length. *)
Definition locatedSpans (textNodes : list jsstring)
    (textNodePositions : list (option Z)) : list (Z * Z) :=
  omap (λ tp : jsstring * option Z,
          match tp.2 with
          | Some p => Some (p, JS.len tp.1)
          | None => None
          end)
       (zip textNodes textNodePositions).

(** The leaf was located where the text reads it, at or after [cursor]. *)
Definition locatedAt (originalText : jsstring) (cursor : Z) (text : jsstring)
    (located : option Z) : Prop :=
  ∀ p, located = Some p → cursor ≤ p ∧ text ≠ [] ∧ occursAt originalText text p.

(** * Properties *)

(** ** String primitives *)

Lemma len_nonneg (s : jsstring) : 0 ≤ JS.len s.
Proof. unfold JS.len. lia. Qed.

Lemma len_app (s t : jsstring) : JS.len (s ++ t) = JS.len s + JS.len t.
Proof. unfold JS.len. rewrite length_app. lia. Qed.

Lemma startsWith_app (s w : jsstring) :
  JS.startsWith s w = true ↔ ∃ rest, s = w ++ rest.
Proof.
  revert s. induction w as [|x w IH]; intros s; simpl.
  - split; [intros _; by exists s | done].
  - destruct s as [|y s].
    + split; [done | intros [rest Hr]; discriminate].
    + rewrite andb_true_iff, IH, Z.eqb_eq. split.
      * intros [-> [rest ->]]. by exists rest.
      * intros [rest Hr]. simplify_eq/=. split; [done | by exists rest].
Qed.

Lemma startsWith_occurs (text w : jsstring) (p : nat) :
  JS.startsWith (drop p text) w = true ∧ (p ≤ length text)%nat
  ↔ occursAt text w (Z.of_nat p).
Proof.
  unfold occursAt, JS.len. rewrite Nat2Z.id, startsWith_app. split.
  - intros [[rest Hr] Hp]. split; [lia|].
    assert (length (drop p text) = (length w + length rest)%nat) as Hl
      by (rewrite Hr, length_app; lia).
    rewrite length_drop in Hl. split; [lia|].
    rewrite Hr. by rewrite take_app_length.
  - intros (_ & Hle & Ht). split; [|lia].
    exists (drop (length w) (drop p text)).
    rewrite <- Ht at 1. by rewrite take_drop.
Qed.

(** The scan stops at the first suffix that starts with the word. *)
Lemma indexOf_scan_spec (w s : jsstring) (k : Z) :
  (JS.indexOf_scan w s k = -1
   ∧ ∀ j, (j ≤ length s)%nat → JS.startsWith (drop j s) w = false)
  ∨ (∃ j, (j ≤ length s)%nat
          ∧ JS.indexOf_scan w s k = k + Z.of_nat j
          ∧ JS.startsWith (drop j s) w = true
          ∧ ∀ i, (i < j)%nat → JS.startsWith (drop i s) w = false).
Proof.
  revert k. induction s as [|c s IH]; intros k.
  - cbn [JS.indexOf_scan]. destruct (JS.startsWith [] w) eqn:Hs.
    + right. exists 0%nat. repeat split; [simpl; lia | lia | done | lia].
    + left. split; [done|]. intros j Hj. by rewrite drop_nil.
  - cbn [JS.indexOf_scan]. destruct (JS.startsWith (c :: s) w) eqn:Hs.
    + right. exists 0%nat. repeat split; [simpl; lia | lia | done | lia].
    + destruct (IH (k + 1)) as [[Hr Hn] | (j & Hj & Hr & Ht & Hn)].
      * left. split; [done|]. intros [|j] Hj; [done|].
        simpl. apply Hn. simpl in Hj. lia.
      * right. exists (S j). repeat split.
        -- simpl. lia.
        -- rewrite Hr. lia.
        -- done.
        -- intros [|i] Hi; [done|]. simpl. apply Hn. lia.
Qed.

Lemma occursAt_nat (text w : jsstring) (q : Z) :
  occursAt text w q →
  ∃ j, q = Z.of_nat j ∧ (j ≤ length text)%nat
       ∧ JS.startsWith (drop j text) w = true.
Proof.
  intros Hocc. pose proof Hocc as (H0 & Hb & _).
  exists (Z.to_nat q). pose proof (len_nonneg w).
  assert (q = Z.of_nat (Z.to_nat q)) as Hq by lia.
  rewrite Hq in Hocc. apply startsWith_occurs in Hocc as [? ?]. done.
Qed.

(** [indexOf] from a cursor inside the text: either [-1] and no occurrence
    from the cursor on, or the first occurrence from the cursor on. *)
Lemma indexOf_spec (text w : jsstring) (k : Z) :
  0 ≤ k → k ≤ JS.len text →
  (JS.indexOf text w k = -1 ∧ noneFrom text w k)
  ∨ firstFrom text w k (JS.indexOf text w k).
Proof.
  intros H0 Hk. unfold JS.indexOf, JS.clamp.
  replace (Z.min (Z.max k 0) (JS.len text)) with k by lia.
  set (n := Z.to_nat k). assert (k = Z.of_nat n) as Hn by lia.
  assert (n ≤ length text)%nat as Hle by (unfold JS.len in Hk; lia).
  destruct (indexOf_scan_spec w (drop n text) k)
    as [[Hr Hnone] | (j & Hj & Hr & Ht & Hnone)].
  - left. split; [done|]. intros q Hq Hocc.
    apply occursAt_nat in Hocc as (i & -> & Hi & Hs).
    specialize (Hnone (i - n)%nat). rewrite length_drop in Hnone.
    rewrite drop_drop in Hnone.
    replace (n + (i - n))%nat with i in Hnone by lia.
    rewrite Hnone in Hs; [done | lia].
  - right. rewrite Hr. rewrite length_drop in Hj. rewrite drop_drop in Ht.
    split; [lia|]. split.
    + rewrite Hn, <- Nat2Z.inj_add. apply startsWith_occurs. split; [done | lia].
    + intros q Hq Hlt Hocc.
      apply occursAt_nat in Hocc as (i & -> & Hi & Hs).
      specialize (Hnone (i - n)%nat). rewrite drop_drop in Hnone.
      replace (n + (i - n))%nat with i in Hnone by lia.
      rewrite Hnone in Hs; [done | lia].
Qed.

Lemma firstFrom_bounds (text w : jsstring) (k p : Z) :
  firstFrom text w k p → 0 ≤ p ∧ p + JS.len w ≤ JS.len text.
Proof. intros (_ & (? & ? & _) & _). done. Qed.

Lemma firstFrom_not_minus1 (text w : jsstring) (k : Z) :
  ¬ firstFrom text w k (-1).
Proof. intros (_ & (? & _) & _). lia. Qed.

(** [indexOf] finds exactly the occurrences of the word. *)
Lemma indexOf_found (text w : jsstring) (k : Z) :
  0 ≤ k → k ≤ JS.len text →
  JS.indexOf text w k ≠ -1 → firstFrom text w k (JS.indexOf text w k).
Proof.
  intros H0 Hk Hne. destruct (indexOf_spec text w k H0 Hk) as [[? _]|?]; done.
Qed.

Lemma indexOf_none (text w : jsstring) (k : Z) :
  0 ≤ k → k ≤ JS.len text →
  JS.indexOf text w k = -1 → noneFrom text w k.
Proof.
  intros H0 Hk He. destruct (indexOf_spec text w k H0 Hk) as [[_ ?]|Hf]; [done|].
  rewrite He in Hf. by apply firstFrom_not_minus1 in Hf.
Qed.

(** [find] returns the first element, by index, that satisfies the test. *)
Lemma find_Some {A} (p : A → bool) (arr : list A) (x : A) :
  JS.find p arr = Some x →
  ∃ i, arr !! i = Some x ∧ p x = true
       ∧ ∀ j y, (j < i)%nat → arr !! j = Some y → p y = false.
Proof.
  induction arr as [|a arr IH]; simpl; [done|].
  destruct (p a) eqn:Hp.
  - intros [= ->]. exists 0%nat. repeat split; [done|]. intros; lia.
  - intros Hf. destruct (IH Hf) as (i & Hi & Hx & Hb).
    exists (S i). repeat split; [done..|].
    intros [|j] y Hj; simpl; [by intros [= <-] | intros; eapply Hb; [|done]; lia].
Qed.

Lemma find_None {A} (p : A → bool) (arr : list A) :
  JS.find p arr = None ↔ ∀ x, x ∈ arr → p x = false.
Proof.
  induction arr as [|a arr IH]; simpl.
  - split; [intros _ x Hx; by apply elem_of_nil in Hx | done].
  - destruct (p a) eqn:Hp.
    + split; [done|]. intros H. rewrite H in Hp; [done | left].
    + rewrite IH. split.
      * intros H x [->|Hx]%elem_of_cons; auto.
      * intros H x Hx. apply H. by right.
Qed.

Lemma find_existsb {A} (p : A → bool) (arr : list A) :
  existsb p arr = bool_decide (is_Some (JS.find p arr)).
Proof.
  induction arr as [|a arr IH]; simpl; [done|].
  by destruct (p a).
Qed.

(** ** Timeline index and timestamp parsing *)

Section Timeline.
Import SubtitleParser.

Lemma covers_test (e : SubtitleEntry) (t : Z) :
  num_ge (Num t) (start e) && num_le (Num t) (end_ e) = true ↔ covers e t.
Proof.
  unfold covers. destruct (start e) as [|a], (end_ e) as [|b]; simpl.
  - split; [done | by intros (? & ? & ? & _)].
  - split; [done | by intros (? & ? & ? & _)].
  - rewrite andb_false_r. split; [done | by intros (? & ? & _ & ? & _)].
  - rewrite andb_true_iff, Z.geb_le, Z.leb_le. split.
    + intros [? ?]. by exists a, b.
    + intros (? & ? & [= <-] & [= <-] & ? & ?). done.
Qed.

(** C1: the lookup returns the first entry, in load order, whose interval
    contains [t], and [null] when no interval contains [t]. *)
Theorem findSubtitleAtTime_first_in_order (this : t) (time : Z) :
  match findSubtitleAtTime this time with
  | Some e =>
      ∃ i, subtitles this !! i = Some e ∧ covers e time
           ∧ ∀ j e', (j < i)%nat → subtitles this !! j = Some e' → ¬ covers e' time
  | None => ∀ e, e ∈ subtitles this → ¬ covers e time
  end.
Proof.
  unfold findSubtitleAtTime.
  destruct (JS.find _ (subtitles this)) as [e|] eqn:Hf.
  - apply find_Some in Hf as (i & Hi & He & Hb).
    exists i. split; [done|]. split; [by apply covers_test|].
    intros j e' Hj He' Hc. apply covers_test in Hc.
    by rewrite (Hb j e' Hj He') in Hc.
  - intros e He Hc. apply covers_test in Hc.
    rewrite find_None in Hf. by rewrite (Hf e He) in Hc.
Qed.

(** On the sample timeline the entry loaded first wins at [t = 2200], although
    it starts later; nothing is active at [t = 5000]. *)
Lemma findSubtitleAtTime_first_in_order_witness :
  (∃ e, findSubtitleAtTime sampleTimeline 2200 = Some e
        ∧ start e = Num 2000 ∧ covers e 2200)
  ∧ ∀ e, e ∈ subtitles sampleTimeline → ¬ covers e 5000.
Proof.
  split.
  - pose proof (findSubtitleAtTime_first_in_order sampleTimeline 2200) as H.
    destruct (findSubtitleAtTime sampleTimeline 2200) as [e|] eqn:He.
    + destruct H as (i & _ & Hc & _). exists e. split; [done|].
      split; [|done]. vm_compute in He. by injection He as <-.
    + vm_compute in He. discriminate.
  - exact (findSubtitleAtTime_first_in_order sampleTimeline 5000).
Defined.

(** *** Splitting at a one-character separator *)

Lemma split_single_cons (c x : Z) (s : jsstring) :
  JS.split (x :: s) [c] =
  if c =? x then [] :: JS.split s [c]
  else match JS.split s [c] with
       | cur :: rest => (x :: cur) :: rest
       | [] => [[x]]
       end.
Proof. unfold JS.split. simpl. by destruct (c =? x). Qed.

Lemma split_no_sep (c : Z) (s : jsstring) :
  Forall (λ x, x ≠ c) s → JS.split s [c] = [s].
Proof.
  induction 1 as [|x s Hx _ IH]; [done|].
  rewrite split_single_cons, IH.
  destruct (Z.eqb_spec c x); [congruence | done].
Qed.

Lemma split_at_sep (c : Z) (a b : jsstring) :
  Forall (λ x, x ≠ c) a → JS.split (a ++ c :: b) [c] = a :: JS.split b [c].
Proof.
  induction 1 as [|x a Hx _ IH]; simpl.
  - by rewrite split_single_cons, Z.eqb_refl.
  - rewrite split_single_cons, IH.
    destruct (Z.eqb_spec c x); [congruence | done].
Qed.

(** Joining the parts of a split with the separator gives the string
    back, for every non-empty separator. *)
Lemma split_go_nonempty (sep : jsstring) (s : jsstring) (k : nat) :
  JS.split_go sep k s ≠ [].
Proof.
  revert k. induction s as [|c s IH]; intros k; cbn [JS.split_go]; [done|].
  destruct k; [|apply IH].
  destruct (JS.startsWith (c :: s) sep); [done|].
  by destruct (JS.split_go sep 0 s).
Qed.

Lemma join_cons (sep p : jsstring) (parts : list jsstring) :
  parts ≠ [] → JS.join sep (p :: parts) = p ++ sep ++ JS.join sep parts.
Proof. by destruct parts. Qed.

Lemma join_cons_head (sep : jsstring) (c : Z) (cur : jsstring)
    (rest : list jsstring) :
  JS.join sep ((c :: cur) :: rest) = c :: JS.join sep (cur :: rest).
Proof. by destruct rest. Qed.

Lemma join_split_go (sep : jsstring) (s : jsstring) :
  sep ≠ [] →
  ∀ k, (k ≤ length s)%nat → JS.join sep (JS.split_go sep k s) = drop k s.
Proof.
  intros Hsep. induction s as [|c s IH]; intros k Hk; cbn [JS.split_go].
  - by destruct k.
  - destruct k as [|k]; [|apply IH; simpl in Hk; lia].
    destruct (JS.startsWith (c :: s) sep) eqn:Hs.
    + apply startsWith_app in Hs as [rest Hr].
      destruct sep as [|x sep']; [done|].
      simpl in Hr. injection Hr as <- ->.
        rewrite join_cons by apply split_go_nonempty.
        cbn [length Nat.sub]. rewrite Nat.sub_0_r.
        rewrite IH by (rewrite length_app; lia).
        by rewrite drop_app_length.
    + specialize (IH 0%nat ltac:(lia)). rewrite drop_0 in IH.
      pose proof (split_go_nonempty sep s 0) as Hne.
      destruct (JS.split_go sep 0 s) as [|cur rest]; [done|].
      by rewrite join_cons_head, IH.
Qed.

Lemma join_split (s sep : jsstring) :
  sep ≠ [] → JS.join sep (JS.split s sep) = s.
Proof. intros Hsep. unfold JS.split. by rewrite join_split_go by (done || lia). Qed.

(** *** Conversion of a timestamp *)

Lemma isDigit_digit (h : Z) : 0 ≤ h ∧ h ≤ 9 → JS.isDigit (48 + h) = true.
Proof. intros [? ?]. unfold JS.isDigit. apply andb_true_iff. lia. Qed.

Lemma isDigit_inv (c : Z) :
  JS.isDigit c = true → 0 ≤ c - 48 ∧ c - 48 ≤ 9.
Proof. unfold JS.isDigit. rewrite andb_true_iff. lia. Qed.

Lemma digitsOk_fields (d : Stamp) :
  digitsOk d →
  (0 ≤ H1 d ∧ H1 d ≤ 9) ∧ (0 ≤ H2 d ∧ H2 d ≤ 9) ∧ (0 ≤ M1 d ∧ M1 d ≤ 9)
  ∧ (0 ≤ M2 d ∧ M2 d ≤ 9) ∧ (0 ≤ S1 d ∧ S1 d ≤ 9) ∧ (0 ≤ S2 d ∧ S2 d ≤ 9)
  ∧ (0 ≤ F1 d ∧ F1 d ≤ 9) ∧ (0 ≤ F2 d ∧ F2 d ≤ 9) ∧ (0 ≤ F3 d ∧ F3 d ≤ 9).
Proof.
  unfold digitsOk, stampDigits. intros H.
  repeat (apply Forall_cons in H as [? H]). tauto.
Qed.

(** Nine digits convert by the formula, whatever their values. *)
Lemma timeToMilliseconds_stamp (d : Stamp) :
  digitsOk d → timeToMilliseconds (stampText d) = Num (stampMs d).
Proof.
  intros Hd. apply digitsOk_fields in Hd
    as (Hh1 & Hh2 & Hm1 & Hm2 & Hs1 & Hs2 & Hf1 & Hf2 & Hf3).
  unfold timeToMilliseconds. change (js ",") with [44]. change (js ":") with [58].
  change (stampText d) with
    ([48 + H1 d; 48 + H2 d; 58; 48 + M1 d; 48 + M2 d; 58; 48 + S1 d; 48 + S2 d]
       ++ 44 :: [48 + F1 d; 48 + F2 d; 48 + F3 d]).
  rewrite (split_at_sep 44) by (repeat constructor; lia).
  rewrite (split_no_sep 44) by (repeat constructor; lia).
  cbn [lookup list_lookup default from_option id].
  change [48 + H1 d; 48 + H2 d; 58; 48 + M1 d; 48 + M2 d; 58; 48 + S1 d; 48 + S2 d]
    with ([48 + H1 d; 48 + H2 d]
            ++ 58 :: ([48 + M1 d; 48 + M2 d] ++ 58 :: [48 + S1 d; 48 + S2 d])).
  rewrite !(split_at_sep 58) by (repeat constructor; lia).
  rewrite (split_no_sep 58) by (repeat constructor; lia).
  unfold JS.Number, JS.parseInt. cbn [map forallb JS.leadingDigits].
  rewrite !isDigit_digit by done.
  cbn [andb lookup list_lookup default from_option id num_mul num_add
       JS.digitsValue foldl].
  unfold stampMs. f_equal. lia.
Qed.

(** *** The time-range pattern *)

Lemma matchHere_app (p1 p2 : list atom) (s : jsstring) :
  matchHere (p1 ++ p2) s = matchHere p1 s && matchHere p2 (drop (length p1) s).
Proof.
  revert s. induction p1 as [|a p1 IH]; intros s; simpl; [done|].
  destruct s as [|c s]; [done|]. simpl. by rewrite IH, andb_assoc.
Qed.

Lemma matchHere_cons (a : atom) (p : list atom) (c : Z) (s : jsstring) :
  matchHere (a :: p) (c :: s) = atom_ok a c && matchHere p s.
Proof. done. Qed.

(** One step of reading a match: the next character and its test. *)
Ltac peel H :=
  match type of H with
  | matchHere (_ :: _) ?s = true =>
      destruct s as [|? ?];
      [ discriminate H
      | rewrite matchHere_cons in H; apply andb_true_iff in H as [? H] ]
  end.

Lemma stamp_shape (s : jsstring) :
  matchHere stampPattern s = true
  ↔ ∃ d rest, digitsOk d ∧ s = stampText d ++ rest.
Proof.
  split.
  - intros H. unfold stampPattern in H.
    do 12 peel H. cbn [atom_ok] in *.
    repeat match goal with
           | H : JS.isDigit _ = true |- _ => apply isDigit_inv in H
           | H : (_ =? _) = true |- _ => apply Z.eqb_eq in H; subst
           end.
    match goal with
    | |- ∃ d rest, _ ∧ ?a :: ?b :: _ :: ?c :: ?d' :: _ :: ?e :: ?f :: _
                         :: ?g :: ?h :: ?i :: ?r = _ =>
        exists {| H1 := a - 48; H2 := b - 48; M1 := c - 48; M2 := d' - 48;
                  S1 := e - 48; S2 := f - 48; F1 := g - 48; F2 := h - 48;
                  F3 := i - 48 |}, r
    end.
    split.
    + unfold digitsOk, stampDigits; cbn. repeat (apply Forall_cons; split; [done|]).
      apply Forall_nil_2.
    + unfold stampText; cbn. repeat (f_equal; try lia).
  - intros (d & rest & Hd & ->). apply digitsOk_fields in Hd.
    unfold stampText, stampPattern. cbn [app matchHere atom_ok].
    rewrite !isDigit_digit by tauto. done.
Qed.

Lemma arrow_shape (s : jsstring) :
  matchHere arrowPattern s = true ↔ ∃ rest, s = js " --> " ++ rest.
Proof.
  split.
  - intros H. change arrowPattern with [Lit 32; Lit 45; Lit 45; Lit 62; Lit 32] in H.
    do 5 peel H. cbn [atom_ok] in *.
    repeat match goal with
           | H : (_ =? _) = true |- _ => apply Z.eqb_eq in H; subst
           end.
    by eexists.
  - intros (rest & ->). done.
Qed.

Lemma stampText_length (d : Stamp) : length (stampText d) = 12%nat.
Proof. done. Qed.

(** The pattern matches at the head of [s] exactly when [s] begins with two
    timestamps around the arrow; the captures are the two timestamps. *)
Lemma range_shape (s : jsstring) :
  matchHere rangePattern s = true ↔ startsRange s.
Proof.
  unfold rangePattern, startsRange, rangeText.
  rewrite !matchHere_app, !andb_true_iff, stamp_shape, arrow_shape, stamp_shape.
  change (length stampPattern) with 12%nat.
  change (length arrowPattern) with 5%nat. split.
  - intros ((a & r1 & Ha & ->) & (r2 & Hr2) & (b & r3 & Hb & Hr3)).
    rewrite drop_app_length' in Hr2 by done. subst r1.
    rewrite drop_app_length' in Hr3 by done.
    change (drop 5 (js " --> " ++ r2)) with r2 in Hr3. subst r2.
    exists a, b, r3. repeat split; done.
  - intros (a & b & post & Ha & Hb & ->). rewrite <- !app_assoc.
    rewrite drop_app_length' by done. repeat split.
    + by exists a, (js " --> " ++ stampText b ++ post).
    + by eexists.
    + by exists b, post.
Qed.

Lemma range_captures (a b : Stamp) (post : jsstring) :
  take 12 (rangeText a b ++ post) = stampText a
  ∧ take 12 (drop 17 (rangeText a b ++ post)) = stampText b.
Proof. done. Qed.

(** [search] returns the leftmost suffix on which the pattern matches. *)
Lemma search_Some (p : list atom) (s m : jsstring) :
  search p s = Some m →
  ∃ pre, s = pre ++ m ∧ matchHere p m = true
         ∧ ∀ pre' suf', s = pre' ++ suf' → (length pre' < length pre)%nat →
                        matchHere p suf' = false.
Proof.
  revert m. induction s as [|c s IH]; intros m; cbn [search].
  - destruct (matchHere p []) eqn:Hm; [|done]. intros [= <-].
    exists []. repeat split; [done|]. simpl. lia.
  - destruct (matchHere p (c :: s)) eqn:Hm.
    + intros [= <-]. exists []. repeat split; [done|]. simpl. lia.
    + intros Hs. destruct (IH m Hs) as (pre & -> & Hmm & Hleft).
      exists (c :: pre). repeat split; [done|].
      intros [|c' pre'] suf' Heq Hlen.
      * simpl in Heq. by subst suf'.
      * simpl in Heq, Hlen. injection Heq as <- Heq. apply (Hleft pre'); [done | lia].
Qed.

Lemma search_None (p : list atom) (s : jsstring) :
  search p s = None ↔ ∀ pre suf, s = pre ++ suf → matchHere p suf = false.
Proof.
  induction s as [|c s IH]; cbn [search].
  - destruct (matchHere p []) eqn:Hm.
    + split; [done|]. intros H. by rewrite (H [] []) in Hm.
    + split; [|done]. intros _ pre suf Heq.
      symmetry in Heq. apply app_eq_nil in Heq as [_ ->]. done.
  - destruct (matchHere p (c :: s)) eqn:Hm.
    + split; [done|]. intros H. by rewrite (H [] (c :: s)) in Hm.
    + rewrite IH. split.
      * intros H [|c' pre] suf Heq; simpl in Heq; [by subst|].
        injection Heq as <- Heq. by apply (H pre).
      * intros H pre suf Heq. apply (H (c :: pre)). by rewrite Heq.
Qed.

Lemma timeMatch_None (line : jsstring) :
  timeMatch line = None ↔ ¬ hasRange line.
Proof.
  unfold timeMatch, hasRange.
  destruct (search rangePattern line) as [m|] eqn:Hs.
  - split; [done|]. intros Hn. exfalso. apply Hn.
    apply search_Some in Hs as (pre & -> & Hm & _).
    exists pre, m. split; [done | by apply range_shape].
  - split; [|done]. intros _ (pre & s & -> & Hr).
    rewrite search_None in Hs. apply range_shape in Hr.
    by rewrite (Hs pre s) in Hr.
Qed.

Lemma timeMatch_Some (line g1 g2 : jsstring) :
  timeMatch line = Some (g1, g2) →
  ∃ a b pre post,
    digitsOk a ∧ digitsOk b ∧ line = pre ++ rangeText a b ++ post
    ∧ g1 = stampText a ∧ g2 = stampText b
    ∧ ∀ pre' suf', line = pre' ++ suf' → (length pre' < length pre)%nat →
                   ¬ startsRange suf'.
Proof.
  unfold timeMatch. destruct (search rangePattern line) as [m|] eqn:Hs; [|done].
  intros [= <- <-]. apply search_Some in Hs as (pre & -> & Hm & Hleft).
  apply range_shape in Hm as (a & b & post & Ha & Hb & ->).
  exists a, b, pre, post. repeat split; [done..|].
  intros pre' suf' Heq Hlen Hr. apply range_shape in Hr.
  by rewrite (Hleft pre' suf' Heq Hlen) in Hr.
Qed.

(** *** The loop over the blocks *)

Lemma parseSRT_omap (this : t) (content : jsstring) :
  snd (parseSRT this content) = omap blockEntry (subtitleBlocks content)
  ∧ subtitles (fst (parseSRT this content)) = snd (parseSRT this content).
Proof.
  split; [|done]. unfold parseSRT. cbn [snd].
  generalize (subtitleBlocks content) as blocks.
  enough (∀ blocks acc,
            foldl (λ subs block, match blockEntry block with
                                 | None => subs
                                 | Some e => subs ++ [e]
                                 end) acc blocks
            = acc ++ omap blockEntry blocks) as H by (intros; apply H).
  induction blocks as [|b blocks IH]; intros acc; simpl.
  - by rewrite app_nil_r.
  - rewrite IH. destruct (blockEntry b); [|done]. by rewrite <- app_assoc.
Qed.

Lemma blockEntry_None (block : jsstring) :
  blockEntry block = None
  ↔ (length (blockLines block) < 3)%nat ∨ ¬ hasRange (secondLine block).
Proof.
  unfold blockEntry, secondLine, blockLines.
  destruct (Nat.ltb_spec (length (JS.split block [10])) 3) as [Hlt|Hge].
  - split; [by left | done].
  - destruct (timeMatch _) as [[g1 g2]|] eqn:Hm.
    + split; [done|]. intros [?|Hn]; [lia|].
      apply timeMatch_None in Hn. congruence.
    + split; [|done]. intros _. right. by apply timeMatch_None.
Qed.

Lemma blockEntry_Some (block : jsstring) (e : SubtitleEntry) :
  blockEntry block = Some e →
  (3 ≤ length (blockLines block))%nat
  ∧ ∃ a b pre post,
      digitsOk a ∧ digitsOk b
      ∧ secondLine block = pre ++ rangeText a b ++ post
      ∧ (∀ pre' suf', secondLine block = pre' ++ suf' →
                      (length pre' < length pre)%nat → ¬ startsRange suf')
      ∧ start e = Num (stampMs a) ∧ end_ e = Num (stampMs b)
      ∧ text e = JS.join (js " ") (drop 2 (blockLines block)).
Proof.
  unfold blockEntry, secondLine, blockLines.
  destruct (Nat.ltb_spec (length (JS.split block [10])) 3) as [Hlt|Hge]; [done|].
  destruct (timeMatch _) as [[g1 g2]|] eqn:Hm; [|done].
  intros [= <-]. split; [done|].
  apply timeMatch_Some in Hm as (a & b & pre & post & Ha & Hb & Hl & -> & -> & Hleft).
  exists a, b, pre, post. cbn [start end_ text].
  rewrite !timeToMilliseconds_stamp by done. done.
Qed.

(** C2: parsing keeps one entry per well-formed block, in block order, the
    blocks being the parts of the normalized, trimmed content between blank
    lines; a block with fewer than three lines or without a time range on
    its second line is skipped; a timestamp converts by
    [((H*3600 + M*60 + S) * 1000) + mmm] on its base-10 components, with no
    bounds on them; [00:00:01,000 --> 00:00:02,500] gives 1000 and 2500. *)
Theorem parseSRT_blocks (this : t) (content : jsstring) :
  (snd (parseSRT this content) = omap blockEntry (subtitleBlocks content)
   ∧ subtitles (fst (parseSRT this content)) = snd (parseSRT this content)
   ∧ JS.join [10; 10] (subtitleBlocks content)
     = JS.trim (JS.normalizeLineBreaks content))
  ∧ (∀ block,
       blockEntry block = None
       ↔ (length (blockLines block) < 3)%nat ∨ ¬ hasRange (secondLine block))
  ∧ (∀ block e,
       blockEntry block = Some e →
       (3 ≤ length (blockLines block))%nat
       ∧ ∃ a b pre post,
           digitsOk a ∧ digitsOk b
           ∧ secondLine block = pre ++ rangeText a b ++ post
           ∧ (∀ pre' suf', secondLine block = pre' ++ suf' →
                           (length pre' < length pre)%nat → ¬ startsRange suf')
           ∧ start e = Num (stampMs a) ∧ end_ e = Num (stampMs b)
           ∧ text e = JS.join (js " ") (drop 2 (blockLines block)))
  ∧ (∀ d, digitsOk d → timeToMilliseconds (stampText d) = Num (stampMs d))
  ∧ blockEntry sampleBlock
    = Some {| start := Num 1000; end_ := Num 2500; text := js "Hello" |}
  ∧ timeToMilliseconds (js "00:61:00,000") = Num 3660000.
Proof.
  split.
  { destruct (parseSRT_omap this content) as [Hloop Hstate].
    split; [done|]. split; [done|]. by apply join_split. }
  split; [apply blockEntry_None|].
  split; [apply blockEntry_Some|].
  split; [apply timeToMilliseconds_stamp|].
  split; reflexivity.
Qed.

(** A file of four blocks: the second is out of order and has 61 minutes,
    the third has two lines, the fourth has no time range. *)
Lemma parseSRT_blocks_witness :
  snd (parseSRT {| subtitles := [] |} sampleSrt)
  = [ {| start := Num 5000; end_ := Num 6000; text := js "later first" |};
      {| start := Num 3660000; end_ := Num 3661500; text := js "two lines" |} ]
  ∧ timeToMilliseconds (stampText sampleStamp) = Num 3661500
  ∧ (∀ e, blockEntry sampleBlock = Some e → start e = Num 1000)
  ∧ blockEntry (js "no range") = None.
Proof.
  destruct (parseSRT_blocks {| subtitles := [] |} sampleSrt)
    as ((Hloop & _ & _) & Hskip & Hkeep & Hconv & _ & _).
  split; [rewrite Hloop; vm_compute; reflexivity|].
  split.
  - rewrite (Hconv sampleStamp); [reflexivity|].
    unfold digitsOk. vm_compute stampDigits. repeat constructor; lia.
  - split.
    + intros e He. destruct (Hkeep sampleBlock e He) as (_ & a & b & pre & post & Hk).
      vm_compute in He. by injection He as <-.
    + apply Hskip. left. vm_compute. lia.
Defined.

End Timeline.

(** ** Dictionary resolution *)

Section Resolution.
Import Net.
Context (service : Service).

Lemma setMeaning_run (wordObj : WordObj) (s : jsstring) (st : World) :
  is_Some (data wordObj) →
  setMeaning wordObj s st = (Returned (withMeaning wordObj s), st).
Proof. intros [d Hd]. unfold setMeaning, withMeaning. by rewrite Hd. Qed.

Lemma withMeaning_data (wordObj : WordObj) (s : jsstring) :
  is_Some (data wordObj) → is_Some (data (withMeaning wordObj s)).
Proof. intros [d Hd]. unfold withMeaning. rewrite Hd. by eexists. Qed.

Lemma withMeaning_gloss (wordObj : WordObj) (s : jsstring) :
  is_Some (data wordObj) → gloss (withMeaning wordObj s) = Some s.
Proof. intros [d Hd]. unfold gloss, withMeaning. by rewrite Hd. Qed.

Lemma withMeaning_twice (wordObj : WordObj) (s s' : jsstring) :
  withMeaning (withMeaning wordObj s) s' = withMeaning wordObj s'.
Proof. unfold withMeaning. simpl. by destruct (data wordObj). Qed.

Lemma fetch_run (r : Request) (st : World) :
  fetch service r st =
  match service (requests st ++ [r]) with
  | Rejected => (Thrown, logged st r)
  | Response ok body => (Returned (ok, body), logged st r)
  end.
Proof. done. Qed.

Lemma find_hasMeaning (ms : list WordData) :
  match JS.find hasMeaning ms with
  | Some m => existsb hasMeaning ms = true ∧ m ∈ ms ∧ hasMeaning m = true
  | None => existsb hasMeaning ms = false
  end.
Proof.
  rewrite find_existsb. destruct (JS.find hasMeaning ms) as [m|] eqn:Hf.
  - apply find_Some in Hf as (i & Hi & Hm & _). split; [done|].
    split; [|done]. by eapply list_elem_of_lookup_2.
  - done.
Qed.

Lemma find_exact_hasMeaning (w : jsstring) (ms : list WordData) :
  match JS.find (λ m, wordIs w m && hasMeaning m) ms with
  | Some m => existsb hasMeaning ms = true ∧ m ∈ ms ∧ hasMeaning m = true
  | None => existsb (λ m, wordIs w m && hasMeaning m) ms = false
  end.
Proof.
  rewrite (find_existsb (λ m, wordIs w m && hasMeaning m)).
  destruct (JS.find _ ms) as [m|] eqn:Hf; [|done].
  apply find_Some in Hf as (i & Hi & Hm & _).
  apply andb_true_iff in Hm as [_ Hm].
  assert (m ∈ ms) as Hin by by eapply list_elem_of_lookup_2.
  split; [|done]. apply existsb_exists. exists m.
  split; [by apply list_elem_of_In | done].
Qed.

(** *** The overlay player *)

Lemma finish_run (wordObj : WordObj) (st : World) :
  is_Some (data wordObj) →
  ∃ wordObj',
    Overlay.finish wordObj st = (Returned wordObj', st)
    ∧ is_Some (data wordObj')
    ∧ (gloss wordObj = None → gloss wordObj' = Some noDefinitionFound)
    ∧ (∀ s, gloss wordObj = Some s → JS.isBlank s = true →
            gloss wordObj' = Some noDefinitionFound).
Proof.
  intros [d Hd]. unfold Overlay.finish, bind, getMeaning. rewrite Hd.
  unfold ret at 1. cbv beta iota.
  destruct (negb (truthy (meaning d)) || JS.isBlank (default [] (meaning d)))
    eqn:Hc.
  - rewrite setMeaning_run by by eexists. eexists. split; [done|].
    split; [by apply withMeaning_data; eexists|].
    split; intros; by apply withMeaning_gloss; eexists.
  - exists wordObj. split; [done|]. split; [by eexists|].
    apply orb_false_iff in Hc as [Ht Hb]. unfold gloss. rewrite Hd.
    split.
    + intros Hm. rewrite Hm in Ht. done.
    + intros s Hm Hs. rewrite Hm in Hb. simpl in Hb. congruence.
Qed.

Lemma partialSearch_run (wordObj : WordObj) (st : World) :
  is_Some (data wordObj) → wellFormed (word wordObj) = true →
  let rq := request SearchPartial (word wordObj) in
  TierRun usable hasMeaning wordObj (service (requests st ++ [rq])) (logged st rq)
          (Overlay.finish wordObj)
          (Overlay.partialSearch service wordObj st).
Proof.
  intros Hd Hw rq. unfold Overlay.partialSearch, bind, url. rewrite Hw.
  unfold ret at 1. cbv beta iota. rewrite fetch_run.
  subst rq. unfold request.
  destruct (service (requests st ++ [_])) as [|[] [|[[|m0 ms]|]]] eqn:Hr;
    cbn [fst snd json throw ret];
    try (by apply TierThrows); try (by apply TierPasses).
  pose proof (find_exact_hasMeaning (word wordObj) (m0 :: ms)) as He.
  destruct (JS.find (λ m, wordIs _ m && hasMeaning m) (m0 :: ms)) as [m|].
  - destruct He as (Hu & Hin & Hm). rewrite setMeaning_run by done.
    by apply TierSettles.
  - pose proof (find_hasMeaning (m0 :: ms)) as Ha.
    destruct (JS.find hasMeaning (m0 :: ms)) as [m|].
    + destruct Ha as (Hu & Hin & Hm). rewrite setMeaning_run by done.
      by apply TierSettles.
    + by apply TierPasses.
Qed.

Lemma directSearch_run (wordObj : WordObj) (st : World) :
  is_Some (data wordObj) → wellFormed (word wordObj) = true →
  let rq := request SearchDirect (word wordObj) in
  TierRun usable hasMeaning wordObj (service (requests st ++ [rq])) (logged st rq)
          (Overlay.partialSearch service wordObj)
          (Overlay.directSearch service wordObj st).
Proof.
  intros Hd Hw rq. unfold Overlay.directSearch, bind, url. rewrite Hw.
  unfold ret at 1. cbv beta iota. rewrite fetch_run.
  subst rq. unfold request.
  destruct (service (requests st ++ [_])) as [|[] [|[[|m0 ms]|]]] eqn:Hr;
    cbn [fst snd json throw ret];
    try (by apply TierThrows); try (by apply TierPasses).
  pose proof (find_hasMeaning (m0 :: ms)) as Ha.
  destruct (JS.find hasMeaning (m0 :: ms)) as [m|].
  - destruct Ha as (Hu & Hin & Hm). rewrite setMeaning_run by done.
    by apply TierSettles.
  - by apply TierPasses.
Qed.

(** The inflected search passes on with the word as it is, or with the
    blank meaning of the first match stored in it. *)
Lemma inflectedSearch_run (wordObj : WordObj) (st : World) :
  is_Some (data wordObj) → wellFormed (word wordObj) = true →
  let rq := request SearchInflected (word wordObj) in
  ∃ wordObj',
    is_Some (data wordObj')
    ∧ word wordObj' = word wordObj
    ∧ (wordObj' = wordObj
       ∨ ∃ s, JS.isBlank s = true ∧ wordObj' = withMeaning wordObj s)
    ∧ TierRun usable hasMeaning wordObj (service (requests st ++ [rq])) (logged st rq)
              (Overlay.directSearch service wordObj')
              (Overlay.inflectedSearch service wordObj st).
Proof.
  intros Hd Hw rq. unfold Overlay.inflectedSearch, bind, url. rewrite Hw.
  unfold ret at 1. cbv beta iota. rewrite fetch_run.
  subst rq. unfold request.
  destruct (service (requests st ++ [_])) as [|[] [|[[|m0 ms]|]]] eqn:Hr;
    cbn [fst snd json throw ret];
    try (exists wordObj; split; [done|]; split; [done|]; split; [by left|];
         try (by apply TierThrows); by apply TierPasses).
  pose proof (find_exact_hasMeaning (word wordObj) (m0 :: ms)) as He.
  destruct (JS.find (λ m, wordIs _ m && hasMeaning m) (m0 :: ms)) as [m|].
  { destruct He as (Hu & Hin & Hm). rewrite setMeaning_run by done.
    exists wordObj. repeat split; [done | by left | by apply TierSettles]. }
  pose proof (find_hasMeaning (m0 :: ms)) as Ha.
  destruct (JS.find hasMeaning (m0 :: ms)) as [m|].
  { destruct Ha as (Hu & Hin & Hm). rewrite setMeaning_run by done.
    exists wordObj. repeat split; [done | by left | by apply TierSettles]. }
  destruct (truthy (meaning m0)) eqn:Ht.
  - rewrite setMeaning_run by done.
    exists (withMeaning wordObj (meaningOf m0)).
    split; [by apply withMeaning_data|]. split; [done|]. split.
    + right. exists (meaningOf m0). split; [|done].
      simpl in Ha. apply orb_false_iff in Ha as [Ha _].
      unfold hasMeaning in Ha. rewrite Ht in Ha. simpl in Ha.
      by apply negb_false_iff in Ha.
    + by apply TierPasses.
  - exists wordObj. repeat split; [done | by left | by apply TierPasses].
Qed.

Lemma logged_twice (st : World) (r1 r2 : Request) :
  logged (logged st r1) r2
  = {| requests := requests st ++ [r1; r2]; cache := cache st |}.
Proof. unfold logged. simpl. by rewrite <- app_assoc. Qed.

Lemma logged_thrice (st : World) (r1 r2 r3 : Request) :
  logged (logged (logged st r1) r2) r3
  = {| requests := requests st ++ [r1; r2; r3]; cache := cache st |}.
Proof. unfold logged. simpl. by rewrite <- !app_assoc. Qed.

Lemma world_nil (st : World) :
  {| requests := requests st ++ []; cache := cache st |} = st.
Proof. destruct st. simpl. by rewrite app_nil_r. Qed.


Lemma sameBut_withMeaning (wordObj w1 : WordObj) (s : jsstring) :
  sameBut wordObj w1 → sameBut wordObj (withMeaning w1 s).
Proof.
  intros [-> | [s' ->]]; right; exists s; [done | apply withMeaning_twice].
Qed.

(** One resolution of the overlay player, from any session state: it
    returns, its requests are those of the tiers entered in order, the
    cache is untouched, and the meaning is the error text after a throw
    and the default text when no tier has a usable meaning. *)
Lemma overlay_lookup_run (wordObj : WordObj) (st : World) :
  is_Some (data wordObj) →
  let w := word wordObj in
  let past := requests st in
  ∃ wordObj',
    Overlay.lookupWholeWord service wordObj st
    = (Returned wordObj',
       {| requests := past ++ tierRequests service (usable) (usable) past w;
          cache := cache st |})
    ∧ is_Some (data wordObj')
    ∧ sameBut wordObj wordObj'
    ∧ (aborted service usable usable past w = true →
       gloss wordObj' = Some errorFetchingMeaning)
    ∧ (aborted service usable usable past w = false →
       usable (reply1 service past w) = false →
       usable (reply2 service past w) = false →
       usable (reply3 service past w) = false →
       gloss wordObj = None →
       gloss wordObj' = Some noDefinitionFound).
Proof.
  intros Hd w past. unfold Overlay.lookupWholeWord, try_catch.
  unfold tierRequests, aborted, reply1, reply2, reply3. fold w.
  destruct (wellFormed w) eqn:Hw; cbn [negb orb].
  2: { unfold Overlay.inflectedSearch, bind, url. fold w. rewrite Hw.
       unfold throw at 1. cbv beta iota. rewrite setMeaning_run by done.
       exists (withMeaning wordObj errorFetchingMeaning).
       unfold past. rewrite world_nil.
       split; [done|]. split; [by apply withMeaning_data|].
       split; [right; by eexists|]. split; [|done].
       intros _. by apply withMeaning_gloss. }
  destruct (inflectedSearch_run wordObj st Hd Hw) as (w1 & Hd1 & Hw1 & Hrel & Hrun).
  fold w in Hrun, Hw1. fold past in Hrun.
  set (r1 := service (past ++ [request SearchInflected w])) in *.
  inversion Hrun as [Ht1 Heq | m Ht1 Hu1 Hin Hm Heq | Ht1 Hu1 Heq]; clear Hrun;
    rewrite Ht1; cbn [orb negb andb].
  { (* the inflected search throws *)
    rewrite setMeaning_run by done.
    exists (withMeaning wordObj errorFetchingMeaning).
    split; [done|]. split; [by apply withMeaning_data|].
    split; [right; by eexists|]. split; [|done].
    intros _. by apply withMeaning_gloss. }
  { (* the inflected search settles the meaning *)
    rewrite Hu1. cbn [negb andb].
    exists (withMeaning wordObj (meaningOf m)).
    split; [done|]. split; [by apply withMeaning_data|].
    split; [right; by eexists|]. split; [done|]. intros _ Hc. congruence. }
  rewrite Hu1. cbn [negb andb].
  assert (wellFormed (word w1) = true) as Hww1 by (by rewrite Hw1).
  pose proof (directSearch_run w1 (logged st (request SearchInflected w)) Hd1 Hww1)
    as Hrun. cbn zeta in Hrun. rewrite Hw1 in Hrun.
  cbn [logged requests] in Hrun. fold past in Hrun. rewrite <- app_assoc in Hrun.
  cbn [app] in Hrun.
  set (r2 := service (past ++ [request SearchInflected w; request SearchDirect w])) in *.
  assert (sameBut wordObj w1) as Hsame.
  { destruct Hrel as [-> | (s & _ & ->)]; [by left | right; by eexists]. }
  inversion Hrun as [Ht2 Heq2 | m Ht2 Hu2 Hin Hm Heq2 | Ht2 Hu2 Heq2]; clear Hrun;
    rewrite Ht2; cbn [orb negb andb].
  { (* the direct search throws *)
    rewrite setMeaning_run by done.
    exists (withMeaning wordObj errorFetchingMeaning).
    fold (logged (logged st (request SearchInflected w)) (request SearchDirect w)).
    rewrite logged_twice. fold past.
    split; [done|]. split; [by apply withMeaning_data|].
    split; [right; by eexists|]. split; [|done].
    intros _. by apply withMeaning_gloss. }
  { (* the direct search settles the meaning *)
    rewrite Hu2. cbn [negb andb].
    exists (withMeaning w1 (meaningOf m)).
    fold (logged (logged st (request SearchInflected w)) (request SearchDirect w)).
    rewrite logged_twice. fold past.
    split; [done|]. split; [by apply withMeaning_data|].
    split; [by apply sameBut_withMeaning|]. split; [done|].
    intros _ _ Hc. congruence. }
  rewrite Hu2. cbn [negb andb].
  pose proof (partialSearch_run w1
                (logged (logged st (request SearchInflected w)) (request SearchDirect w))
                Hd1 Hww1) as Hrun.
  cbn zeta in Hrun. rewrite Hw1 in Hrun. rewrite logged_thrice in Hrun.
  rewrite logged_twice in Hrun. cbn [requests] in Hrun. fold past in Hrun.
  rewrite <- app_assoc in Hrun. cbn [app] in Hrun.
  set (r3 := service (past ++ [request SearchInflected w; request SearchDirect w;
                               request SearchPartial w])) in *.
  rewrite logged_twice. fold past.
  inversion Hrun as [Ht3 Heq3 | m Ht3 Hu3 Hin Hm Heq3 | Ht3 Hu3 Heq3]; clear Hrun;
    rewrite ?Ht3.
  { (* the partial search throws *)
    rewrite setMeaning_run by done.
    exists (withMeaning wordObj errorFetchingMeaning).
    split; [done|]. split; [by apply withMeaning_data|].
    split; [right; by eexists|]. split; [|done].
    intros _. by apply withMeaning_gloss. }
  { (* the partial search settles the meaning *)
    exists (withMeaning w1 (meaningOf m)).
    split; [done|]. split; [by apply withMeaning_data|].
    split; [by apply sameBut_withMeaning|]. split; [done|].
    intros _ _ _ Hc. congruence. }
  (* no tier has a usable meaning *)
  destruct (finish_run w1 {| requests := past ++ [request SearchInflected w;
                                                   request SearchDirect w;
                                                   request SearchPartial w];
                             cache := cache st |} Hd1)
    as (w2 & Hfin & Hd2 & Hnone & Hblank).
  rewrite Hfin. exists w2. split; [done|]. split; [done|].
  split.
  { unfold Overlay.finish, bind, getMeaning in Hfin.
    destruct Hd1 as [d1 Hd1]. rewrite Hd1 in Hfin.
    unfold ret at 1 in Hfin. cbv beta iota in Hfin.
    destruct (negb (truthy (meaning d1)) || JS.isBlank (default [] (meaning d1))).
    - rewrite setMeaning_run in Hfin by by eexists.
      injection Hfin as <-. by apply sameBut_withMeaning.
    - injection Hfin as <-. done. }
  split; [done|]. intros _ _ _ _ Hg.
  destruct Hrel as [-> | (s & Hs & ->)].
  - by apply Hnone.
  - apply (Hblank s); [by apply withMeaning_gloss | done].
Qed.

(** *** The tree-merge player *)

Lemma tm_finish_run (wordObj : WordObj) (st : World) :
  is_Some (data wordObj) →
  ∃ wordObj',
    TreeMerge.finish wordObj st = (Returned wordObj', st)
    ∧ is_Some (data wordObj')
    ∧ sameBut wordObj wordObj'
    ∧ (gloss wordObj = None → gloss wordObj' = Some noDefinitionFound).
Proof.
  intros [d Hd]. unfold TreeMerge.finish, bind, getMeaning. rewrite Hd.
  unfold ret at 1. cbv beta iota.
  destruct (negb (truthy (meaning d))) eqn:Hc.
  - rewrite setMeaning_run by by eexists. eexists. split; [done|].
    split; [by apply withMeaning_data; eexists|].
    split; [right; by eexists|].
    intros; by apply withMeaning_gloss; eexists.
  - exists wordObj. split; [done|]. split; [by eexists|]. split; [by left|].
    unfold gloss. rewrite Hd. intros Hm. by rewrite Hm in Hc.
Qed.

Lemma tm_partialSearch_run (wordObj : WordObj) (st : World) :
  is_Some (data wordObj) → wellFormed (word wordObj) = true →
  let rq := request SearchPartial (word wordObj) in
  TierRun (firstTruthy false (word wordObj)) (λ m, truthy (meaning m))
          wordObj (service (requests st ++ [rq])) (logged st rq)
          (TreeMerge.finish wordObj)
          (TreeMerge.partialSearch service wordObj st).
Proof.
  intros Hd Hw rq. unfold TreeMerge.partialSearch, bind, url. rewrite Hw.
  unfold ret at 1. cbv beta iota. rewrite fetch_run.
  subst rq. unfold request.
  destruct (service (requests st ++ [_])) as [|[] [|[[|m0 ms]|]]] eqn:Hr;
    cbn [fst snd json throw ret];
    try (by apply TierThrows); try (by apply TierPasses).
  destruct (truthy (meaning m0)) eqn:Ht.
  - rewrite setMeaning_run by done.
    apply TierSettles;
      [done | by unfold firstTruthy; cbn [matchesOf andb orb]; rewrite Ht
      | by left | done].
  - apply TierPasses;
      [done | by unfold firstTruthy; cbn [matchesOf andb orb]; rewrite Ht].
Qed.

Lemma tm_directSearch_run (wordObj : WordObj) (st : World) :
  is_Some (data wordObj) → wellFormed (word wordObj) = true →
  let rq := request SearchDirect (word wordObj) in
  TierRun (firstTruthy false (word wordObj)) (λ m, truthy (meaning m))
          wordObj (service (requests st ++ [rq])) (logged st rq)
          (TreeMerge.partialSearch service wordObj)
          (TreeMerge.directSearch service wordObj st).
Proof.
  intros Hd Hw rq. unfold TreeMerge.directSearch, bind, url. rewrite Hw.
  unfold ret at 1. cbv beta iota. rewrite fetch_run.
  subst rq. unfold request.
  destruct (service (requests st ++ [_])) as [|[] [|[[|m0 ms]|]]] eqn:Hr;
    cbn [fst snd json throw ret];
    try (by apply TierThrows); try (by apply TierPasses).
  destruct (truthy (meaning m0)) eqn:Ht.
  - rewrite setMeaning_run by done.
    apply TierSettles;
      [done | by unfold firstTruthy; cbn [matchesOf andb orb]; rewrite Ht
      | by left | done].
  - apply TierPasses;
      [done | by unfold firstTruthy; cbn [matchesOf andb orb]; rewrite Ht].
Qed.

Lemma tm_inflectedSearch_run (wordObj : WordObj) (st : World) :
  is_Some (data wordObj) → wellFormed (word wordObj) = true →
  let rq := request SearchInflected (word wordObj) in
  TierRun (firstTruthy true (word wordObj)) (λ m, truthy (meaning m))
          wordObj (service (requests st ++ [rq])) (logged st rq)
          (TreeMerge.directSearch service wordObj)
          (TreeMerge.inflectedSearch service wordObj st).
Proof.
  intros Hd Hw rq. unfold TreeMerge.inflectedSearch, bind, url. rewrite Hw.
  unfold ret at 1. cbv beta iota. rewrite fetch_run.
  subst rq. unfold request.
  destruct (service (requests st ++ [_])) as [|[] [|[[|m0 ms]|]]] eqn:Hr;
    cbn [fst snd json throw ret];
    try (by apply TierThrows); try (by apply TierPasses).
  destruct (JS.find (wordIs (word wordObj)) (m0 :: ms)) as [e|] eqn:Hf.
  - pose proof (find_Some _ _ _ Hf) as (i & Hi & _ & _).
    apply list_elem_of_lookup_2 in Hi.
    destruct (truthy (meaning e)) eqn:Hte.
    + rewrite setMeaning_run by done.
      apply TierSettles; [done | | done | done].
      unfold firstTruthy. cbn [matchesOf andb]. by rewrite Hf, Hte.
    + destruct (truthy (meaning m0)) eqn:Ht.
      * rewrite setMeaning_run by done.
        apply TierSettles; [done | | by left | done].
        unfold firstTruthy. cbn [matchesOf andb]. by rewrite Hf, Hte, Ht.
      * apply TierPasses; [done|].
        unfold firstTruthy. cbn [matchesOf andb]. by rewrite Hf, Hte, Ht.
  - destruct (truthy (meaning m0)) eqn:Ht.
    + rewrite setMeaning_run by done.
      apply TierSettles; [done | | by left | done].
      unfold firstTruthy. cbn [matchesOf andb]. by rewrite Hf, Ht.
    + apply TierPasses; [done|].
      unfold firstTruthy. cbn [matchesOf andb]. by rewrite Hf, Ht.
Qed.

(** One resolution of the tree-merge player. *)
Lemma treemerge_lookup_run (wordObj : WordObj) (st : World) :
  is_Some (data wordObj) →
  let w := word wordObj in
  let past := requests st in
  ∃ wordObj',
    TreeMerge.lookupWholeWord service wordObj st
    = (Returned wordObj',
       {| requests :=
            past ++ tierRequests service (firstTruthy true w)
                                 (firstTruthy false w) past w;
          cache := cache st |})
    ∧ is_Some (data wordObj')
    ∧ sameBut wordObj wordObj'.
Proof.
  intros Hd w past. unfold TreeMerge.lookupWholeWord, try_catch.
  unfold tierRequests, reply1, reply2. fold w.
  destruct (wellFormed w) eqn:Hw; cbn [negb orb].
  2: { unfold TreeMerge.inflectedSearch, bind, url. fold w. rewrite Hw.
       unfold throw at 1. cbv beta iota. rewrite setMeaning_run by done.
       exists (withMeaning wordObj errorFetchingMeaning).
       unfold past. rewrite world_nil.
       split; [done|]. split; [by apply withMeaning_data|].
       right; by eexists. }
  pose proof (tm_inflectedSearch_run wordObj st Hd Hw) as Hrun.
  cbn zeta in Hrun. fold w in Hrun. fold past in Hrun.
  set (r1 := service (past ++ [request SearchInflected w])) in *.
  inversion Hrun as [Ht1 Heq | m Ht1 Hu1 Hin Hm Heq | Ht1 Hu1 Heq]; clear Hrun;
    rewrite Ht1; cbn [orb negb andb].
  { rewrite setMeaning_run by done.
    exists (withMeaning wordObj errorFetchingMeaning).
    split; [done|]. split; [by apply withMeaning_data|]. right; by eexists. }
  { rewrite Hu1. exists (withMeaning wordObj (meaningOf m)).
    split; [done|]. split; [by apply withMeaning_data|]. right; by eexists. }
  rewrite Hu1.
  pose proof (tm_directSearch_run wordObj (logged st (request SearchInflected w)) Hd Hw)
    as Hrun. cbn zeta in Hrun. fold w in Hrun.
  cbn [logged requests] in Hrun. fold past in Hrun. rewrite <- app_assoc in Hrun.
  cbn [app] in Hrun.
  set (r2 := service (past ++ [request SearchInflected w; request SearchDirect w])) in *.
  inversion Hrun as [Ht2 Heq2 | m Ht2 Hu2 Hin Hm Heq2 | Ht2 Hu2 Heq2]; clear Hrun;
    rewrite Ht2; cbn [orb negb andb].
  { rewrite setMeaning_run by done.
    exists (withMeaning wordObj errorFetchingMeaning).
    fold (logged (logged st (request SearchInflected w)) (request SearchDirect w)).
    rewrite logged_twice. fold past.
    split; [done|]. split; [by apply withMeaning_data|]. right; by eexists. }
  { rewrite Hu2. exists (withMeaning wordObj (meaningOf m)).
    fold (logged (logged st (request SearchInflected w)) (request SearchDirect w)).
    rewrite logged_twice. fold past.
    split; [done|]. split; [by apply withMeaning_data|]. right; by eexists. }
  rewrite Hu2.
  pose proof (tm_partialSearch_run wordObj
                (logged (logged st (request SearchInflected w)) (request SearchDirect w))
                Hd Hw) as Hrun.
  cbn zeta in Hrun. fold w in Hrun. rewrite logged_thrice in Hrun.
  rewrite logged_twice in Hrun. cbn [requests] in Hrun. fold past in Hrun.
  rewrite <- app_assoc in Hrun. cbn [app] in Hrun.
  rewrite logged_twice. fold past.
  inversion Hrun as [Ht3 Heq3 | m Ht3 Hu3 Hin Hm Heq3 | Ht3 Hu3 Heq3]; clear Hrun.
  { rewrite setMeaning_run by done.
    exists (withMeaning wordObj errorFetchingMeaning).
    split; [done|]. split; [by apply withMeaning_data|]. right; by eexists. }
  { exists (withMeaning wordObj (meaningOf m)).
    split; [done|]. split; [by apply withMeaning_data|]. right; by eexists. }
  destruct (tm_finish_run wordObj
              {| requests := past ++ [request SearchInflected w; request SearchDirect w;
                                      request SearchPartial w];
                 cache := cache st |} Hd)
    as (w2 & Hfin & Hd2 & Hsame & _).
  rewrite Hfin. by exists w2.
Qed.

End Resolution.

(** ** The claims on dictionary resolution *)

Section ResolutionClaims.
Import Net.

Lemma matchesOf_throws (r : Reply) :
  matchesOf r ≠ [] → throws r = false.
Proof. by destruct r as [|[] [|[[|m0 ms]|]]]. Qed.

Lemma existsb_nonempty {A} (p : A → bool) (l : list A) :
  existsb p l = true → l ≠ [].
Proof. by destruct l. Qed.

Lemma firstExactUsable_usable (w : jsstring) (r : Reply) :
  firstExactUsable w r = true →
  usable r = true ∧ firstTruthy true w r = true ∧ throws r = false.
Proof.
  unfold firstExactUsable, usable, firstTruthy.
  destruct (JS.find (wordIs w) (matchesOf r)) as [m|] eqn:Hf; [|done].
  intros Hm. apply find_Some in Hf as (i & Hi & _ & _).
  apply list_elem_of_lookup_2 in Hi.
  assert (existsb hasMeaning (matchesOf r) = true) as Hu.
  { apply existsb_exists. exists m. split; [by apply list_elem_of_In | done]. }
  split; [done|]. split.
  - unfold hasMeaning in Hm. apply andb_true_iff in Hm as [-> _]. done.
  - apply matchesOf_throws. by eapply existsb_nonempty.
Qed.

Lemma exactUsable_usable (w : jsstring) (r : Reply) :
  exactUsable w r = true → usable r = true ∧ throws r = false.
Proof.
  unfold exactUsable, usable. intros He. split.
  - apply existsb_exists in He as (m & Hin & Hm).
    apply andb_true_iff in Hm as [_ Hm].
    apply existsb_exists. by exists m.
  - apply matchesOf_throws. by eapply existsb_nonempty.
Qed.

(** C6, as amended: the tiers are queried in the order inflected, direct,
    partial, each only when the previous one neither threw nor gave a
    usable meaning; when the first exact match of the inflected search has a
    meaning that is not blank, both players issue that one request only, and
    so does the overlay player for any exact match with such a meaning. *)
Theorem tiers_queried_in_order (service : Service) (wordObj : WordObj)
    (st : World) :
  is_Some (data wordObj) →
  let w := word wordObj in
  let past := requests st in
  let overlay := snd (Overlay.lookupWholeWord service wordObj st) in
  let treemerge := snd (TreeMerge.lookupWholeWord service wordObj st) in
  requests overlay = past ++ tierRequests service usable usable past w
  ∧ requests treemerge
    = past ++ tierRequests service (firstTruthy true w) (firstTruthy false w) past w
  ∧ (wellFormed w = true → firstExactUsable w (reply1 service past w) = true →
     requests overlay = past ++ [request SearchInflected w]
     ∧ requests treemerge = past ++ [request SearchInflected w])
  ∧ (wellFormed w = true → exactUsable w (reply1 service past w) = true →
     requests overlay = past ++ [request SearchInflected w]).
Proof.
  intros Hd w past overlay treemerge.
  destruct (overlay_lookup_run service wordObj st Hd) as (o & Ho & _).
  destruct (treemerge_lookup_run service wordObj st Hd) as (t & Ht & _).
  assert (requests overlay = past ++ tierRequests service usable usable past w)
    as Hov by (unfold overlay; by rewrite Ho).
  assert (requests treemerge
          = past ++ tierRequests service (firstTruthy true w)
                                 (firstTruthy false w) past w)
    as Htm by (unfold treemerge; by rewrite Ht).
  split; [done|]. split; [done|]. split.
  - intros Hw He. apply firstExactUsable_usable in He as (Hu & Hf & Hn).
    rewrite Hov, Htm. unfold tierRequests. rewrite Hw, Hn, Hu, Hf. done.
  - intros Hw He. apply exactUsable_usable in He as (Hu & Hn).
    rewrite Hov. unfold tierRequests. rewrite Hw, Hn, Hu. done.
Qed.

Lemma tiers_queried_in_order_witness :
  map endpoint (requests (snd (Overlay.lookupWholeWord catService nekoWord emptyWorld)))
  = [SearchInflected]
  ∧ map endpoint (requests (snd (TreeMerge.lookupWholeWord catService nekoWord emptyWorld)))
    = [SearchInflected]
  ∧ map endpoint (requests (snd (Overlay.lookupWholeWord emptyService nekoWord emptyWorld)))
    = [SearchInflected; SearchDirect; SearchPartial].
Proof.
  assert (is_Some (data nekoWord)) as Hd by (by eexists).
  destruct (tiers_queried_in_order catService nekoWord emptyWorld Hd)
    as (_ & _ & Hfirst & _).
  destruct (Hfirst eq_refl eq_refl) as [Ho Ht].
  destruct (tiers_queried_in_order emptyService nekoWord emptyWorld Hd)
    as (He & _).
  rewrite Ho, Ht, He. repeat split.
Defined.

(** The claim as it stands fails in both players: a tier-1 exact match with
    the non-empty meaning of two spaces does not stop the overlay player,
    and a tier-1 exact match with a meaning does not stop the tree-merge
    player when an earlier record of the word has none. *)
Lemma tier1_exact_match_not_enough :
  (exactNonEmpty s_neko (reply1 blankService [] s_neko) = true
   ∧ map endpoint
         (requests (snd (Overlay.lookupWholeWord blankService nekoWord emptyWorld)))
     = [SearchInflected; SearchDirect; SearchPartial])
  ∧ (exactUsable s_neko (reply1 dupService [] s_neko) = true
     ∧ map endpoint
           (requests (snd (TreeMerge.lookupWholeWord dupService nekoWord emptyWorld)))
       = [SearchInflected; SearchDirect; SearchPartial]).
Proof. repeat split; vm_compute; reflexivity. Qed.

(** C7, as amended: a resolution never throws and changes the meaning
    only; a response that is not OK makes its tier pass on to the next;
    a rejected fetch or an unreadable body at a tier that is entered ends
    the resolution there with the text "Error fetching meaning"; when no
    tier throws and none has a usable meaning, the meaning of a word that
    had none is "No definition found". *)
Theorem lookup_never_throws (service : Service) (wordObj : WordObj)
    (st : World) :
  is_Some (data wordObj) →
  let w := word wordObj in
  let past := requests st in
  ∃ wordObj' st',
    Overlay.lookupWholeWord service wordObj st = (Returned wordObj', st')
    ∧ sameBut wordObj wordObj'
    ∧ (aborted service usable usable past w = true →
       gloss wordObj' = Some errorFetchingMeaning)
    ∧ (wellFormed w = false → requests st' = past)
    ∧ (wellFormed w = true → throws (reply1 service past w) = true →
       requests st' = past ++ [request SearchInflected w])
    ∧ (wellFormed w = true →
       (∃ body, reply1 service past w = Response false body) →
       request SearchDirect w ∈ requests st')
    ∧ (wellFormed w = true →
       throws (reply1 service past w) = false →
       usable (reply1 service past w) = false →
       (∃ body, reply2 service past w = Response false body) →
       request SearchPartial w ∈ requests st')
    ∧ (aborted service usable usable past w = false →
       usable (reply1 service past w) = false →
       usable (reply2 service past w) = false →
       usable (reply3 service past w) = false →
       gloss wordObj = None →
       gloss wordObj' = Some noDefinitionFound).
Proof.
  intros Hd w past.
  destruct (overlay_lookup_run service wordObj st Hd)
    as (o & Ho & _ & Hsame & Herr & Hnone).
  eexists o, _. split; [exact Ho|]. split; [done|]. split; [done|].
  cbn [requests]. fold w past. unfold tierRequests.
  split; [|split; [|split; [|split; [|done]]]].
  - intros Hw. rewrite Hw. cbn [negb]. apply app_nil_r.
  - intros Hw Ht. by rewrite Hw, Ht.
  - intros Hw [body Hb]. rewrite Hw, Hb.
    cbn [negb throws orb usable matchesOf existsb].
    apply elem_of_app. right. apply elem_of_cons. right. apply elem_of_cons. by left.
  - intros Hw Ht Hu [body Hb]. rewrite Hw, Ht, Hu, Hb.
    cbn [negb throws orb usable matchesOf existsb].
    apply elem_of_app. right. do 2 (apply elem_of_cons; right).
    apply elem_of_cons. by left.
Qed.

Lemma lookup_never_throws_witness :
  (∃ o st', Overlay.lookupWholeWord emptyService nekoWord emptyWorld
            = (Returned o, st')
            ∧ gloss o = Some noDefinitionFound)
  ∧ (∃ o st', Overlay.lookupWholeWord notOkFirstService nekoWord emptyWorld
              = (Returned o, st')
              ∧ request SearchDirect s_neko ∈ requests st')
  ∧ (∃ o st', Overlay.lookupWholeWord rejectFirstService nekoWord emptyWorld
              = (Returned o, st')
              ∧ gloss o = Some errorFetchingMeaning).
Proof.
  assert (is_Some (data nekoWord)) as Hd by (by eexists).
  split; [|split].
  - destruct (lookup_never_throws emptyService nekoWord emptyWorld Hd)
      as (o & st' & Hrun & _ & _ & _ & _ & _ & _ & Hnone).
    exists o, st'. split; [exact Hrun|].
    apply Hnone; reflexivity.
  - destruct (lookup_never_throws notOkFirstService nekoWord emptyWorld Hd)
      as (o & st' & Hrun & _ & _ & _ & _ & Hpass & _).
    exists o, st'. split; [exact Hrun|].
    apply Hpass; [reflexivity | by eexists].
  - destruct (lookup_never_throws rejectFirstService nekoWord emptyWorld Hd)
      as (o & st' & Hrun & _ & Herr & _).
    exists o, st'. split; [exact Hrun|].
    apply Herr. reflexivity.
Defined.

(** The claim as it stands fails: a fetch rejected at the first tier is not
    caught at that tier; the resolution ends with the error text and the
    direct search, which would have answered, is never queried. *)
Lemma rejected_fetch_ends_resolution :
  throws (reply1 rejectFirstService [] s_neko) = true
  ∧ usable (reply2 rejectFirstService [] s_neko) = true
  ∧ ∃ o st', Overlay.lookupWholeWord rejectFirstService nekoWord emptyWorld
             = (Returned o, st')
             ∧ gloss o = Some errorFetchingMeaning
             ∧ map endpoint (requests st') = [SearchInflected].
Proof.
  split; [reflexivity|]. split; [reflexivity|].
  eexists _, _. split; [vm_compute; reflexivity|].
  split; reflexivity.
Qed.

(** *** The cache *)

Lemma lookup_keeps_cache (service : Service) (wordObj : WordObj) (st : World) :
  is_Some (data wordObj) →
  cache (snd (Overlay.lookupWholeWord service wordObj st)) = cache st.
Proof.
  intros Hd. destruct (overlay_lookup_run service wordObj st Hd) as (o & Ho & _).
  by rewrite Ho.
Qed.

(** C8, as amended: the cache belongs to [getWordMeaning], the lookup of
    the direct-search endpoint alone. A cached word is answered from the
    cache without a request. On a miss, an OK response with a readable body
    stores the first match, or [null] when there is none, so that the next
    lookup of the word issues no request and returns the same result; a
    response that is not OK stores nothing. The tiered resolution leaves
    the cache as it is. *)
Theorem getWordMeaning_cache (service : Service) (w : jsstring) (st : World) :
  (∀ v, cache st !! w = Some v →
        KanjiDictionary.getWordMeaning service w st = (Returned v, st))
  ∧ (∀ ms, cache st !! w = None → wellFormed w = true →
           service (requests st ++ [request SearchDirect w]) = Response true (Json ms) →
           let v := head (default [] ms) in
           let st' := {| requests := requests st ++ [request SearchDirect w];
                         cache := <[w := v]> (cache st) |} in
           KanjiDictionary.getWordMeaning service w st = (Returned v, st')
           ∧ KanjiDictionary.getWordMeaning service w st' = (Returned v, st'))
  ∧ (∀ body, cache st !! w = None → wellFormed w = true →
             service (requests st ++ [request SearchDirect w]) = Response false body →
             KanjiDictionary.getWordMeaning service w st
             = (Returned None, logged st (request SearchDirect w)))
  ∧ (cache st !! w = None → wellFormed w = true →
     throws (service (requests st ++ [request SearchDirect w])) = true →
     KanjiDictionary.getWordMeaning service w st
     = (Returned None, logged st (request SearchDirect w)))
  ∧ (∀ wordObj, is_Some (data wordObj) →
                cache (snd (Overlay.lookupWholeWord service wordObj st)) = cache st).
Proof.
  split; [|split; [|split; [|split]]].
  - intros v Hv. unfold KanjiDictionary.getWordMeaning. by rewrite Hv.
  - intros ms Hmiss Hw Hr v st'.
    assert (KanjiDictionary.getWordMeaning service w st = (Returned v, st')) as H1.
    { unfold KanjiDictionary.getWordMeaning. rewrite Hmiss.
      unfold try_catch, bind, url. rewrite Hw. unfold ret at 1. cbv beta iota.
      rewrite fetch_run. unfold request in Hr. rewrite Hr.
      cbn [fst snd negb json ret]. subst v st'.
      by destruct ms as [[|m0 ms]|]. }
    split; [done|].
    unfold KanjiDictionary.getWordMeaning. subst st'. cbn [cache].
    by rewrite lookup_insert_eq.
  - intros body Hmiss Hw Hr. unfold KanjiDictionary.getWordMeaning. rewrite Hmiss.
    unfold try_catch, bind, url. rewrite Hw. unfold ret at 1. cbv beta iota.
    rewrite fetch_run. unfold request in Hr. by rewrite Hr.
  - intros Hmiss Hw Hr. unfold KanjiDictionary.getWordMeaning. rewrite Hmiss.
    unfold try_catch, bind, url. rewrite Hw. unfold ret at 1. cbv beta iota.
    rewrite fetch_run. unfold request in Hr.
    by destruct (service _) as [|[] [|ms]].
  - intros wordObj Hd. by apply lookup_keeps_cache.
Qed.

Lemma getWordMeaning_cache_witness :
  KanjiDictionary.getWordMeaning catService s_neko emptyWorld
  = (Returned (Some (matchOf s_neko s_cat)), cachedWorld)
  ∧ KanjiDictionary.getWordMeaning catService s_neko cachedWorld
    = (Returned (Some (matchOf s_neko s_cat)), cachedWorld)
  ∧ fst (KanjiDictionary.getWordMeaning emptyService s_neko emptyWorld)
    = Returned None
  ∧ cache (snd (KanjiDictionary.getWordMeaning emptyService s_neko emptyWorld))
    !! s_neko = Some None.
Proof.
  destruct (getWordMeaning_cache catService s_neko emptyWorld)
    as (_ & Hmiss & _ & _ & _).
  destruct (Hmiss (Some [matchOf s_neko s_cat]) eq_refl eq_refl eq_refl)
    as [H1 H2].
  destruct (getWordMeaning_cache emptyService s_neko emptyWorld)
    as (_ & Hmiss' & _ & _ & _).
  destruct (Hmiss' (Some []) eq_refl eq_refl eq_refl) as [H3 _].
  split; [exact H1|]. split; [exact H2|].
  rewrite H3. cbn [fst snd cache]. split; [reflexivity|].
  apply lookup_insert_eq.
Defined.

(** The claim as it stands fails: the tiered resolution does not consult or
    fill any cache; resolving the same word a second time issues the
    inflected request a second time. *)
Lemma second_resolution_queries_again :
  map endpoint
      (requests (snd (Overlay.lookupWholeWord catService nekoWord emptyWorld)))
  = [SearchInflected]
  ∧ cache (snd (Overlay.lookupWholeWord catService nekoWord emptyWorld)) = ∅
  ∧ map endpoint
        (requests
           (snd (Overlay.lookupWholeWord catService nekoWord
                   (snd (Overlay.lookupWholeWord catService nekoWord emptyWorld)))))
    = [SearchInflected; SearchInflected]
  ∧ cache (snd (Overlay.lookupWholeWord catService nekoWord
                  (snd (Overlay.lookupWholeWord catService nekoWord emptyWorld))))
    = ∅.
Proof. repeat split; vm_compute; reflexivity. Qed.

End ResolutionClaims.

(** ** Position aligner and reading normalization *)

Section Aligner.
Import Overlay.

Lemma alignStep_fold (text : jsstring) (ws : list SegmentedWord) :
  ∀ (acc : list WordObj) (k : Z),
    0 ≤ k → k ≤ JS.len text →
    Forall (λ wd, JS.isBlank (sw_word wd) = false) ws →
    ∃ out, fst (foldl (alignStep text) (acc, k) ws) = acc ++ out
           ∧ Aligned text k ws out.
Proof.
  induction ws as [|wd ws IH]; intros acc k H0 Hk Hnb.
  - exists []. split; [by rewrite app_nil_r | constructor].
  - apply Forall_cons in Hnb as [Hw Hnb]. cbn [foldl].
    unfold alignStep at 2. rewrite Hw.
    pose proof (len_nonneg (sw_word wd)) as Hlen.
    destruct (Z.eqb_spec (JS.indexOf text (sw_word wd) k) (-1)) as [Hm|Hm].
    + apply indexOf_none in Hm; [|done..].
      destruct (Z.eqb_spec (JS.indexOf text (sw_word wd) 0) (-1)) as [Hm0|Hm0].
      * apply indexOf_none in Hm0; [|lia | apply len_nonneg].
        destruct (IH acc k H0 Hk Hnb) as (out & Hout & Hal).
        exists out. split; [done|]. by apply Aligned_discard.
      * apply indexOf_found in Hm0; [|lia | apply len_nonneg].
        pose proof (firstFrom_bounds _ _ _ _ Hm0) as [Hp0 Hp1].
        destruct (IH (acc ++ [mkWordObj (sw_word wd) (JS.indexOf text (sw_word wd) 0)
                                        (sw_reading wd)])
                     (JS.indexOf text (sw_word wd) 0 + JS.len (sw_word wd)))
          as (out & Hout & Hal); [lia | lia | done |].
        eexists (_ :: out). split; [by rewrite Hout, <- app_assoc|].
        by apply Aligned_fallback.
    + apply indexOf_found in Hm; [|done..].
      pose proof (firstFrom_bounds _ _ _ _ Hm) as [Hp0 Hp1].
      destruct (IH (acc ++ [mkWordObj (sw_word wd) (JS.indexOf text (sw_word wd) k)
                                      (sw_reading wd)])
                   (JS.indexOf text (sw_word wd) k + JS.len (sw_word wd)))
        as (out & Hout & Hal); [lia | lia | done |].
      eexists (_ :: out). split; [by rewrite Hout, <- app_assoc|].
      by apply Aligned_cursor.
Qed.

(** Every word that is emitted lies inside the text, at the recorded
    position. *)
Lemma Aligned_occurs (text : jsstring) (k : Z) (ws : list SegmentedWord)
    (out : list WordObj) :
  Aligned text k ws out →
  Forall (λ w, occursAt text (word w) (position w)
               ∧ length_ w = JS.len (word w)) out.
Proof.
  induction 1 as [k | k p wd rest out Hf _ IH | k p wd rest out _ Hf _ IH
                  | k wd rest out _ _ IH];
    [constructor | | | done].
  - constructor; [|done]. by destruct Hf as (_ & ? & _).
  - constructor; [|done]. by destruct Hf as (_ & ? & _).
Qed.

Lemma firstFrom_unique (text w : jsstring) (k p q : Z) :
  firstFrom text w k p → firstFrom text w k q → p = q.
Proof.
  intros (Hkp & Hp & Hminp) (Hkq & Hq & Hminq).
  destruct (Z.lt_trichotomy p q) as [Hlt | [-> | Hgt]]; [|done|].
  - by destruct (Hminq p Hkp Hlt).
  - by destruct (Hminp q Hkq Hgt).
Qed.

Lemma firstFrom_not_none (text w : jsstring) (k k' p : Z) :
  k' ≤ k → firstFrom text w k p → noneFrom text w k' → False.
Proof. intros Hk (Hkp & Hp & _) Hnone. apply (Hnone p); [lia | done]. Qed.

(** The relation leaves no choice: it has at most one output. *)
Lemma Aligned_functional (text : jsstring) (k : Z) (ws : list SegmentedWord)
    (out1 out2 : list WordObj) :
  0 ≤ k → Aligned text k ws out1 → Aligned text k ws out2 → out1 = out2.
Proof.
  intros Hk H1. revert out2.
  induction H1 as [k | k p wd rest out Hf Hrest IH | k p wd rest out Hn Hf Hrest IH
                   | k wd rest out Hn Hrest IH];
    intros out2 H2; inversion H2 as [| ? q ? ? out' Hf' Hrest' | ? q ? ? out' Hn' Hf' Hrest'
                                     | ? ? ? ? Hn' Hrest']; subst; try done.
  - assert (p = q) as -> by by eapply firstFrom_unique.
    f_equal. apply IH; [|done]. pose proof (firstFrom_bounds _ _ _ _ Hf').
    pose proof (len_nonneg (sw_word wd)). lia.
  - exfalso. by eapply (firstFrom_not_none text (sw_word wd) k k p).
  - exfalso. by eapply (firstFrom_not_none text (sw_word wd) k 0 p).
  - exfalso. by eapply (firstFrom_not_none text (sw_word wd) k k q).
  - assert (p = q) as -> by by eapply firstFrom_unique.
    f_equal. apply IH; [|done]. pose proof (firstFrom_bounds _ _ _ _ Hf').
    pose proof (len_nonneg (sw_word wd)). lia.
  - exfalso. by eapply (firstFrom_not_none text (sw_word wd) 0 0 p).
  - exfalso. by eapply (firstFrom_not_none text (sw_word wd) k 0 q).
  - exfalso. by eapply (firstFrom_not_none text (sw_word wd) 0 0 q).
  - by apply IH.
Qed.

(** C3: the aligner takes the words in order with one cursor that starts at
    0; a word is searched from the cursor and, failing that, from offset 0;
    a word found is recorded at that position and moves the cursor behind
    it, a word found nowhere is dropped. Every recorded word lies in the
    text at its position. For the sample sentence the two words land at 0
    and 3, both of length 2. *)
Theorem alignWords_follows_cursor (text : jsstring) (ws : list SegmentedWord) :
  (Forall (λ wd, JS.isBlank (sw_word wd) = false) ws →
   Aligned text 0 ws (alignWords text ws)
   ∧ Forall (λ w, occursAt text (word w) (position w)
                  ∧ length_ w = JS.len (word w))
            (alignWords text ws))
  ∧ map (λ w, (word w, position w, length_ w))
        (alignWords s_tokyo_ni_iku (segmentWords (Some sampleTokens)))
    = [(s_tokyo, 0, 2); (s_iku, 3, 2)].
Proof.
  split; [|reflexivity].
  intros Hnb. unfold alignWords.
  destruct (alignStep_fold text ws [] 0) as (out & Hout & Hal);
    [lia | apply len_nonneg | done |].
  rewrite Hout. split; [done|]. by eapply Aligned_occurs.
Qed.

(** The sample sentence through the relation: both words are found from the
    cursor, which moves from 0 to 2 and then to 5. *)
Lemma alignWords_follows_cursor_witness :
  Aligned s_tokyo_ni_iku 0 (segmentWords (Some sampleTokens))
          [mkWordObj s_tokyo 0 h_tokyo; mkWordObj s_iku 3 h_iku].
Proof.
  apply (proj1 (alignWords_follows_cursor s_tokyo_ni_iku
                  (segmentWords (Some sampleTokens)))).
  vm_compute. repeat constructor.
Defined.

(** *** Katakana to hiragana *)

Lemma fromCharCode_katakana (c : Z) :
  isKatakana c = true → fromCharCode (c - 0x60) = c - 0x60.
Proof.
  unfold isKatakana, fromCharCode. rewrite andb_true_iff, !Z.leb_le.
  intros [? ?]. apply Z.mod_small. lia.
Qed.

Lemma convert_some (s : jsstring) :
  convertKatakanaToHiragana (Some s)
  = map (λ c, if isKatakana c then c - 0x60 else c) s.
Proof.
  unfold convertKatakanaToHiragana. destruct s as [|c s]; [done|].
  cbn [truthy negb default from_option id].
  apply map_ext_in. intros x _. fold (isKatakana x).
  destruct (isKatakana x) eqn:Hx; [by apply fromCharCode_katakana | done].
Qed.

Lemma convert_orEmpty (r : option jsstring) :
  convertKatakanaToHiragana (Some (orEmpty r)) = convertKatakanaToHiragana r.
Proof.
  unfold orEmpty. destruct r as [[|c s]|]; done.
Qed.

(** The words the aligner emits come from the kept tokens, with the
    converted reading and no meaning yet. *)
Lemma alignStep_fold_data (text : jsstring) (ws : list SegmentedWord) :
  ∀ (acc : list WordObj) (k : Z) (w : WordObj),
    w ∈ fst (foldl (alignStep text) (acc, k) ws) →
    w ∈ acc
    ∨ ∃ wd p, wd ∈ ws ∧ w = mkWordObj (sw_word wd) p (sw_reading wd).
Proof.
  induction ws as [|wd ws IH]; intros acc k w; cbn [foldl]; [by left|].
  unfold alignStep at 2.
  destruct (JS.isBlank (sw_word wd)).
  { intros [?|(wd' & p & ? & ?)]%IH; [by left|]. right. exists wd', p.
    split; [by right | done]. }
  destruct (JS.indexOf text (sw_word wd) k =? -1).
  - destruct (JS.indexOf text (sw_word wd) 0 =? -1).
    + intros [?|(wd' & p & ? & ?)]%IH; [by left|]. right. exists wd', p.
      split; [by right | done].
    + intros [[?| ->%list_elem_of_singleton]%elem_of_app|(wd' & p & ? & ?)]%IH.
      * by left.
      * right. eexists wd, _. split; [by left | done].
      * right. exists wd', p. split; [by right | done].
  - intros [[?| ->%list_elem_of_singleton]%elem_of_app|(wd' & p & ? & ?)]%IH.
    + by left.
    + right. eexists wd, _. split; [by left | done].
    + right. exists wd', p. split; [by right | done].
Qed.

Lemma alignWords_reading (tokens : list Token) (text : jsstring) (w : WordObj) :
  w ∈ alignWords text (segmentWords (Some tokens)) →
  ∃ token, token ∈ tokens
           ∧ word w = surface_form token
           ∧ readingOf w = Some (convertKatakanaToHiragana (reading token))
           ∧ gloss w = None.
Proof.
  unfold alignWords. intros [Hin|(wd & p & Hwd & ->)]%alignStep_fold_data.
  { by apply elem_of_nil in Hin. }
  unfold segmentWords in Hwd.
  apply list_elem_of_fmap in Hwd as (token & -> & Htok).
  apply list_elem_of_In, filter_In in Htok as [Htok _].
  exists token. split; [by apply list_elem_of_In|].
  cbn. by rewrite convert_orEmpty.
Qed.

Lemma sameBut_reading (wordObj wordObj' : WordObj) :
  sameBut wordObj wordObj' → readingOf wordObj' = readingOf wordObj.
Proof.
  intros [-> | [s ->]]; [done|].
  unfold readingOf, withMeaning. cbn. by destruct (data wordObj).
Qed.

(** C10: the conversion keeps the length, lowers every code unit of
    U+30A1..U+30F6 by 0x60 and leaves the others; a missing or empty input
    gives the empty string; the reading of every aligned word is the
    converted reading of its token, and resolution does not change it. *)
Theorem convertKatakanaToHiragana_spec (s : jsstring) :
  length (convertKatakanaToHiragana (Some s)) = length s
  ∧ (∀ (i : nat) c,
       s !! i = Some c →
       convertKatakanaToHiragana (Some s) !! i
       = Some (if isKatakana c then c - 0x60 else c))
  ∧ convertKatakanaToHiragana None = []
  ∧ convertKatakanaToHiragana (Some []) = []
  ∧ (∀ tokens text w,
       w ∈ alignWords text (segmentWords (Some tokens)) →
       ∃ token, token ∈ tokens ∧ word w = surface_form token
                ∧ readingOf w = Some (convertKatakanaToHiragana (reading token)))
  ∧ (∀ service w st o st',
       is_Some (data w) →
       lookupWholeWord service w st = (Net.Returned o, st') →
       readingOf o = readingOf w).
Proof.
  rewrite convert_some. split; [by rewrite length_map|].
  split.
  { intros i c Hi. by rewrite list_lookup_fmap, Hi. }
  split; [done|]. split; [done|]. split.
  - intros tokens text w Hw.
    destruct (alignWords_reading tokens text w Hw) as (token & ? & ? & ? & _).
    by exists token.
  - intros service w st o st' Hd Hrun.
    destruct (overlay_lookup_run service w st Hd) as (o' & Ho & _ & Hsame & _).
    rewrite Ho in Hrun. injection Hrun as <- _. by apply sameBut_reading.
Qed.

Lemma convertKatakanaToHiragana_spec_witness :
  convertKatakanaToHiragana (Some r_tokyo) !! 0%nat = Some 0x3068
  ∧ (∃ token, token ∈ sampleTokens
              ∧ readingOf (mkWordObj s_iku 3 h_iku)
                = Some (convertKatakanaToHiragana (reading token)))
  ∧ readingOf (withMeaning (mkWordObj s_iku 3 h_iku) Net.noDefinitionFound)
    = Some h_iku.
Proof.
  destruct (convertKatakanaToHiragana_spec r_tokyo) as (_ & Hi & _ & _ & _ & _).
  split; [exact (Hi 0%nat 0x30C8 eq_refl)|].
  destruct (convertKatakanaToHiragana_spec []) as (_ & _ & _ & _ & Htok & Hres).
  split.
  - destruct (Htok sampleTokens s_tokyo_ni_iku (mkWordObj s_iku 3 h_iku))
      as (token & Hin & _ & Hr).
    + vm_compute. apply list_elem_of_In. right. left. reflexivity.
    + by exists token.
  - apply (Hres emptyService (mkWordObj s_iku 3 h_iku) emptyWorld _
                {| Net.requests := [request Net.SearchInflected s_iku;
                                    request Net.SearchDirect s_iku;
                                    request Net.SearchPartial s_iku];
                   Net.cache := ∅ |}).
    + by eexists.
    + vm_compute. reflexivity.
Defined.

End Aligner.

(** ** Annotation compositor *)

Section Compositor.

(** Induction on the markup tree. *)
Lemma Node_induction (P : Node → Prop) :
  (∀ v, P (Text v)) →
  (∀ name attrs children, Forall P children → P (Element name attrs children)) →
  ∀ n, P n.
Proof.
  intros Htext Helem.
  fix IH 1. intros [v | name attrs children]; [apply Htext|].
  apply Helem. induction children as [|c cs IHcs]; constructor; [apply IH | apply IHcs].
Qed.

Lemma sort_insert_elem {A} (cmp : A → A → Z) (x y : A) (l : list A) :
  y ∈ JS.sort_insert cmp x l ↔ y = x ∨ y ∈ l.
Proof.
  induction l as [|z l IH]; simpl.
  - rewrite list_elem_of_singleton. split; [by left|].
    intros [?|?%elem_of_nil]; done.
  - destruct (cmp x z <=? 0); rewrite !elem_of_cons; [done|].
    rewrite IH. tauto.
Qed.

Lemma sort_elem {A} (cmp : A → A → Z) (l : list A) (x : A) :
  x ∈ JS.sort cmp l ↔ x ∈ l.
Proof.
  unfold JS.sort. induction l as [|y l IH]; simpl; [done|].
  rewrite sort_insert_elem, elem_of_cons, IH. done.
Qed.

(** The sort puts the elements in the order of the comparator, when that
    comparator is total and transitive. *)
Lemma sort_sorted {A} (cmp : A → A → Z) (l : list A) :
  (∀ x y, 0 < cmp x y → cmp y x ≤ 0) →
  (∀ x y z, cmp x y ≤ 0 → cmp y z ≤ 0 → cmp x z ≤ 0) →
  StronglySorted (λ x y, cmp x y ≤ 0) (JS.sort cmp l).
Proof.
  intros Htotal Htrans. unfold JS.sort.
  induction l as [|x l IH]; cbn [foldr]; [constructor|].
  revert IH. generalize (foldr (JS.sort_insert cmp) [] l) as sorted.
  induction sorted as [|y sorted IHs]; intros Hs; cbn [JS.sort_insert].
  - repeat constructor.
  - apply StronglySorted_inv in Hs as [Hs Hy].
    destruct (Z.leb_spec (cmp x y) 0) as [Hle|Hgt].
    + constructor; [by constructor|]. constructor; [done|].
      eapply Forall_impl; [exact Hy|]. intros z Hz. by eapply Htrans.
    + constructor; [by apply IHs|].
      apply Forall_forall. intros z [->|Hz]%sort_insert_elem.
      * by apply Htotal.
      * rewrite Forall_forall in Hy. by apply Hy.
Qed.

Lemma StronglySorted_weaken {A} (R R' : A → A → Prop) (l : list A) :
  (∀ x y, R x y → R' x y) → StronglySorted R l → StronglySorted R' l.
Proof.
  intros HR. induction 1 as [|x l _ IH Hx]; constructor; [done|].
  eapply Forall_impl; [exact Hx | apply HR].
Qed.

(** The words of a leaf are taken by first match position, the longer word
    first among those that start together. *)
Lemma relevantWords_sorted (kanjiWords : list WordObj) (text : jsstring) :
  StronglySorted (leafOrder text) (TreeMerge.relevantWords kanjiWords text).
Proof.
  unfold TreeMerge.relevantWords.
  set (cmp := λ a b : WordObj,
         let posA := JS.indexOf text (word a) 0 in
         let posB := JS.indexOf text (word b) 0 in
         if negb (posA =? posB) then posA - posB
         else JS.len (word b) - JS.len (word a)).
  assert (∀ a b, cmp a b = if negb (JS.indexOf text (word a) 0
                                    =? JS.indexOf text (word b) 0)
                           then JS.indexOf text (word a) 0
                                - JS.indexOf text (word b) 0
                           else JS.len (word b) - JS.len (word a)) as Hcmp
    by done.
  apply (StronglySorted_weaken (λ a b, cmp a b ≤ 0)).
  { intros a b. rewrite Hcmp. unfold leafOrder.
    destruct (Z.eqb_spec (JS.indexOf text (word a) 0) (JS.indexOf text (word b) 0));
      cbn [negb]; lia. }
  apply sort_sorted.
  - intros a b. rewrite !Hcmp.
    destruct (Z.eqb_spec (JS.indexOf text (word a) 0) (JS.indexOf text (word b) 0)),
             (Z.eqb_spec (JS.indexOf text (word b) 0) (JS.indexOf text (word a) 0));
      cbn [negb]; lia.
  - intros a b c. rewrite !Hcmp.
    destruct (Z.eqb_spec (JS.indexOf text (word a) 0) (JS.indexOf text (word b) 0)),
             (Z.eqb_spec (JS.indexOf text (word b) 0) (JS.indexOf text (word c) 0)),
             (Z.eqb_spec (JS.indexOf text (word a) 0) (JS.indexOf text (word c) 0));
      cbn [negb]; lia.
Qed.

Lemma substring_mid (text : jsstring) (a b : Z) :
  0 ≤ a → a ≤ b → b ≤ JS.len text →
  take (Z.to_nat a) text ++ JS.substring text a b = take (Z.to_nat b) text.
Proof.
  intros H0 Hab Hb. unfold JS.substring, JS.clamp.
  replace (Z.min (Z.max a 0) (JS.len text)) with a by lia.
  replace (Z.min (Z.max b 0) (JS.len text)) with b by lia.
  replace (Z.min a b) with a by lia. replace (Z.max a b) with b by lia.
  rewrite take_take_drop. f_equal. lia.
Qed.

Lemma substringFrom_rest (text : jsstring) (a : Z) :
  0 ≤ a → a ≤ JS.len text →
  take (Z.to_nat a) text ++ JS.substringFrom text a = text.
Proof.
  intros H0 Ha. unfold JS.substringFrom.
  rewrite substring_mid by lia. apply take_ge. unfold JS.len. lia.
Qed.

Lemma occursAt_take (text w : jsstring) (p : Z) :
  occursAt text w p →
  take (Z.to_nat p) text ++ w = take (Z.to_nat (p + JS.len w)) text.
Proof.
  intros (H0 & Hb & Ht). rewrite <- Ht at 1. rewrite take_take_drop.
  f_equal. unfold JS.len. lia.
Qed.

Lemma visibleText_piece (p : Piece) : visibleText (pieceNode p) = pieceText p.
Proof.
  destruct p as [s | w]; [done|]. cbn.
  unfold setTextContent. destruct (word w); cbn; by rewrite ?app_nil_r.
Qed.

Lemma visibleText_pieces (pieces : list Piece) :
  visibleTextOf (map pieceNode pieces) = flat_map pieceText pieces.
Proof.
  unfold visibleTextOf. induction pieces as [|p ps IH]; [done|].
  cbn [map flat_map]. by rewrite visibleText_piece, IH.
Qed.

(** *** The tree-merge player *)

Lemma markRange_elem (a b : Z) (s : gset Z) (i : Z) :
  i ∈ TreeMerge.markRangeProcessed a b s ↔ i ∈ s ∨ (a ≤ i ∧ i < b).
Proof.
  unfold TreeMerge.markRangeProcessed.
  assert (∀ l (s : gset Z), i ∈ foldl (λ s j, {[j]} ∪ s) s l ↔ i ∈ s ∨ i ∈ l) as H.
  { induction l as [|j l IH]; intros s'; cbn [foldl].
    - split; [by left|]. intros [?|?%elem_of_nil]; done.
    - rewrite IH, elem_of_union, elem_of_singleton, elem_of_cons. tauto. }
  rewrite H, elem_of_seqZ. split; intros [?|?]; auto; right; lia.
Qed.

Lemma leafStep_inv (ws : list WordObj) (text : jsstring)
    (st : TreeMerge.LeafState) (w : WordObj) :
  w ∈ ws → leafInv ws text st → leafInv ws text (TreeMerge.leafStep text st w).
Proof.
  intros Hw (H0 & Hle & Hclaimed & pieces & Happ & Htext & Hws).
  unfold TreeMerge.leafStep.
  destruct (Z.eqb_spec (JS.indexOf text (word w) (TreeMerge.lastIndex st)) (-1))
    as [Hm|Hm]; cbn [orb].
  { split; [done|]. split; [done|]. split; [done|]. by exists pieces. }
  destruct (TreeMerge.isRangeProcessed _ _ _).
  { split; [done|]. split; [done|]. split; [done|]. by exists pieces. }
  apply indexOf_found in Hm; [|done..].
  set (p := JS.indexOf text (word w) (TreeMerge.lastIndex st)) in *.
  destruct Hm as (Hge & Hocc & _).
  pose proof Hocc as (Hp0 & Hpb & _). pose proof (len_nonneg (word w)).
  unfold leafInv.
  cbn [TreeMerge.appended TreeMerge.lastIndex TreeMerge.processedIndexes].
  split; [lia|]. split; [lia|]. split.
  { intros i [Hi|Hi]%markRange_elem; [|lia]. specialize (Hclaimed i Hi). lia. }
  destruct (Z.gtb_spec p (TreeMerge.lastIndex st)) as [Hgt|Hngt].
  - exists (pieces ++ [Plain (JS.substring text (TreeMerge.lastIndex st) p);
                       Wrapped w]).
    split; [by rewrite Happ, map_app|]. split.
    + rewrite flat_map_app, Htext. cbn [flat_map pieceText].
      rewrite app_nil_r, app_assoc, substring_mid by lia.
      by apply occursAt_take.
    + intros w' [Hin|Hin]%elem_of_app; [by apply Hws|].
      apply elem_of_cons in Hin as [Hin|Hin]; [done|].
      apply list_elem_of_singleton in Hin. by injection Hin as ->.
  - assert (p = TreeMerge.lastIndex st) as Hp by lia.
    exists (pieces ++ [Wrapped w]).
    split; [by rewrite Happ, map_app|]. split.
    + rewrite flat_map_app, Htext. cbn [flat_map pieceText].
      rewrite app_nil_r, <- Hp. by apply occursAt_take.
    + intros w' [Hin|Hin]%elem_of_app; [by apply Hws|].
      apply list_elem_of_singleton in Hin. by injection Hin as ->.
Qed.

Lemma leaf_fold_inv (ws : list WordObj) (text : jsstring) (l : list WordObj) :
  ∀ st, (∀ w, w ∈ l → w ∈ ws) → leafInv ws text st →
        leafInv ws text (foldl (TreeMerge.leafStep text) st l).
Proof.
  induction l as [|w l IH]; intros st Hl Hinv; cbn [foldl]; [done|].
  apply IH; [intros w' Hw'; apply Hl; by right|].
  apply leafStep_inv; [apply Hl; by left | done].
Qed.

(** Offsets at or after [lastIndex] are never in [processedIndexes], so the
    test of the set never decides: the loop is the loop without it. *)
Lemma isRangeProcessed_clear (a b : Z) (s : gset Z) :
  (∀ i, i ∈ s → i < a) → TreeMerge.isRangeProcessed a b s = false.
Proof.
  intros Hclear. unfold TreeMerge.isRangeProcessed.
  apply not_true_is_false. intros (i & Hi & Hin)%existsb_exists.
  apply list_elem_of_In, elem_of_seqZ in Hi.
  apply bool_decide_eq_true in Hin. specialize (Hclear i Hin). lia.
Qed.

Lemma leafStep_cursor (ws : list WordObj) (text : jsstring)
    (st : TreeMerge.LeafState) (w : WordObj) :
  leafInv ws text st →
  TreeMerge.leafStep text st w = leafStepFromCursor text st w.
Proof.
  intros (H0 & Hle & Hclaimed & _).
  unfold TreeMerge.leafStep, leafStepFromCursor.
  destruct (Z.eqb_spec (JS.indexOf text (word w) (TreeMerge.lastIndex st)) (-1))
    as [Hm|Hm]; cbn [orb]; [done|].
  apply indexOf_found in Hm as (Hge & _); [|done..].
  rewrite isRangeProcessed_clear; [done|].
  intros i Hi. specialize (Hclaimed i Hi). lia.
Qed.

Lemma leaf_fold_cursor (ws : list WordObj) (text : jsstring) (l : list WordObj) :
  ∀ st, (∀ w, w ∈ l → w ∈ ws) → leafInv ws text st →
        foldl (TreeMerge.leafStep text) st l
        = foldl (leafStepFromCursor text) st l.
Proof.
  induction l as [|w l IH]; intros st Hl Hinv; cbn [foldl]; [done|].
  rewrite <- (leafStep_cursor ws text st w Hinv).
  apply IH; [intros w' Hw'; apply Hl; by right|].
  apply leafStep_inv; [apply Hl; by left | done].
Qed.

Lemma leafStart_inv (ws : list WordObj) (text : jsstring) :
  leafInv ws text leafStart.
Proof.
  split; [done|]. split; [apply len_nonneg|].
  split; [intros i Hi; by apply elem_of_empty in Hi|].
  exists []. repeat split. intros w Hin. by apply elem_of_nil in Hin.
Qed.

(** The fragments of a text leaf tile the leaf: plain text and wrapped
    words alternate without gap or overlap, and only words of the list are
    wrapped. *)
Lemma processText_tiles (kanjiWords : list WordObj) (text : jsstring) :
  ∃ pieces,
    TreeMerge.processText kanjiWords text = map pieceNode pieces
    ∧ flat_map pieceText pieces = text
    ∧ ∀ w, Wrapped w ∈ pieces → w ∈ kanjiWords.
Proof.
  unfold TreeMerge.processText.
  destruct (JS.isBlank text).
  { exists [Plain text]. repeat split; [by cbn; rewrite app_nil_r|].
    intros w Hin. apply list_elem_of_singleton in Hin. discriminate. }
  destruct (length (TreeMerge.relevantWords kanjiWords text) =? 0)%nat.
  { exists [Plain text]. repeat split; [by cbn; rewrite app_nil_r|].
    intros w Hin. apply list_elem_of_singleton in Hin. discriminate. }
  set (st0 := {| TreeMerge.appended := []; TreeMerge.lastIndex := 0;
                 TreeMerge.processedIndexes := ∅ |}).
  assert (leafInv kanjiWords text st0) as Hinv0.
  { split; [done|]. split; [apply len_nonneg|].
    split; [intros i Hi; by apply elem_of_empty in Hi|].
    exists []. repeat split. intros w Hin. by apply elem_of_nil in Hin. }
  assert (∀ w, w ∈ TreeMerge.relevantWords kanjiWords text → w ∈ kanjiWords) as Hsub.
  { intros w Hw. unfold TreeMerge.relevantWords in Hw.
    apply sort_elem, list_elem_of_In, filter_In in Hw as [Hw _].
    by apply list_elem_of_In. }
  pose proof (leaf_fold_inv kanjiWords text _ st0 Hsub Hinv0)
    as (H0 & Hle & _ & pieces & Happ & Htext & Hws).
  set (st := foldl (TreeMerge.leafStep text) st0 _) in *.
  destruct (Z.ltb_spec (TreeMerge.lastIndex st) (JS.len text)) as [Hlt|Hge].
  - exists (pieces ++ [Plain (JS.substringFrom text (TreeMerge.lastIndex st))]).
    split; [by rewrite Happ, map_app|]. split.
    + rewrite flat_map_app, Htext. cbn [flat_map pieceText].
      rewrite app_nil_r. apply substringFrom_rest; lia.
    + intros w [Hin|Hin]%elem_of_app; [by apply Hws|].
      apply list_elem_of_singleton in Hin. discriminate.
  - exists pieces. split; [done|]. split; [|done].
    rewrite Htext. apply take_ge. unfold JS.len in *. lia.
Qed.

Lemma isPopup_word : isPopup [("class", "kanji-word")] = false.
Proof. reflexivity. Qed.

Lemma isPopup_popup : isPopup [("class", "kanji-popup")] = true.
Proof. reflexivity. Qed.

Lemma visibleText_popup (d : option WordData) : visibleText (popup d) = [].
Proof. unfold popup. cbn [visibleText]. by rewrite isPopup_popup, orb_true_r. Qed.

Lemma visibleTextOf_flat_map (f : Node → list Node) (children : list Node) :
  Forall (λ c, visibleTextOf (f c) = visibleText c) children →
  visibleTextOf (flat_map f children) = visibleTextOf children.
Proof.
  unfold visibleTextOf. induction 1 as [|c cs Hc _ IH]; [done|].
  cbn [flat_map]. by rewrite flat_map_app, Hc, IH.
Qed.

(** The text a viewer reads is the same before and after [processNode],
    for every tree and every word list. *)
Lemma processNode_visible (kanjiWords : list WordObj) (node : Node) :
  visibleTextOf (TreeMerge.processNode kanjiWords node) = visibleText node.
Proof.
  induction node as [text | name attrs children IH] using Node_induction.
  - cbn [TreeMerge.processNode].
    destruct (processText_tiles kanjiWords text) as (pieces & -> & Ht & _).
    by rewrite visibleText_pieces.
  - cbn [TreeMerge.processNode].
    destruct (String.eqb name "rt") eqn:Hrt.
    { unfold visibleTextOf. cbn [flat_map]. apply app_nil_r. }
    destruct (String.eqb name "ruby") eqn:Hruby.
    { unfold TreeMerge.processRuby. destruct (JS.find _ kanjiWords) as [kw|].
      - unfold visibleTextOf. cbn [flat_map]. rewrite app_nil_r.
        set (ruby := Element name attrs children).
        change (visibleText (Element "span" [("class", "kanji-word")]
                                     [popup (data kw); ruby]))
          with (if isRtOrRp "span" || isPopup [("class", "kanji-word")] then []
                else visibleText (popup (data kw)) ++ visibleText ruby ++ []).
        rewrite isPopup_word, visibleText_popup. cbn. apply app_nil_r.
      - unfold visibleTextOf. cbn [flat_map]. apply app_nil_r. }
    unfold visibleTextOf at 1. cbn [flat_map visibleText]. rewrite app_nil_r.
    destruct (isRtOrRp name || isPopup attrs); [done|].
    by apply visibleTextOf_flat_map.
Qed.

(** Without words [processNode] copies the tree. *)
Lemma processNode_nil (node : Node) : TreeMerge.processNode [] node = [node].
Proof.
  induction node as [text | name attrs children IH] using Node_induction.
  - cbn [TreeMerge.processNode]. unfold TreeMerge.processText.
    by destruct (JS.isBlank text).
  - cbn [TreeMerge.processNode].
    destruct (String.eqb name "rt"); [done|].
    destruct (String.eqb name "ruby"); [done|].
    do 2 f_equal. induction IH as [|c cs Hc _ IHcs]; [done|].
    cbn [flat_map]. by rewrite Hc, IHcs.
Qed.

(** *** The overlay player *)

Lemma highlightLeaf_nil (text : jsstring) (located : option Z) :
  Overlay.highlightLeaf [] text located = None.
Proof. unfold Overlay.highlightLeaf. by destruct (JS.isBlank text). Qed.

Lemma replaceLeaves_element (name : string) (attrs : list (string * string))
    (children : list Node) (rs : list (option (list Node))) :
  Overlay.replaceLeaves (Element name attrs children) rs
  = if isRtOrRp name then ([Element name attrs children], rs)
    else let '(children', rs') := Overlay.replaceForest children rs in
         ([Element name attrs children'], rs').
Proof. reflexivity. Qed.

Lemma replaceLeaves_none (node : Node) :
  ∀ rs, Forall (λ r, r = None) rs →
        ∃ rs', Overlay.replaceLeaves node rs = ([node], rs')
               ∧ Forall (λ r, r = None) rs'.
Proof.
  induction node as [text | name attrs children IH] using Node_induction;
    intros rs Hrs.
  - cbn [Overlay.replaceLeaves]. destruct (negb (JS.isBlank text)).
    + destruct Hrs as [|r rs Hr Hrs]; [by exists []|].
      subst r. by exists rs.
    + by exists rs.
  - rewrite replaceLeaves_element. destruct (isRtOrRp name); [by exists rs|].
    enough (∃ rs', Overlay.replaceForest children rs = (children, rs')
                   ∧ Forall (λ r, r = None) rs') as (rs' & -> & Hrs').
    { by exists rs'. }
    clear name attrs. revert rs Hrs.
    induction IH as [|c cs Hc _ IHcs]; intros rs Hrs; [by exists rs|].
    cbn [Overlay.replaceForest].
    destruct (Hc rs Hrs) as (rs1 & -> & Hrs1).
    destruct (IHcs rs1 Hrs1) as (rs2 & -> & Hrs2).
    by exists rs2.
Qed.

Lemma replaceForest_none (children : list Node) :
  ∀ rs, Forall (λ r, r = None) rs →
        fst (Overlay.replaceForest children rs) = children.
Proof.
  induction children as [|c cs IH]; intros rs Hrs; [done|].
  cbn [Overlay.replaceForest].
  destruct (replaceLeaves_none c rs Hrs) as (rs1 & -> & Hrs1).
  specialize (IH rs1 Hrs1).
  destruct (Overlay.replaceForest cs rs1) as [cs' rs2]. cbn in *. by subst.
Qed.

(** Without words [applyHighlighting] leaves the tree as it is. *)
Lemma applyHighlighting_nil (rootNode : Node) (originalText : jsstring) :
  Overlay.applyHighlighting rootNode [] originalText = rootNode.
Proof.
  unfold Overlay.applyHighlighting.
  destruct rootNode as [v | name attrs children]; [done|].
  destruct (isRtOrRp name); [done|]. f_equal.
  apply replaceForest_none.
  generalize (Overlay.locateTextNodes originalText
                (Overlay.collectTextNodes (Element name attrs children))).
  generalize (Overlay.collectTextNodes (Element name attrs children)).
  induction l as [|t ts IH]; intros [|p ps]; cbn; try constructor.
  - apply highlightLeaf_nil.
  - apply IH.
Qed.

End Compositor.

(** ** The claims on the compositor *)

Section CompositorClaims.

(** C4: no two highlighted ranges overlap in the output of the tree-merge
    player, and two do in the output of the overlay player.
    Tree-merge player, every word list and text leaf: the words are taken by
    first match position, longer first among equals; the fragments tile the
    leaf, plain text and wrapped words following each other without gap or
    overlap; the loop wraps each word at its first occurrence at or after
    the end of the last wrapper, and the test of the claimed offsets never
    decides (the loop equals the loop without it). Of 東京都 and 東京 at
    the same start only the longer word is wrapped.
    Overlay player, 行くとき with the analyzer's words 行く (offsets 0-2)
    and とき (offsets 2-4), two ranges that do not meet: the leaf くとき,
    which starts at offset 1, becomes the wrappers くと and とき, which
    both hold the と at offset 2, and the display that is built ends with
    these two wrappers. The tree-merge loop turns the same leaf into the
    text く and the wrapper とき. *)
Theorem highlighted_ranges_by_player :
  (∀ kanjiWords text,
     StronglySorted (leafOrder text) (TreeMerge.relevantWords kanjiWords text))
  ∧ (∀ kanjiWords text,
     ∃ pieces,
       TreeMerge.processText kanjiWords text = map pieceNode pieces
       ∧ flat_map pieceText pieces = text
       ∧ ∀ w, Wrapped w ∈ pieces → w ∈ kanjiWords)
  ∧ (∀ text ws,
       foldl (TreeMerge.leafStep text) leafStart ws
       = foldl (leafStepFromCursor text) leafStart ws)
  ∧ TreeMerge.processText tokyotoWords s_tokyoto
    = [wordSpan s_tokyoto (data (Overlay.mkWordObj s_tokyoto 0 []))]
  ∧ TreeMerge.render [Text s_tokyoto] tokyotoWords
    = [Element "div" []
         [wordSpan s_tokyoto (data (Overlay.mkWordObj s_tokyoto 0 []))]]
  ∧ Overlay.alignWords s_iku_toki (Overlay.segmentWords (Some ikuTokiTokens))
    = [Overlay.mkWordObj s_iku 0 h_iku; Overlay.mkWordObj s_toki 2 s_toki]
  ∧ TreeMerge.processText
      [Overlay.mkWordObj s_iku 0 h_iku; Overlay.mkWordObj s_toki 2 s_toki]
      [0x304F; 0x3068; 0x304D]
    = [ Text [0x304F];
        wordSpan s_toki (data (Overlay.mkWordObj s_toki 2 s_toki)) ]
  ∧ Overlay.highlightLeaf
      [Overlay.mkWordObj s_iku 0 h_iku; Overlay.mkWordObj s_toki 2 s_toki]
      [0x304F; 0x3068; 0x304D] (Some 1)
    = Some [ wordSpan [0x304F; 0x3068] (data (Overlay.mkWordObj s_iku 0 h_iku));
             wordSpan [0x3068; 0x304D]
                      (data (Overlay.mkWordObj s_toki 2 s_toki)) ]
  ∧ ∃ d1 d2 st,
      Overlay.enhanceWithKanjiPopups emptyService (Some ikuTokiTokens)
                                     ikuTokiMarkup s_iku_toki [] emptyWorld
      = (Net.Returned
           [ Element "ruby" []
               [ wordSpan [0x884C] d1; Element "rp" [] [Text (js "(")];
                 Element "rt" [] [Text [0x3044]];
                 Element "rp" [] [Text (js ")")] ];
             wordSpan [0x304F; 0x3068] d1;
             wordSpan [0x3068; 0x304D] d2 ],
         st).
Proof.
  split; [apply relevantWords_sorted|].
  split; [apply processText_tiles|].
  split.
  { intros text ws. apply (leaf_fold_cursor ws); [done|apply leafStart_inv]. }
  split; [reflexivity|]. split; [reflexivity|]. split; [reflexivity|].
  split; [reflexivity|]. split; [reflexivity|].
  exists (Some {| wd_word := Some s_iku; hiragana := Some h_iku;
                  meaning := Some Net.noDefinitionFound |}),
         (Some {| wd_word := Some s_toki; hiragana := Some s_toki;
                  meaning := Some Net.noDefinitionFound |}).
  eexists. vm_compute. reflexivity.
Qed.

(** C5: in the tree-merge player the text a viewer reads (wrappers
    ignored, popups and reading sub-nodes left out) is the same before and
    after compositing, for every tree and word list. In the overlay player
    it is not: for 行くとき, with the analyzer's two words and the
    converter's markup, the display reads 行くととき. *)
Theorem visible_text_by_player :
  (∀ kanjiWords node,
     visibleTextOf (TreeMerge.processNode kanjiWords node) = visibleText node)
  ∧ (∀ display allWords,
       visibleTextOf (TreeMerge.render display allWords) = visibleTextOf display)
  ∧ visibleTextOf ikuTokiMarkup = s_iku_toki
  ∧ ∃ out st,
      Overlay.enhanceWithKanjiPopups emptyService (Some ikuTokiTokens)
                                     ikuTokiMarkup s_iku_toki [] emptyWorld
      = (Net.Returned out, st)
      ∧ visibleTextOf out = [0x884C; 0x304F; 0x3068; 0x3068; 0x304D].
Proof.
  split; [apply processNode_visible|]. split.
  - intros display allWords. unfold TreeMerge.render.
    destruct (length allWords =? 0)%nat; [done|].
    rewrite processNode_visible. cbn [visibleText]. done.
  - split; [reflexivity|].
    eexists _, _. split; [vm_compute; reflexivity | reflexivity].
Qed.

(** C9: compositing with no resolved word returns the display unchanged,
    in both players, and so the text it renders; the overlay player then
    issues no request either. Without the guard the overlay's highlighting
    would still be the identity, while [processNode] returns a copy of the
    tree it is given. *)
Theorem no_words_keep_display :
  (∀ display formatted originalText,
     Overlay.render display formatted originalText [] = display)
  ∧ (∀ display, TreeMerge.render display [] = display)
  ∧ (∀ service tokens formatted originalText display st,
       Overlay.alignWords originalText (Overlay.segmentWords tokens) = [] →
       Overlay.enhanceWithKanjiPopups service tokens formatted originalText
                                      display st
       = (Net.Returned display, st))
  ∧ (∀ display, visibleTextOf (TreeMerge.render display []) = visibleTextOf display)
  ∧ (∀ rootNode originalText,
       Overlay.applyHighlighting rootNode [] originalText = rootNode)
  ∧ (∀ node, TreeMerge.processNode [] node = [node]).
Proof.
  split; [done|]. split; [done|]. split.
  - intros service tokens formatted originalText display st Hnil.
    unfold Overlay.enhanceWithKanjiPopups, Net.try_catch, Net.bind.
    by rewrite Hnil.
  - split; [done|]. split; [apply applyHighlighting_nil | apply processNode_nil].
Qed.

(** A subtitle whose analysis is unavailable keeps the display it has. *)
Lemma no_words_keep_display_witness :
  Overlay.enhanceWithKanjiPopups catService None ikuTokiMarkup s_iku_toki
                                 ikuTokiMarkup emptyWorld
  = (Net.Returned ikuTokiMarkup, emptyWorld).
Proof.
  destruct no_words_keep_display as (_ & _ & H & _).
  apply H. reflexivity.
Defined.

End CompositorClaims.

(** ** Further properties of the subtitle parser *)

Section TimelineMore.
Import SubtitleParser.

(** *** Line breaks, white space and pieces *)

Lemma normalizeLineBreaks_elem_len (n : nat) :
  ∀ s x, (length s ≤ n)%nat → x ∈ JS.normalizeLineBreaks s →
         x ≠ 13 ∧ (x = 10 ∨ x ∈ s).
Proof.
  induction n as [|n IH]; intros s x Hn Hx.
  - destruct s; [|simpl in Hn; lia]. by apply elem_of_nil in Hx.
  - destruct s as [|c s]; [by apply elem_of_nil in Hx|].
    simpl in Hn, Hx. destruct (c =? 13) eqn:Hc.
    + apply elem_of_cons in Hx as [->|Hx]; [split; [lia | by left]|].
      destruct s as [|d s]; [by apply elem_of_nil in Hx|]. simpl in Hn.
      destruct (d =? 10).
      * destruct (IH s x ltac:(lia) Hx) as [? [?|?]].
        -- split; [done | by left].
        -- split; [done|]. right. by do 2 apply list_elem_of_further.
      * destruct (IH (d :: s) x ltac:(simpl; lia) Hx) as [? [?|?]].
        -- split; [done | by left].
        -- split; [done|]. right. by apply list_elem_of_further.
    + apply elem_of_cons in Hx as [->|Hx].
      * split; [lia|]. right. by left.
      * destruct (IH s x ltac:(lia) Hx) as [? [?|?]].
        -- split; [done | by left].
        -- split; [done|]. right. by apply list_elem_of_further.
Qed.

Lemma normalizeLineBreaks_elem (s : jsstring) (x : Z) :
  x ∈ JS.normalizeLineBreaks s → x ≠ 13 ∧ (x = 10 ∨ x ∈ s).
Proof. by apply (normalizeLineBreaks_elem_len (length s)). Qed.

Lemma normalizeLineBreaks_keeps (s : jsstring) :
  13 ∉ s → JS.normalizeLineBreaks s = s.
Proof.
  induction s as [|c s IH]; [done|]. intros Hc. simpl.
  apply not_elem_of_cons in Hc as [Hc Hs].
  destruct (c =? 13) eqn:E; [lia|]. by rewrite IH.
Qed.

Lemma trimStart_suffix (s : jsstring) : JS.trimStart s `suffix_of` s.
Proof.
  induction s as [|c s IH]; [done|]. simpl.
  destruct (JS.isWhiteSpace c); [by apply suffix_cons_r | done].
Qed.

Lemma trimStart_elem (s : jsstring) (x : Z) : x ∈ JS.trimStart s → x ∈ s.
Proof.
  intros Hx. destruct (trimStart_suffix s) as [pre ->].
  apply elem_of_app. by right.
Qed.

Lemma trim_elem (s : jsstring) (x : Z) : x ∈ JS.trim s → x ∈ s.
Proof.
  unfold JS.trim, JS.trimEnd. rewrite elem_of_reverse. intros Hx.
  apply trimStart_elem in Hx. rewrite elem_of_reverse in Hx.
  by apply trimStart_elem in Hx.
Qed.

Lemma trimStart_blank (s : jsstring) :
  JS.trimStart s = [] ↔ Forall (λ c, JS.isWhiteSpace c = true) s.
Proof.
  induction s as [|c s IH]; simpl.
  - split; [by constructor | done].
  - destruct (JS.isWhiteSpace c) eqn:Hc.
    + rewrite IH. split; [by constructor | by inversion 1].
    + split; [done|]. inversion 1; simpl in *; congruence.
Qed.

Lemma trimStart_head (s : jsstring) (c : Z) (rest : jsstring) :
  JS.trimStart s = c :: rest → JS.isWhiteSpace c = false.
Proof.
  induction s as [|d s IH]; [done|]. simpl.
  destruct (JS.isWhiteSpace d) eqn:Hd; [done|]. by intros [= <- _].
Qed.

Lemma trim_blank (s : jsstring) :
  JS.trim s = [] ↔ Forall (λ c, JS.isWhiteSpace c = true) s.
Proof.
  unfold JS.trim, JS.trimEnd. split.
  - intros H. apply (f_equal reverse) in H. rewrite reverse_involutive in H.
    change (reverse []) with (@nil Z) in H. apply trimStart_blank in H.
    rewrite Forall_reverse in H.
    destruct (JS.trimStart s) as [|c rest] eqn:Hs; [by apply trimStart_blank|].
    apply trimStart_head in Hs. inversion H; simpl in *; congruence.
  - intros H. apply trimStart_blank in H. by rewrite H.
Qed.

Lemma isBlank_spec (s : jsstring) :
  JS.isBlank s = true ↔ Forall (λ c, JS.isWhiteSpace c = true) s.
Proof.
  rewrite <- trim_blank. unfold JS.isBlank. by destruct (JS.trim s).
Qed.

Lemma normalizeLineBreaks_blank (s : jsstring) :
  Forall (λ c, JS.isWhiteSpace c = true) s →
  Forall (λ c, JS.isWhiteSpace c = true) (JS.normalizeLineBreaks s).
Proof.
  intros H. apply Forall_forall. intros x Hx.
  apply normalizeLineBreaks_elem in Hx as [_ [->|Hx]]; [done|].
  by apply (proj1 (Forall_forall _ _) H).
Qed.

Lemma split_go_elem (sep : jsstring) (s : jsstring) :
  ∀ k piece x, piece ∈ JS.split_go sep k s → x ∈ piece → x ∈ s.
Proof.
  induction s as [|c s IH]; intros k piece x Hp Hx; simpl in Hp.
  - apply list_elem_of_singleton in Hp as ->. done.
  - destruct k as [|k].
    + destruct (JS.startsWith (c :: s) sep).
      * apply elem_of_cons in Hp as [->|Hp]; [by apply elem_of_nil in Hx|].
        apply list_elem_of_further. by eapply IH.
      * destruct (JS.split_go sep 0 s) as [|cur rest] eqn:Hsp.
        -- apply list_elem_of_singleton in Hp as ->.
           apply list_elem_of_singleton in Hx as ->. by left.
        -- apply elem_of_cons in Hp as [->|Hp].
           ++ apply elem_of_cons in Hx as [->|Hx]; [by left|].
              apply list_elem_of_further. apply (IH 0%nat cur); [|done].
              rewrite Hsp. by left.
           ++ apply list_elem_of_further. apply (IH 0%nat piece); [|done].
              rewrite Hsp. by right.
    + apply list_elem_of_further. by eapply IH.
Qed.

Lemma split_elem (s sep piece : jsstring) (x : Z) :
  piece ∈ JS.split s sep → x ∈ piece → x ∈ s.
Proof. apply split_go_elem. Qed.

Lemma split_single_free (c : Z) (s : jsstring) :
  Forall (λ piece, c ∉ piece) (JS.split s [c]).
Proof.
  induction s as [|x s IH].
  - repeat constructor. by intros ?%elem_of_nil.
  - rewrite split_single_cons. destruct (c =? x) eqn:Hc.
    + constructor; [by intros ?%elem_of_nil | done].
    + destruct (JS.split s [c]) as [|cur rest].
      * repeat constructor. intros ?%list_elem_of_singleton. lia.
      * inversion IH as [|? ? Hcur Hrest]; subst. constructor; [|done].
        intros [?|?]%elem_of_cons; [lia | done].
Qed.

Lemma split_single_length (c : Z) (s : jsstring) :
  length (JS.split s [c]) = S (length (List.filter (λ x, x =? c) s)).
Proof.
  induction s as [|x s IH]; [done|].
  rewrite split_single_cons. simpl. rewrite (Z.eqb_sym x c).
  destruct (c =? x); simpl; [by rewrite IH|].
  destruct (JS.split s [c]); simpl in *; lia.
Qed.

Lemma join_elem (sep : jsstring) (parts : list jsstring) (x : Z) :
  x ∈ JS.join sep parts → x ∈ sep ∨ ∃ p, p ∈ parts ∧ x ∈ p.
Proof.
  induction parts as [|p parts IH]; [by intros ?%elem_of_nil|].
  destruct parts as [|p' parts].
  - simpl. intros Hx. right. exists p. split; [by left | done].
  - rewrite join_cons by done.
    intros [Hx|[Hx|Hx]%elem_of_app]%elem_of_app.
    + right. exists p. split; [by left | done].
    + by left.
    + destruct (IH Hx) as [?|(q & Hq & ?)]; [by left|].
      right. exists q. split; [by right | done].
Qed.

(** *** The entries of a parsed timeline *)

Lemma stampMs_bounds (d : Stamp) : digitsOk d → 0 ≤ stampMs d ∧ stampMs d ≤ maxStampMs.
Proof.
  intros Hd. apply digitsOk_fields in Hd.
  unfold stampMs, maxStampMs. lia.
Qed.

Lemma block_line_clean (content block line : jsstring) (x : Z) :
  block ∈ subtitleBlocks content → line ∈ blockLines block → x ∈ line →
  x ≠ 10 ∧ x ≠ 13.
Proof.
  intros Hb Hl Hx. split.
  - intros ->. pose proof (split_single_free 10 block) as Hfree.
    by apply (proj1 (Forall_forall _ _) Hfree line Hl).
  - apply (split_elem _ _ _ _ Hl) in Hx.
    apply (split_elem _ _ _ _ Hb) in Hx.
    apply trim_elem in Hx. by apply normalizeLineBreaks_elem in Hx as [? _].
Qed.

(** X1: every entry of a parsed timeline has numeric bounds between 0 and
    [99:99:99,999], and a text without line breaks. *)
Theorem parseSRT_entries_well_formed (this : t) (content : jsstring) :
  Forall entryOk (snd (parseSRT this content)).
Proof.
  rewrite (proj1 (parseSRT_omap this content)).
  apply Forall_forall. intros e He.
  apply list_elem_of_omap in He as (block & Hb & He).
  apply blockEntry_Some in He
    as (_ & a & b & pre & post & Ha & Hb' & _ & _ & Hstart & Hend & Htext).
  split.
  - exists (stampMs a), (stampMs b).
    split; [done|]. split; [done|]. split; by apply stampMs_bounds.
  - assert (∀ x, x ∈ text e → x ≠ 10 ∧ x ≠ 13) as Hclean.
    { intros x Hx. rewrite Htext in Hx.
      apply join_elem in Hx as [Hx|(line & Hl & Hx)].
      - change (js " ") with [32] in Hx.
        apply list_elem_of_singleton in Hx as ->. lia.
      - apply (block_line_clean content block line); [done| |done].
        apply list_elem_of_lookup in Hl as [i Hi].
        rewrite lookup_drop in Hi. by eapply list_elem_of_lookup_2. }
    split; intros Hx; by destruct (Hclean _ Hx).
Qed.

(** X2: a file that holds white space only gives an empty timeline,
    whatever the parser held before. *)
Theorem parseSRT_blank (this : t) (content : jsstring) :
  JS.isBlank content = true →
  parseSRT this content = ({| subtitles := [] |}, []).
Proof.
  intros Hb. apply isBlank_spec, normalizeLineBreaks_blank, trim_blank in Hb.
  unfold parseSRT, subtitleBlocks. by rewrite Hb.
Qed.

Lemma parseSRT_blank_witness :
  parseSRT sampleTimeline ([32; 13; 10; 9; 10; 0x3000])
  = ({| subtitles := [] |}, []).
Proof. apply parseSRT_blank. reflexivity. Defined.

Lemma normalizeLineBreaks_toCRLF (s : jsstring) :
  13 ∉ s → JS.normalizeLineBreaks (toCRLF s) = s.
Proof.
  induction s as [|c s IH]; [done|]. intros Hc.
  apply not_elem_of_cons in Hc as [Hc Hs]. unfold toCRLF. simpl.
  destruct (c =? 10) eqn:E; simpl.
  - fold (toCRLF s). rewrite IH by done. f_equal. lia.
  - fold (toCRLF s). destruct (c =? 13) eqn:E'; [lia|]. by rewrite IH.
Qed.

Lemma normalizeLineBreaks_toCR (s : jsstring) :
  13 ∉ s → JS.normalizeLineBreaks (toCR s) = s.
Proof.
  induction s as [|c s IH]; [done|]. intros Hc.
  apply not_elem_of_cons in Hc as [Hc Hs]. specialize (IH Hs).
  unfold toCR. simpl. fold (toCR s). destruct (c =? 10) eqn:E; simpl.
  - assert (c = 10) as -> by lia. f_equal.
    destruct s as [|d s]; [done|].
    unfold toCR in *. simpl in *. fold (toCR s) in *.
    destruct (d =? 10) eqn:Ed; simpl in *; [done|]. by rewrite Ed.
  - destruct (c =? 13) eqn:E'; [lia|]. by rewrite IH.
Qed.

(** X3: the style of the line endings does not matter: a file written with
    CR LF pairs or with lone CRs parses to the same timeline as the file
    written with line feeds. *)
Theorem parseSRT_line_endings (this : t) (content : jsstring) :
  13 ∉ content →
  parseSRT this (toCRLF content) = parseSRT this content
  ∧ parseSRT this (toCR content) = parseSRT this content.
Proof.
  intros Hc. unfold parseSRT, subtitleBlocks.
  rewrite normalizeLineBreaks_toCRLF, normalizeLineBreaks_toCR by done.
  by rewrite normalizeLineBreaks_keeps.
Qed.

Lemma parseSRT_line_endings_witness :
  parseSRT sampleTimeline (toCRLF (sampleBlock ++ [10; 10] ++ sampleBlock))
  = parseSRT sampleTimeline (sampleBlock ++ [10; 10] ++ sampleBlock)
  ∧ parseSRT sampleTimeline (toCR (sampleBlock ++ [10; 10] ++ sampleBlock))
    = parseSRT sampleTimeline (sampleBlock ++ [10; 10] ++ sampleBlock).
Proof.
  apply parseSRT_line_endings. vm_compute.
  intros H. repeat (apply elem_of_cons in H as [H|H]; [discriminate H|]).
  by apply elem_of_nil in H.
Defined.

Lemma num_add_NaN_r (a : jsnum) : num_add a NaN = NaN.
Proof. by destruct a. Qed.

Lemma num_add_NaN_l (a : jsnum) : num_add NaN a = NaN.
Proof. done. Qed.

(** X4: a time string without a comma, or with fewer than three
    colon-separated fields before its first comma, converts to [NaN]. *)
Theorem timeToMilliseconds_malformed (timeString : jsstring) :
  (44 ∉ timeString → timeToMilliseconds timeString = NaN)
  ∧ (∀ time rest,
       timeString = time ++ 44 :: rest → 44 ∉ time → (colons time < 2)%nat →
       timeToMilliseconds timeString = NaN).
Proof.
  split.
  - intros Hc. unfold timeToMilliseconds.
    change (js ",") with [44].
    rewrite split_no_sep.
    + simpl. apply num_add_NaN_r.
    + apply Forall_forall. by intros x Hx ->.
  - intros time rest -> Hc Hn. unfold timeToMilliseconds.
    change (js ",") with [44]. change (js ":") with [58].
    rewrite split_at_sep by (apply Forall_forall; by intros x Hx ->).
    cbn [lookup list_lookup default from_option]. unfold id.
    pose proof (split_single_length 58 time) as Hlen.
    unfold colons in Hn.
    destruct (JS.split time [58]) as [|f1 [|f2 [|f3 fs]]]; simpl in Hlen;
      [by simpl; rewrite ?num_add_NaN_r; simpl .. | lia].
Qed.

Lemma timeToMilliseconds_malformed_witness :
  timeToMilliseconds (js "00:00:01.000") = NaN
  ∧ timeToMilliseconds (js "00:01,000") = NaN.
Proof.
  split.
  - apply (proj1 (timeToMilliseconds_malformed (js "00:00:01.000"))).
    vm_compute. intros H.
    repeat (apply elem_of_cons in H as [H|H]; [discriminate H|]).
    by apply elem_of_nil in H.
  - apply (proj2 (timeToMilliseconds_malformed (js "00:01,000"))
             (js "00:01") (js "000")); [reflexivity | | vm_compute; lia].
    vm_compute. intros H.
    repeat (apply elem_of_cons in H as [H|H]; [discriminate H|]).
    by apply elem_of_nil in H.
Defined.

(** X22: the first line of a block, the sequence number, is not read: two
    blocks that differ in their first line only give the same entry, or are
    both skipped. *)
Theorem blockEntry_ignores_index (index index' rest : jsstring) :
  10 ∉ index → 10 ∉ index' →
  blockEntry (index ++ 10 :: rest) = blockEntry (index' ++ 10 :: rest).
Proof.
  intros Hi Hi'. unfold blockEntry.
  rewrite !split_at_sep by (apply Forall_forall; by intros x Hx ->).
  reflexivity.
Qed.

Lemma blockEntry_ignores_index_witness :
  blockEntry (js "1" ++ 10 :: js "00:00:01,000 --> 00:00:02,500" ++ 10 :: js "Hello")
  = blockEntry (js "no number" ++ 10
                  :: js "00:00:01,000 --> 00:00:02,500" ++ 10 :: js "Hello").
Proof.
  apply blockEntry_ignores_index; vm_compute; intros H;
    repeat (apply elem_of_cons in H as [H|H]; [discriminate H|]);
    by apply elem_of_nil in H.
Defined.

End TimelineMore.

(** ** Reasoning about lookups step by step *)

Section Logic.
Import Net.

Lemma post_ret {A} (a : A) (st : World) (P : A → World → Prop) (Q : World → Prop) :
  P a st → post (ret a) st P Q.
Proof. done. Qed.

Lemma post_throw {A} (st : World) (P : A → World → Prop) (Q : World → Prop) :
  Q st → post (@throw A) st P Q.
Proof. done. Qed.

Lemma post_bind {A B} (m : M A) (k : A → M B) (st : World)
    (P : B → World → Prop) (Q : World → Prop) :
  post m st (λ a st', post (k a) st' P Q) Q → post (bind m k) st P Q.
Proof. unfold post, bind. by destruct (m st) as [[a|] st']. Qed.

Lemma post_try {A} (m h : M A) (st : World)
    (P : A → World → Prop) (Q : World → Prop) :
  post m st P (λ st', post h st' P Q) → post (try_catch m h) st P Q.
Proof. unfold post, try_catch. by destruct (m st) as [[a|] st']. Qed.

Lemma post_mono {A} (m : M A) (st : World)
    (P P' : A → World → Prop) (Q Q' : World → Prop) :
  post m st P Q →
  (∀ a st', P a st' → P' a st') → (∀ st', Q st' → Q' st') →
  post m st P' Q'.
Proof. unfold post. destruct (m st) as [[a|] st']; auto. Qed.

Lemma post_fetch (service : Service) (r : Request) (st : World)
    (P : bool * Body → World → Prop) (Q : World → Prop) :
  (∀ ok body, P (ok, body) (logged st r)) → Q (logged st r) →
  post (fetch service r) st P Q.
Proof.
  intros HP HQ. unfold post, fetch.
  destruct (service _) as [|ok body]; [apply HQ | apply HP].
Qed.

Lemma post_json (b : Body) (st : World)
    (P : option (list WordData) → World → Prop) (Q : World → Prop) :
  (∀ ms, P ms st) → Q st → post (json b) st P Q.
Proof. intros HP HQ. destruct b; [apply HQ | apply HP]. Qed.

Lemma post_url (e : Endpoint) (w : jsstring) (st : World)
    (P : Request → World → Prop) (Q : World → Prop) :
  (wellFormed w = true → P (request e w) st) →
  (wellFormed w = false → Q st) →
  post (url e w) st P Q.
Proof.
  intros HP HQ. unfold post, url.
  destruct (wellFormed w); [by apply HP | by apply HQ].
Qed.

Lemma post_setMeaning (wordObj : WordObj) (s : jsstring) (st : World)
    (P : WordObj → World → Prop) (Q : World → Prop) :
  is_Some (data wordObj) → P (withMeaning wordObj s) st →
  post (setMeaning wordObj s) st P Q.
Proof.
  intros [d Hd] HP. unfold post, setMeaning. rewrite Hd.
  unfold withMeaning in HP. by rewrite Hd in HP.
Qed.

Lemma post_getMeaning (wordObj : WordObj) (st : World)
    (P : option jsstring → World → Prop) (Q : World → Prop) :
  is_Some (data wordObj) → P (gloss wordObj) st →
  post (getMeaning wordObj) st P Q.
Proof.
  intros [d Hd] HP. unfold post, getMeaning. rewrite Hd.
  unfold gloss in HP. by rewrite Hd in HP.
Qed.

(** A computation that cannot end in a throw returns. *)
Lemma post_returns {A} (m : M A) (st : World) (P : A → World → Prop) :
  post m st P (λ _, False) → ∃ a st', m st = (Returned a, st') ∧ P a st'.
Proof.
  unfold post. destruct (m st) as [[a|] st']; [|done]. intros HP. by exists a, st'.
Qed.

Lemma post_of_run {A} (m : M A) (st st' : World) (a : A)
    (P : A → World → Prop) (Q : World → Prop) :
  m st = (Returned a, st') → P a st' → post m st P Q.
Proof. intros Hm HP. unfold post. by rewrite Hm. Qed.

(** *** Sessions that continue a session *)

Lemma grows_refl (allowed : Request → Prop) (st : World) : grows allowed st st.
Proof. split; [done|]. exists []. by rewrite app_nil_r. Qed.

Lemma grows_trans (allowed : Request → Prop) (st1 st2 st3 : World) :
  grows allowed st1 st2 → grows allowed st2 st3 → grows allowed st1 st3.
Proof.
  intros (Hc1 & n1 & Hr1 & Ha1) (Hc2 & n2 & Hr2 & Ha2). split; [congruence|].
  exists (n1 ++ n2). split; [by rewrite Hr2, Hr1, app_assoc | by apply Forall_app].
Qed.

Lemma grows_logged (allowed : Request → Prop) (st st' : World) (r : Request) :
  grows allowed st st' → allowed r → grows allowed st (logged st' r).
Proof.
  intros (Hc & n & Hr & Ha) Hal. split; [done|].
  exists (n ++ [r]). simpl. split; [by rewrite Hr, app_assoc|].
  apply Forall_app. split; [done | by constructor].
Qed.

Lemma grows_weaken (allowed allowed' : Request → Prop) (st st' : World) :
  (∀ r, allowed r → allowed' r) → grows allowed st st' → grows allowed' st st'.
Proof.
  intros Himp (Hc & n & Hr & Ha). split; [done|]. exists n. split; [done|].
  by eapply Forall_impl.
Qed.

End Logic.

(** One step of a lookup: the rule for the computation at the head. *)
Ltac post_step :=
  lazymatch goal with
  | |- post (Net.bind _ _) _ _ _ => apply post_bind
  | |- post (Net.try_catch _ _) _ _ _ => apply post_try
  | |- post (Net.ret _) _ _ _ => apply post_ret
  | |- post Net.throw _ _ _ => apply post_throw
  | |- post (Net.fetch _ _) _ _ _ => apply post_fetch; [intros ? ?|]
  | |- post (Net.json _) _ _ _ => apply post_json; [intros ?|]
  | |- post (Net.url _ _) _ _ _ => apply post_url; intros ?
  | |- post (Net.getMeaning _) _ _ _ => apply post_getMeaning; [try done|]
  | |- post (Net.setMeaning _ _) _ _ _ => apply post_setMeaning; [try done|]
  | |- post (if ?b then _ else _) _ _ _ => destruct b eqn:?
  | |- post (match ?x with _ => _ end) _ _ _ => destruct x eqn:?
  end; cbn [fst snd].

(** ** What a resolution leaves in a word *)

Section ResolutionMore.
Import Net.
Context (service : Service).

Lemma find_holds {A} (p : A → bool) (arr : list A) (x : A) :
  JS.find p arr = Some x → p x = true.
Proof. intros H. by apply find_Some in H as (_ & _ & ? & _). Qed.

Lemma hasMeaning_visible (m : WordData) :
  hasMeaning m = true → JS.isBlank (meaningOf m) = false.
Proof.
  unfold hasMeaning, meaningOf. intros [_ H]%andb_true_iff.
  by apply negb_true_iff in H.
Qed.

Lemma truthy_nonempty (o : option jsstring) :
  truthy o = true → ∃ s, o = Some s ∧ s ≠ [].
Proof. destruct o as [[|c s]|]; [done| |done]. intros _. by eexists. Qed.

Lemma grows_request (w : jsstring) (st0 st : World) (e : Endpoint) :
  grows (asksFor w) st0 st → grows (asksFor w) st0 (logged st (request e w)).
Proof. intros Hg. by apply grows_logged. Qed.

Lemma withMeaning_word (wordObj : WordObj) (s : jsstring) :
  word (withMeaning wordObj s) = word wordObj.
Proof. done. Qed.

Lemma sameBut_word (wordObj wordObj' : WordObj) :
  sameBut wordObj wordObj' → word wordObj' = word wordObj.
Proof. by intros [-> | [s ->]]. Qed.

Lemma sameBut_place (wordObj wordObj' : WordObj) :
  sameBut wordObj wordObj' →
  position wordObj' = position wordObj ∧ length_ wordObj' = length_ wordObj.
Proof. by intros [-> | [s ->]]. Qed.

Lemma sameBut_data (wordObj wordObj' : WordObj) :
  sameBut wordObj wordObj' → is_Some (data wordObj) → is_Some (data wordObj').
Proof. intros [-> | [s ->]] Hd; [done | by apply withMeaning_data]. Qed.

(** *** The overlay player *)

Section Overlay.
Context (w : WordObj) (st0 : World).

Lemma overlayDone_settled (w1 : WordObj) (m : WordData) (st : World) :
  is_Some (data w1) → sameBut w w1 → hasMeaning m = true →
  grows (asksFor (word w)) st0 st →
  (overlayDone w st0) (withMeaning w1 (meaningOf m)) st.
Proof.
  intros Hd Hs Hm Hg. split; [by apply sameBut_withMeaning|]. split; [|done].
  exists (meaningOf m). split; [by apply withMeaning_gloss|].
  by apply hasMeaning_visible.
Qed.

Lemma overlayDone_error (st : World) :
  is_Some (data w) → grows (asksFor (word w)) st0 st →
  (overlayDone w st0) (withMeaning w errorFetchingMeaning) st.
Proof.
  intros Hd Hg. split; [right; by eexists|]. split; [|done].
  exists errorFetchingMeaning. split; [by apply withMeaning_gloss | done].
Qed.

Lemma overlay_finish (w1 : WordObj) (st : World) (Q : World → Prop) :
  is_Some (data w1) → sameBut w w1 → grows (asksFor (word w)) st0 st →
  post (Overlay.finish w1) st (overlayDone w st0) Q.
Proof.
  intros Hd Hs Hg. unfold Overlay.finish. repeat post_step.
  - split; [by apply sameBut_withMeaning|]. split; [|done].
    exists noDefinitionFound. split; [by apply withMeaning_gloss | done].
  - split; [done|]. split; [|done].
    match goal with H : _ || _ = false |- _ =>
      apply orb_false_iff in H as [Ht Hb] end.
    apply negb_false_iff, truthy_nonempty in Ht as (s & Hgl & _).
    exists s. split; [done|]. by rewrite Hgl in Hb.
Qed.

Lemma overlay_partialSearch (w1 : WordObj) (st : World) :
  is_Some (data w1) → sameBut w w1 → grows (asksFor (word w)) st0 st →
  post (Overlay.partialSearch service w1) st (overlayDone w st0) (onlyAsked w st0).
Proof.
  intros Hd Hs Hg. pose proof (sameBut_word _ _ Hs) as Hw.
  assert (grows (asksFor (word w)) st0
                (logged st (request SearchPartial (word w1)))) as Hg'
    by (rewrite Hw; by apply grows_request).
  unfold Overlay.partialSearch. repeat post_step;
    try (by apply overlay_finish); try done.
  - apply overlayDone_settled; try done.
    match goal with H : JS.find _ _ = Some _ |- _ =>
      apply find_holds in H as [_ ?]%andb_true_iff end. done.
  - apply overlayDone_settled; try done.
    match goal with H : JS.find hasMeaning _ = Some _ |- _ =>
      by apply find_holds in H end.
Qed.

Lemma overlay_directSearch (w1 : WordObj) (st : World) :
  is_Some (data w1) → sameBut w w1 → grows (asksFor (word w)) st0 st →
  post (Overlay.directSearch service w1) st (overlayDone w st0) (onlyAsked w st0).
Proof.
  intros Hd Hs Hg. pose proof (sameBut_word _ _ Hs) as Hw.
  assert (grows (asksFor (word w)) st0
                (logged st (request SearchDirect (word w1)))) as Hg'
    by (rewrite Hw; by apply grows_request).
  unfold Overlay.directSearch. repeat post_step;
    try (by apply overlay_partialSearch); try done.
  apply overlayDone_settled; try done.
  match goal with H : JS.find hasMeaning _ = Some _ |- _ =>
    by apply find_holds in H end.
Qed.

Lemma overlay_inflectedSearch (st : World) :
  is_Some (data w) → grows (asksFor (word w)) st0 st →
  post (Overlay.inflectedSearch service w) st (overlayDone w st0) (onlyAsked w st0).
Proof.
  intros Hd Hg.
  assert (grows (asksFor (word w)) st0
                (logged st (request SearchInflected (word w)))) as Hg'
    by (by apply grows_request).
  assert (sameBut w w) as Hs by (by left).
  unfold Overlay.inflectedSearch. repeat post_step;
    try (by apply overlay_directSearch); try done.
  - apply overlayDone_settled; try done.
    match goal with H : JS.find _ _ = Some _ |- _ =>
      apply find_holds in H as [_ ?]%andb_true_iff end. done.
  - apply overlayDone_settled; try done.
    match goal with H : JS.find hasMeaning _ = Some _ |- _ =>
      by apply find_holds in H end.
  - apply overlay_directSearch; [by apply withMeaning_data | | done].
    right. by eexists.
Qed.

Lemma overlay_lookup (st : World) :
  is_Some (data w) → grows (asksFor (word w)) st0 st →
  post (Overlay.lookupWholeWord service w) st (overlayDone w st0) (λ _, False).
Proof.
  intros Hd Hg. unfold Overlay.lookupWholeWord. post_step.
  eapply post_mono; [by apply overlay_inflectedSearch | done |].
  intros st' Hg'. post_step. by apply overlayDone_error.
Qed.

End Overlay.

(** X5: a resolution of the overlay player returns, and the word it returns
    differs from the one it was given in its meaning at most; the meaning is
    never blank afterwards; every request of the resolution asks for the
    word itself, and the cache is not touched. *)
Theorem overlay_lookup_leaves_meaning (wordObj : WordObj) (st : World) :
  is_Some (data wordObj) →
  ∃ wordObj' st',
    Overlay.lookupWholeWord service wordObj st = (Returned wordObj', st')
    ∧ sameBut wordObj wordObj'
    ∧ hasVisibleGloss wordObj'
    ∧ grows (asksFor (word wordObj)) st st'.
Proof.
  intros Hd. apply post_returns.
  apply overlay_lookup; [done | apply grows_refl].
Qed.

Lemma asksFor_among (ws : list WordObj) (w : WordObj) (r : Request) :
  w ∈ ws → asksFor (word w) r → asksAmong (map word ws) r.
Proof.
  unfold asksFor, asksAmong. intros Hin ->.
  apply list_elem_of_fmap. by exists w.
Qed.

Lemma resolveAll_post (ws0 : list WordObj) (st0 : World) :
  ∀ ws st,
    Forall (λ w, is_Some (data w)) ws → (∀ w, w ∈ ws → w ∈ ws0) →
    grows (asksAmong (map word ws0)) st0 st →
    post (Overlay.resolveAll service ws) st
         (λ out st',
            Forall2 (λ w w', sameBut w w' ∧ hasVisibleGloss w') ws out
            ∧ grows (asksAmong (map word ws0)) st0 st')
         (λ _, False).
Proof.
  induction ws as [|w ws IH]; intros st Hd Hin Hg; simpl.
  - post_step. split; [constructor | done].
  - inversion Hd as [|? ? Hw Hws]; subst. post_step. post_step.
    eapply post_mono;
      [apply (overlay_lookup w st st); [done | apply grows_refl] | | done].
    intros w' st' (Hs & Hv & Hg').
    assert (grows (asksAmong (map word ws0)) st0 st') as Hg1.
    { eapply grows_trans; [exact Hg|]. eapply grows_weaken; [|exact Hg'].
      intros r. apply asksFor_among. apply Hin. by left. }
    post_step. eapply post_mono; [apply IH; [done | | exact Hg1] | | done].
    + intros x Hx. apply Hin. by right.
    + intros out st'' [HF Hg'']. post_step. split; [by constructor | done].
Qed.

(** X6: the loop that resolves the words returns for every service; the
    list it returns has the words of the list it was given, in the same
    order, each with the same position, length and reading, and with a
    meaning that is not blank; the requests ask for these words only. *)
Theorem resolveAll_changes_meanings_only (kanjiWords : list WordObj) (st : World) :
  Forall (λ w, is_Some (data w)) kanjiWords →
  ∃ out st',
    Overlay.resolveAll service kanjiWords st = (Returned out, st')
    ∧ Forall2 (λ w w', sameBut w w' ∧ hasVisibleGloss w') kanjiWords out
    ∧ map (λ w, (word w, position w, length_ w, readingOf w)) out
      = map (λ w, (word w, position w, length_ w, readingOf w)) kanjiWords
    ∧ grows (asksAmong (map word kanjiWords)) st st'.
Proof.
  intros Hd.
  destruct (post_returns _ _ _
              (resolveAll_post kanjiWords st kanjiWords st Hd (λ _ H, H)
                               (grows_refl _ _)))
    as (out & st' & Hrun & HF & Hg).
  exists out, st'. split; [done|]. split; [done|]. split; [|done].
  clear Hrun Hg Hd. induction HF as [|w w' ws out [Hs _] _ IH]; [done|].
  simpl. rewrite IH. f_equal.
  rewrite (sameBut_word _ _ Hs), (sameBut_reading _ _ Hs).
  by destruct (sameBut_place _ _ Hs) as [-> ->].
Qed.

(** *** The tree-merge player *)

Section TreeMerge.
Context (w : WordObj) (st0 : World).
Lemma treeMergeDone_settled (w1 : WordObj) (m : WordData) (st : World) :
  is_Some (data w1) → sameBut w w1 → truthy (meaning m) = true →
  grows (asksFor (word w)) st0 st →
  (treeMergeDone w st0) (withMeaning w1 (meaningOf m)) st.
Proof.
  intros Hd Hs Hm Hg. split; [by apply sameBut_withMeaning|]. split; [|done].
  exists (meaningOf m). split; [by apply withMeaning_gloss|].
  apply truthy_nonempty in Hm as (s & Hm & Hs'). unfold meaningOf. by rewrite Hm.
Qed.

Lemma treemerge_finish (st : World) (Q : World → Prop) :
  is_Some (data w) → grows (asksFor (word w)) st0 st →
  post (TreeMerge.finish w) st (treeMergeDone w st0) Q.
Proof.
  intros Hd Hg. unfold TreeMerge.finish. repeat post_step.
  - split; [right; by eexists|]. split; [|done].
    exists noDefinitionFound. split; [by apply withMeaning_gloss | done].
  - split; [by left|]. split; [|done].
    match goal with H : negb _ = false |- _ =>
      by apply negb_false_iff, truthy_nonempty in H end.
Qed.

Lemma treemerge_partialSearch (st : World) :
  is_Some (data w) → grows (asksFor (word w)) st0 st →
  post (TreeMerge.partialSearch service w) st (treeMergeDone w st0) (onlyAsked w st0).
Proof.
  intros Hd Hg.
  assert (grows (asksFor (word w)) st0
                (logged st (request SearchPartial (word w)))) as Hg'
    by (by apply grows_request).
  unfold TreeMerge.partialSearch. repeat post_step;
    try (by apply treemerge_finish); try done.
  apply treeMergeDone_settled; try done. by left.
Qed.

Lemma treemerge_directSearch (st : World) :
  is_Some (data w) → grows (asksFor (word w)) st0 st →
  post (TreeMerge.directSearch service w) st (treeMergeDone w st0) (onlyAsked w st0).
Proof.
  intros Hd Hg.
  assert (grows (asksFor (word w)) st0
                (logged st (request SearchDirect (word w)))) as Hg'
    by (by apply grows_request).
  unfold TreeMerge.directSearch. repeat post_step;
    try (by apply treemerge_partialSearch); try done.
  apply treeMergeDone_settled; try done. by left.
Qed.

Lemma treemerge_inflectedSearch (st : World) :
  is_Some (data w) → grows (asksFor (word w)) st0 st →
  post (TreeMerge.inflectedSearch service w) st (treeMergeDone w st0) (onlyAsked w st0).
Proof.
  intros Hd Hg.
  assert (grows (asksFor (word w)) st0
                (logged st (request SearchInflected (word w)))) as Hg'
    by (by apply grows_request).
  unfold TreeMerge.inflectedSearch. repeat post_step;
    try (by apply treemerge_directSearch); try done;
    apply treeMergeDone_settled; try done; by left.
Qed.

Lemma treemerge_lookup (st : World) :
  is_Some (data w) → grows (asksFor (word w)) st0 st →
  post (TreeMerge.lookupWholeWord service w) st (treeMergeDone w st0) (λ _, False).
Proof.
  intros Hd Hg. unfold TreeMerge.lookupWholeWord. post_step.
  eapply post_mono; [by apply treemerge_inflectedSearch | done |].
  intros st' Hg'. post_step. split; [right; by eexists|]. split; [|done].
  exists errorFetchingMeaning. split; [by apply withMeaning_gloss | done].
Qed.

End TreeMerge.

Lemma buildMeaningFromKanji_run (wordObj wordObj' : WordObj) (st st' : World) :
  is_Some (data wordObj) → sameBut wordObj wordObj' → hasGloss wordObj' →
  TreeMerge.lookupWholeWord service wordObj st = (Returned wordObj', st') →
  TreeMerge.buildMeaningFromKanji service wordObj st = (Returned wordObj', st').
Proof.
  intros Hd Hs (s & Hgl & Hne) Hrun.
  unfold TreeMerge.buildMeaningFromKanji, bind. rewrite Hrun.
  destruct (sameBut_data _ _ Hs Hd) as [d' Hd'].
  unfold getMeaning. rewrite Hd'. unfold ret at 1. cbv beta iota.
  unfold gloss in Hgl. rewrite Hd' in Hgl. rewrite Hgl.
  by destruct s.
Qed.

(** X7: a resolution of the tree-merge player returns with a meaning that
    is not empty, so the default text of [buildMeaningFromKanji] is never
    used: [buildMeaningFromKanji] ends as [lookupWholeWord] does, with the
    same word and the same session. *)
Theorem buildMeaningFromKanji_is_lookupWholeWord (wordObj : WordObj) (st : World) :
  is_Some (data wordObj) →
  ∃ wordObj' st',
    TreeMerge.lookupWholeWord service wordObj st = (Returned wordObj', st')
    ∧ TreeMerge.buildMeaningFromKanji service wordObj st = (Returned wordObj', st')
    ∧ sameBut wordObj wordObj'
    ∧ hasGloss wordObj'
    ∧ grows (asksFor (word wordObj)) st st'.
Proof.
  intros Hd.
  destruct (post_returns _ _ _ (treemerge_lookup wordObj st st Hd (grows_refl _ _)))
    as (w' & st' & Hrun & Hs & Hg & Hgr).
  exists w', st'. split; [done|]. split; [by eapply buildMeaningFromKanji_run|].
  done.
Qed.

End ResolutionMore.

Lemma overlay_lookup_leaves_meaning_witness :
  ∃ wordObj' st',
    Overlay.lookupWholeWord blankService nekoWord emptyWorld
    = (Net.Returned wordObj', st')
    ∧ sameBut nekoWord wordObj'
    ∧ hasVisibleGloss wordObj'
    ∧ grows (asksFor (word nekoWord)) emptyWorld st'.
Proof. apply overlay_lookup_leaves_meaning. by eexists. Defined.

Lemma resolveAll_changes_meanings_only_witness :
  ∃ out st',
    Overlay.resolveAll rejectFirstService
      (Overlay.alignWords s_tokyo_ni_iku (Overlay.segmentWords (Some sampleTokens)))
      emptyWorld
    = (Net.Returned out, st')
    ∧ Forall2 (λ w w', sameBut w w' ∧ hasVisibleGloss w')
              (Overlay.alignWords s_tokyo_ni_iku
                 (Overlay.segmentWords (Some sampleTokens))) out
    ∧ map (λ w, (word w, position w, length_ w, readingOf w)) out
      = map (λ w, (word w, position w, length_ w, readingOf w))
            (Overlay.alignWords s_tokyo_ni_iku
               (Overlay.segmentWords (Some sampleTokens)))
    ∧ grows (asksAmong (map word
                          (Overlay.alignWords s_tokyo_ni_iku
                             (Overlay.segmentWords (Some sampleTokens)))))
            emptyWorld st'.
Proof.
  apply resolveAll_changes_meanings_only.
  repeat constructor; by eexists.
Defined.

Lemma buildMeaningFromKanji_is_lookupWholeWord_witness :
  ∃ wordObj' st',
    TreeMerge.lookupWholeWord dupService nekoWord emptyWorld
    = (Net.Returned wordObj', st')
    ∧ TreeMerge.buildMeaningFromKanji dupService nekoWord emptyWorld
      = (Net.Returned wordObj', st')
    ∧ sameBut nekoWord wordObj'
    ∧ hasGloss wordObj'
    ∧ grows (asksFor (word nekoWord)) emptyWorld st'.
Proof. apply buildMeaningFromKanji_is_lookupWholeWord. by eexists. Defined.

(** ** The word search of the dictionary object *)

Section KanjiWords.
Import Net KanjiDictionary.
Context (service : Service) (utilHasKanji : option (jsstring → bool)).

Lemma isKanjiUnit_wellFormed (c : Z) : isKanjiUnit c = true → wellFormed [c] = true.
Proof.
  unfold isKanjiUnit, wellFormed. intros H.
  destruct (0xD800 <=? c) eqn:E1, (c <=? 0xDBFF) eqn:E2,
           (0xDC00 <=? c) eqn:E3, (c <=? 0xDFFF) eqn:E4; simpl; try done; lia.
Qed.

Lemma kanjiCharsOf_elem (w k : jsstring) :
  k ∈ kanjiCharsOf w ↔ ∃ c, k = [c] ∧ c ∈ w ∧ isKanjiUnit c = true.
Proof.
  unfold kanjiCharsOf. rewrite list_elem_of_In, in_flat_map. split.
  - intros (c & Hc & Hk). apply list_elem_of_In in Hc.
    unfold testKanji in Hk. simpl in Hk. rewrite orb_false_r in Hk.
    destruct (isKanjiUnit c) eqn:E; [|by destruct Hk].
    destruct Hk as [<-|[]]. by exists c.
  - intros (c & -> & Hc & Hk). exists c. split; [by apply list_elem_of_In|].
    unfold testKanji. simpl. rewrite Hk. by left.
Qed.

Lemma kanjiCharsOf_nil (w : jsstring) :
  kanjiCharsOf w = [] ↔ testKanji w = false.
Proof.
  unfold kanjiCharsOf, testKanji. induction w as [|c w IH]; [done|]. simpl.
  rewrite orb_false_r. destruct (isKanjiUnit c); simpl; [split; done | done].
Qed.

Lemma join_nonempty (sep : jsstring) (parts : list jsstring) :
  parts ≠ [] → Forall (λ p, p ≠ []) parts → JS.join sep parts ≠ [].
Proof.
  destruct parts as [|p parts]; [done|]. intros _ Hp.
  inversion Hp as [|? ? Hne _]; subst. destruct parts; simpl; [done|].
  by destruct p.
Qed.

Lemma kanjiTry_post (u : Request) (kanji : jsstring)
    (acc : list jsstring * list jsstring) (st : World) :
  Forall (λ p, p ≠ []) (fst acc) →
  post (kanjiTry service u kanji acc) st
       (λ r st', Forall (λ p, p ≠ []) (fst (snd r)) ∧ st' = logged st u)
       (λ _, False).
Proof.
  intros Hacc. unfold kanjiTry. repeat post_step; try done.
  split; [|done]. unfold noteKanji. cbn [fst].
  apply Forall_app. split; [done|]. constructor; [|done].
  intros H. apply app_eq_nil in H as [_ H]. by apply app_eq_nil in H as [H _].
Qed.

Lemma kanjiQuery_logged (w : jsstring) (st0 st : World) (e : Endpoint) (c : Z) :
  e ≠ SearchInflected → c ∈ w → isKanjiUnit c = true →
  grows (kanjiQuery w) st0 st →
  grows (kanjiQuery w) st0 (logged st (request e [c])).
Proof.
  intros He Hc Hk Hg. apply grows_logged; [done|].
  split; [done|]. by exists c.
Qed.

Lemma lookupKanjiChars_post (w : jsstring) (st0 : World) :
  ∀ kanjiChars acc st,
    Forall (λ k, ∃ c, k = [c] ∧ c ∈ w ∧ isKanjiUnit c = true) kanjiChars →
    Forall (λ p, p ≠ []) (fst acc) →
    grows (kanjiQuery w) st0 st →
    post (lookupKanjiChars service kanjiChars acc) st
         (λ acc' st', Forall (λ p, p ≠ []) (fst acc')
                      ∧ grows (kanjiQuery w) st0 st')
         (λ _, False).
Proof.
  induction kanjiChars as [|kanji rest IH]; intros acc st Hk Hacc Hg; simpl.
  - post_step. done.
  - inversion Hk as [|? ? (c & -> & Hc & Hku) Hrest]; subst.
    pose proof (isKanjiUnit_wellFormed c Hku) as Hwf.
    post_step. post_step; [|congruence].
    post_step. eapply post_mono; [by apply kanjiTry_post | | done].
    intros [found acc1] st1 [Hacc1 ->]. cbn [fst snd] in *.
    assert (grows (kanjiQuery w) st0 (logged st (request SearchDirect [c]))) as Hg1
      by (by apply kanjiQuery_logged).
    post_step. destruct found; cbn [negb].
    + post_step. by apply IH.
    + post_step. post_step; [|congruence].
      post_step. eapply post_mono; [by apply kanjiTry_post | | done].
      intros [found2 acc2] st2 [Hacc2 ->]. cbn [fst snd] in *.
      post_step. apply IH; [done | done |].
      by apply kanjiQuery_logged.
Qed.

Lemma lookupIndividualKanji_post (w text : jsstring) (results : list WordObj)
    (st : World) :
  post (lookupIndividualKanji service w text results) st
       (λ results' st',
          (results' = results
           ∨ ∃ e, results' = results ++ [e] ∧ combinedEntry w text e)
          ∧ grows (kanjiQuery w) st st')
       (λ _, False).
Proof.
  unfold lookupIndividualKanji.
  post_step; [post_step; split; [by left | apply grows_refl]|].
  post_step. eapply post_mono;
    [apply (lookupKanjiChars_post w st); [|done|apply grows_refl] | | done].
  { apply Forall_forall. intros k Hk. by apply kanjiCharsOf_elem. }
  intros [kanjiMeanings kanjiReadings] st' [Hne Hg]. cbn [fst snd] in *.
  repeat post_step; (split; [|done]); [|by left].
  right. eexists. split; [done|].
  split; [done|]. split; [done|]. split; [done|]. split.
  - eexists. split; [done|]. apply join_nonempty; [|done].
    match goal with H : (0 <? length _)%nat = true |- _ =>
      apply Nat.ltb_lt in H end.
    destruct kanjiMeanings; [simpl in *; lia | done].
  - eexists. split; [done|]. split; [done | by eexists].
Qed.

(** X8: [lookupIndividualKanji] returns for every service. It leaves
    [results] as it is or appends one entry for the word, with the position
    of the word in the text ([-1] when the word is not in the text) and a
    meaning that is not empty; its requests are direct and partial searches
    for single kanji of the word, and for a word without kanji it issues no
    request and leaves [results] as it is. *)
Theorem lookupIndividualKanji_appends_at_most_one (w text : jsstring)
    (results : list WordObj) (st : World) :
  (∃ results' st',
     lookupIndividualKanji service w text results st = (Returned results', st')
     ∧ (results' = results ∨ ∃ e, results' = results ++ [e] ∧ combinedEntry w text e)
     ∧ grows (kanjiQuery w) st st')
  ∧ (testKanji w = false →
     lookupIndividualKanji service w text results st = (Returned results, st)).
Proof.
  split.
  - apply post_returns, lookupIndividualKanji_post.
  - intros Hk. apply kanjiCharsOf_nil in Hk.
    unfold lookupIndividualKanji. by rewrite Hk.
Qed.

(** *** The loops of [findKanjiWords] *)

Lemma indexOf_range (text w : jsstring) :
  -1 ≤ JS.indexOf text w 0 ∧ JS.indexOf text w 0 ≤ JS.len text.
Proof.
  pose proof (len_nonneg text) as Ht. pose proof (len_nonneg w) as Hw.
  destruct (indexOf_spec text w 0) as [[-> _]|Hf]; [lia.. | |].
  - lia.
  - apply firstFrom_bounds in Hf. lia.
Qed.

Lemma indexOf_unit_found (text : jsstring) (c : Z) :
  c ∈ text → 0 ≤ JS.indexOf text [c] 0.
Proof.
  intros Hc. pose proof (len_nonneg text) as Ht.
  destruct (indexOf_spec text [c] 0) as [[_ Hn]|Hf]; [lia.. | |].
  - exfalso. apply list_elem_of_lookup in Hc as [i Hi].
    apply (Hn (Z.of_nat i)); [lia|].
    pose proof (lookup_lt_Some _ _ _ Hi) as Hlt.
    apply startsWith_occurs. split; [|lia].
    rewrite (drop_S _ _ _ Hi). simpl. by rewrite Z.eqb_refl.
  - by apply firstFrom_bounds in Hf as [? _].
Qed.

Lemma kanjiQuery_notInflected (w : jsstring) (st st' : World) :
  grows (kanjiQuery w) st st' → grows notInflected st st'.
Proof. apply grows_weaken. by intros r [? _]. Qed.

Lemma combinedEntry_found (w text : jsstring) (expectedWords : list jsstring)
    (e : WordObj) :
  w ∈ expectedWords → combinedEntry w text e → foundEntry text expectedWords e.
Proof.
  intros Hin (Hw & Hp & Hl & _ & d & Hd & _). split; [by eexists|].
  split; [by rewrite Hl, Hw|]. split; [rewrite Hp; apply indexOf_range|].
  left. by rewrite Hw.
Qed.

Section Loops.
Context (text : jsstring) (expectedWords : list jsstring) (st0 : World).

Lemma lookupIndividualKanji_found (w : jsstring) (results : list WordObj)
    (st : World) (Q : World → Prop) :
  w ∈ expectedWords → Forall (foundEntry text expectedWords) results →
  grows notInflected st0 st →
  post (lookupIndividualKanji service w text results) st
       (foundAll text expectedWords st0) Q.
Proof.
  intros Hin Hres Hg.
  eapply post_mono; [apply lookupIndividualKanji_post | | done].
  intros results' st' [Hr Hg']. split.
  - destruct Hr as [-> | (e & -> & He)]; [done|].
    apply Forall_app. split; [done|]. constructor; [|done].
    by eapply combinedEntry_found.
  - eapply grows_trans; [exact Hg|]. by eapply kanjiQuery_notInflected.
Qed.

Lemma expectedStep_post (w : jsstring) (results : list WordObj) (st : World) :
  w ∈ expectedWords → Forall (foundEntry text expectedWords) results →
  grows notInflected st0 st →
  post (expectedStep service utilHasKanji text results w) st
       (foundAll text expectedWords st0) (notInflectedFrom st0).
Proof.
  intros Hin Hres Hg. unfold expectedStep.
  assert (grows notInflected st0 (logged st (request SearchDirect w))) as Hg'
    by (by apply grows_logged).
  repeat post_step;
    try (by apply lookupIndividualKanji_found); try done.
  split; [|done]. apply Forall_app. split; [done|]. constructor; [|done].
  split; [by eexists|]. split; [done|]. cbn [position word]. split; [|by left].
  pose proof (indexOf_range text w). pose proof (len_nonneg text).
  destruct (JS.indexOf text w 0 =? -1) eqn:E; lia.
Qed.

Lemma expectedLoop_post :
  ∀ ws results st,
    (∀ w, w ∈ ws → w ∈ expectedWords) →
    Forall (foundEntry text expectedWords) results →
    grows notInflected st0 st →
    post (expectedLoop service utilHasKanji text ws results) st
         (foundAll text expectedWords st0) (notInflectedFrom st0).
Proof.
  induction ws as [|w ws IH]; intros results st Hin Hres Hg; simpl.
  - post_step. done.
  - post_step. eapply post_mono;
      [apply expectedStep_post; [apply Hin; by left | done | done] | | done].
    intros results' st' [Hres' Hg']. apply IH; [|done..].
    intros x Hx. apply Hin. by right.
Qed.

Lemma standaloneKanji_elem (k : jsstring) :
  k ∈ standaloneKanji utilHasKanji text → ∃ c, c ∈ text ∧ k = [c].
Proof.
  unfold standaloneKanji.
  enough (∀ s acc,
            (∀ c, c ∈ s → c ∈ text) →
            (∀ k, k ∈ acc → ∃ c, c ∈ text ∧ k = [c]) →
            ∀ k, k ∈ foldl (λ kanjiChars c,
                              if hasKanji utilHasKanji [c]
                                 && negb (bool_decide ([c] ∈ kanjiChars))
                              then kanjiChars ++ [[c]] else kanjiChars) acc s →
                 ∃ c, c ∈ text ∧ k = [c]) as H.
  { apply (H text []); [done|]. by intros ? ?%elem_of_nil. }
  induction s as [|c s IH]; intros acc Hs Hacc k' Hk; simpl in Hk; [by apply Hacc|].
  apply (IH _ (λ x Hx, Hs x (list_elem_of_further _ _ _ Hx))) in Hk; [done|].
  intros x Hx. destruct (_ && _); [|by apply Hacc].
  apply elem_of_app in Hx as [Hx|Hx]; [by apply Hacc|].
  apply list_elem_of_singleton in Hx as ->. exists c. split; [|done].
  apply Hs. by left.
Qed.

Lemma standaloneStep_post (c : Z) (results : list WordObj) (st : World) :
  c ∈ text → Forall (foundEntry text expectedWords) results →
  grows notInflected st0 st →
  post (standaloneStep service text results [c]) st
       (foundAll text expectedWords st0) (notInflectedFrom st0).
Proof.
  intros Hin Hres Hg. unfold standaloneStep.
  assert (grows notInflected st0 (logged st (request SearchDirect [c]))) as Hg'
    by (by apply grows_logged).
  repeat post_step; try done.
  split; [|done]. apply Forall_app. split; [done|]. constructor; [|done].
  split; [by eexists|]. split; [done|]. cbn [position word].
  split; [|right; by exists c].
  pose proof (indexOf_range text [c]). pose proof (indexOf_unit_found text c Hin).
  lia.
Qed.

Lemma standaloneLoop_post :
  ∀ ks results st,
    (∀ k, k ∈ ks → ∃ c, c ∈ text ∧ k = [c]) →
    Forall (foundEntry text expectedWords) results →
    grows notInflected st0 st →
    post (standaloneLoop service text ks results) st
         (foundAll text expectedWords st0) (notInflectedFrom st0).
Proof.
  induction ks as [|k ks IH]; intros results st Hin Hres Hg; simpl.
  - post_step. done.
  - destruct (Hin k) as (c & Hc & ->); [by left|].
    post_step. eapply post_mono;
      [by apply standaloneStep_post | | done].
    intros results' st' [Hres' Hg']. apply IH; [|done..].
    intros x Hx. apply Hin. by right.
Qed.

End Loops.

Lemma findKanjiWords_post (text : jsstring) (expectedWords : list jsstring)
    (st : World) :
  post (findKanjiWords service utilHasKanji text expectedWords) st
       (λ results st',
          StronglySorted (λ a b, position a ≤ position b) results
          ∧ Forall (foundEntry text expectedWords) results
          ∧ grows notInflected st st')
       (λ _, False).
Proof.
  unfold findKanjiWords.
  post_step;
    [post_step; split; [constructor|]; split; [constructor | apply grows_refl]|].
  post_step. post_step.
  { post_step. split; [constructor|]. split; [constructor | apply grows_refl]. }
  post_step.
  eapply post_mono;
    [apply (expectedLoop_post text expectedWords st);
       [done | constructor | apply grows_refl] | |].
  2: { intros st' Hg. post_step. split; [constructor|]. split; [constructor | done]. }
  intros results st' [Hres Hg].
  assert (∀ results st',
            Forall (foundEntry text expectedWords) results →
            grows notInflected st st' →
            post (ret (JS.sort (λ a b, position a - position b) results)) st'
                 (λ results st',
                    StronglySorted (λ a b, position a ≤ position b) results
                    ∧ Forall (foundEntry text expectedWords) results
                    ∧ grows notInflected st st')
                 (λ st', post (ret []) st'
                              (λ results st',
                                 StronglySorted (λ a b, position a ≤ position b) results
                                 ∧ Forall (foundEntry text expectedWords) results
                                 ∧ grows notInflected st st')
                              (λ _, False))) as Hsort.
  { intros rs st1 Hrs Hg1. post_step. split; [|split; [|done]].
    - eapply StronglySorted_weaken; [|apply sort_sorted]; simpl; intros; lia.
    - apply Forall_forall. intros x Hx. apply sort_elem in Hx.
      by apply (proj1 (Forall_forall _ _) Hrs). }
  post_step. post_step.
  - eapply post_mono;
      [apply (standaloneLoop_post text expectedWords st);
         [apply standaloneKanji_elem | done | done] | |].
    + intros results' st'' [Hres' Hg']. by apply Hsort.
    + intros st'' Hg'. post_step. split; [constructor|]. split; [constructor | done].
  - post_step. by apply Hsort.
Qed.

(** X9: [findKanjiWords] returns for every service and every analyzer. The
    array it returns is in order of position; each entry carries a match,
    the length of its word and a position between [-1] and the length of
    the text, and its word is an expected word or a single character of the
    text. The requests never go to the inflected search and the cache is
    not touched. For a blank text, or a text without kanji, the result is
    empty and no request is issued. *)
Theorem findKanjiWords_sorted_entries (text : jsstring)
    (expectedWords : list jsstring) (st : World) :
  (∃ results st',
     findKanjiWords service utilHasKanji text expectedWords st
     = (Returned results, st')
     ∧ StronglySorted (λ a b, position a ≤ position b) results
     ∧ Forall (foundEntry text expectedWords) results
     ∧ grows notInflected st st')
  ∧ (JS.isBlank text = true ∨ hasKanji utilHasKanji text = false →
     findKanjiWords service utilHasKanji text expectedWords st
     = (Returned [], st)).
Proof.
  split; [apply post_returns, findKanjiWords_post|].
  unfold findKanjiWords. intros [Hb|Hk].
  - rewrite Hb. by rewrite orb_true_r.
  - destruct (negb (truthy (Some text)) || JS.isBlank text); [done|].
    unfold try_catch. by rewrite Hk.
Qed.

End KanjiWords.

Lemma lookupIndividualKanji_appends_at_most_one_witness :
  (∃ results' st',
     KanjiDictionary.lookupIndividualKanji catService s_neko s_neko [] emptyWorld
     = (Net.Returned results', st')
     ∧ (results' = []
        ∨ ∃ e, results' = [] ++ [e] ∧ combinedEntry s_neko s_neko e)
     ∧ grows (kanjiQuery s_neko) emptyWorld st')
  ∧ KanjiDictionary.lookupIndividualKanji catService (js "abc") s_neko [] emptyWorld
    = (Net.Returned [], emptyWorld).
Proof.
  split.
  - exact (proj1 (lookupIndividualKanji_appends_at_most_one
                    catService s_neko s_neko [] emptyWorld)).
  - apply (proj2 (lookupIndividualKanji_appends_at_most_one
                    catService (js "abc") s_neko [] emptyWorld)).
    reflexivity.
Defined.

Lemma findKanjiWords_sorted_entries_witness :
  KanjiDictionary.findKanjiWords catService None (js "abc") [s_neko] emptyWorld
  = (Net.Returned [], emptyWorld)
  ∧ KanjiDictionary.findKanjiWords catService None (js "  ") [s_neko] emptyWorld
    = (Net.Returned [], emptyWorld).
Proof.
  split.
  - apply (proj2 (findKanjiWords_sorted_entries catService None (js "abc")
                    [s_neko] emptyWorld)).
    right. reflexivity.
  - apply (proj2 (findKanjiWords_sorted_entries catService None (js "  ")
                    [s_neko] emptyWorld)).
    left. reflexivity.
Defined.

(** ** Ruby elements and claimed ranges of the tree-merge player *)

Section Ruby.
Import TreeMerge.

(** *** Trimming twice *)

Lemma trimStart_fixed (s : jsstring) :
  (∀ c rest, s = c :: rest → JS.isWhiteSpace c = false) → JS.trimStart s = s.
Proof.
  destruct s as [|c s]; [done|]. intros H. simpl. by rewrite (H c s).
Qed.

Lemma trim_shape (s : jsstring) :
  (∀ c rest, JS.trim s = c :: rest → JS.isWhiteSpace c = false)
  ∧ (∀ c rest, reverse (JS.trim s) = c :: rest → JS.isWhiteSpace c = false).
Proof.
  unfold JS.trim, JS.trimEnd. rewrite reverse_involutive.
  set (a := JS.trimStart s). set (b := JS.trimStart (reverse a)).
  split; [|intros c rest; apply trimStart_head].
  intros c rest Hc.
  destruct (trimStart_suffix (reverse a)) as [pre Hpre]. fold b in Hpre.
  apply (f_equal reverse) in Hpre.
  rewrite reverse_involutive, reverse_app, Hc in Hpre.
  apply (trimStart_head s c (rest ++ reverse pre)). fold a. by rewrite Hpre.
Qed.

Lemma trim_idempotent (s : jsstring) : JS.trim (JS.trim s) = JS.trim s.
Proof.
  destruct (trim_shape s) as [Hhead Hlast].
  unfold JS.trim at 1. unfold JS.trimEnd.
  rewrite (trimStart_fixed (JS.trim s)) by done.
  rewrite (trimStart_fixed (reverse (JS.trim s))) by done.
  apply reverse_involutive.
Qed.

(** *** The base text of a ruby element *)

Lemma removeParens_elem (s : jsstring) (x : Z) :
  x ∈ removeParens s ↔ x ∈ s ∧ x ≠ 40 ∧ x ≠ 41.
Proof.
  unfold removeParens. rewrite list_elem_of_In, filter_In, <- list_elem_of_In.
  rewrite negb_true_iff, orb_false_iff. split; intros [? ?]; (split; [done|]); lia.
Qed.

Lemma removeParens_clean (s : jsstring) :
  40 ∉ s → 41 ∉ s → removeParens s = s.
Proof.
  unfold removeParens. induction s as [|c s IH]; [done|].
  intros [? ?]%not_elem_of_cons [? ?]%not_elem_of_cons. simpl.
  destruct ((c =? 40) || (c =? 41)) eqn:E; simpl; [lia|]. by rewrite IH.
Qed.

Lemma getRubyBase_elem (ruby : Node) (x : Z) :
  x ∈ getRubyBase ruby → x ≠ 40 ∧ x ≠ 41.
Proof.
  unfold getRubyBase. intros Hx%trim_elem. by apply removeParens_elem in Hx as [_ ?].
Qed.

Lemma getRubyBase_cleaned (ruby : Node) :
  removeParens (JS.trim (getRubyBase ruby)) = getRubyBase ruby.
Proof.
  assert (JS.trim (getRubyBase ruby) = getRubyBase ruby) as ->
    by apply trim_idempotent.
  apply removeParens_clean; intros Hx; by apply getRubyBase_elem in Hx as [? ?].
Qed.

(** X10: the base text of a ruby element has no parenthesis and no white
    space at its ends, and the text of the [rt] and [rp] children is not
    part of it; for the markup the converter writes for a word it is the
    word, when the word is itself free of parentheses and outer white
    space. *)
Theorem getRubyBase_clean (ruby : Node) :
  (40 ∉ getRubyBase ruby) ∧ (41 ∉ getRubyBase ruby)
  ∧ JS.trim (getRubyBase ruby) = getRubyBase ruby
  ∧ (∀ base reading,
       getRubyBase (rubyOf base reading) = JS.trim (removeParens base))
  ∧ (∀ base reading,
       40 ∉ base → 41 ∉ base → JS.trim base = base →
       getRubyBase (rubyOf base reading) = base).
Proof.
  split; [intros Hx; by apply getRubyBase_elem in Hx as [? ?]|].
  split; [intros Hx; by apply getRubyBase_elem in Hx as [? ?]|].
  split; [apply trim_idempotent|].
  assert (∀ base reading,
            getRubyBase (rubyOf base reading) = JS.trim (removeParens base)) as H.
  { intros base reading. unfold getRubyBase, rubyOf. simpl. by rewrite app_nil_r. }
  split; [done|]. intros base reading H40 H41 Ht.
  by rewrite H, removeParens_clean.
Qed.

(** *** Claimed ranges *)

Lemma isRangeProcessed_spec (a b : Z) (s : gset Z) :
  isRangeProcessed a b s = true ↔ ∃ i, inRange a b i ∧ i ∈ s.
Proof.
  unfold isRangeProcessed, inRange. rewrite existsb_exists. split.
  - intros (i & Hi & Hs). apply list_elem_of_In, elem_of_seqZ in Hi.
    apply bool_decide_eq_true in Hs. exists i. split; [lia | done].
  - intros (i & Hi & Hs). exists i. split.
    + apply list_elem_of_In, elem_of_seqZ. lia.
    + by apply bool_decide_eq_true.
Qed.

(** X11: a range counts as processed exactly when one of its offsets is in
    the set; marking a range adds its offsets and nothing else, so after a
    range is marked in an empty set the ranges that count as processed are
    those that meet it. An empty range never counts as processed. *)
Theorem processed_ranges (a b : Z) (s : gset Z) :
  (isRangeProcessed a b s = true ↔ ∃ i, inRange a b i ∧ i ∈ s)
  ∧ (∀ i, i ∈ markRangeProcessed a b s ↔ i ∈ s ∨ inRange a b i)
  ∧ (∀ c d, isRangeProcessed c d (markRangeProcessed a b ∅) = true
            ↔ Z.max a c < Z.min b d)
  ∧ (b ≤ a → isRangeProcessed a b s = false ∧ markRangeProcessed a b s = s).
Proof.
  split; [apply isRangeProcessed_spec|].
  split; [intros i; apply markRange_elem|].
  split.
  - intros c d. rewrite isRangeProcessed_spec. unfold inRange. split.
    + intros (i & Hi & Hm). apply markRange_elem in Hm as [Hm|Hm]; [|lia].
      by apply elem_of_empty in Hm.
    + intros H. exists (Z.max a c). split; [lia|].
      apply markRange_elem. right. lia.
  - intros Hba. split.
    + apply not_true_is_false. rewrite isRangeProcessed_spec.
      unfold inRange. intros (i & Hi & _). lia.
    + unfold markRangeProcessed.
      assert (seqZ a (b - a) = []) as -> by (apply seqZ_nil; lia). done.
Qed.

End Ruby.

Lemma getRubyBase_clean_witness :
  TreeMerge.getRubyBase (rubyOf s_tokyo r_tokyo) = s_tokyo.
Proof.
  apply (proj2 (proj2 (proj2 (proj2 (getRubyBase_clean (Text [])))))).
  - vm_compute. intros H.
    repeat (apply elem_of_cons in H as [H|H]; [discriminate H|]).
    by apply elem_of_nil in H.
  - vm_compute. intros H.
    repeat (apply elem_of_cons in H as [H|H]; [discriminate H|]).
    by apply elem_of_nil in H.
  - by vm_compute.
Defined.

Lemma processed_ranges_witness :
  TreeMerge.isRangeProcessed 3 2 {[ 2 ]} = false
  ∧ TreeMerge.markRangeProcessed 3 2 {[ 2 ]} = {[ 2 ]}.
Proof.
  apply (proj2 (proj2 (proj2 (processed_ranges 3 2 {[ 2 ]})))). lia.
Defined.

(** ** The tree-merge player from the display to the display *)

Section TreeMergeRun.
Import Net TreeMerge.

(** *** Gathering the words of the ruby elements *)

Lemma getRubyBase_test (ruby : Node) :
  truthy (Some (getRubyBase ruby)) && negb (JS.isBlank (getRubyBase ruby))
  = negb (bool_decide (getRubyBase ruby = [])).
Proof.
  pose proof (trim_idempotent (removeParens
    match ruby with
    | Text _ => []
    | Element _ _ children =>
        flat_map (λ child, match child with
                           | Text v => v
                           | Element name _ _ =>
                               if isRtOrRp name then [] else textContent child
                           end) children
    end)) as Ht.
  fold (getRubyBase ruby) in Ht. unfold JS.isBlank. rewrite Ht.
  by destruct (getRubyBase ruby).
Qed.

Lemma rubyWordsOf_app (a b : list RubyWord) :
  rubyWordsOf (a ++ b) = rubyWordsOf a ++ rubyWordsOf b.
Proof. apply map_app. Qed.

Lemma existsb_word (w : jsstring) (rubyWords : list RubyWord) :
  existsb (λ rw, bool_decide (word (rw_obj rw) = w)) rubyWords = true
  ↔ w ∈ rubyWordsOf rubyWords.
Proof.
  rewrite existsb_exists. unfold rubyWordsOf. rewrite list_elem_of_fmap. split.
  - intros (rw & Hin & Hw). apply bool_decide_eq_true in Hw.
    exists rw. split; [done | by apply list_elem_of_In].
  - intros (rw & -> & Hin). exists rw. split; [by apply list_elem_of_In|].
    by apply bool_decide_eq_true.
Qed.

Lemma rubyStep_inv (text : jsstring) (rubyElements : list Node)
    (st : list RubyWord * gset jsstring) (ruby : Node) :
  ruby ∈ rubyElements → gatherInv text rubyElements st →
  gatherInv text rubyElements (rubyStep text st ruby)
  ∧ (∀ x, x ∈ rubyWordsOf (fst st) → x ∈ rubyWordsOf (fst (rubyStep text st ruby)))
  ∧ (getRubyBase ruby ≠ [] →
     getRubyBase ruby ∈ rubyWordsOf (fst (rubyStep text st ruby))).
Proof.
  intros Hin Hinv. pose proof Hinv as (Hnd & Hkeys & Hall).
  destruct st as [rubyWords wordDataMap].
  unfold rubyStep. rewrite getRubyBase_test, getRubyBase_cleaned.
  cbn [fst snd] in *.
  destruct (bool_decide (getRubyBase ruby = [])) eqn:Hb; cbn [negb].
  { apply bool_decide_eq_true in Hb. split; [done|]. split; [done|]. done. }
  apply bool_decide_eq_false in Hb.
  destruct (existsb _ rubyWords) eqn:He.
  { apply existsb_word in He. split; [done|]. split; [done|]. done. }
  assert (getRubyBase ruby ∉ rubyWordsOf rubyWords) as Hnew.
  { intros H. apply existsb_word in H. congruence. }
  cbn [fst snd]. rewrite rubyWordsOf_app. split; [|split].
  - split; [|split]; cbn [fst snd].
    + rewrite rubyWordsOf_app. apply NoDup_app. split; [done|].
      split; [|apply NoDup_singleton].
      intros x Hx ->%list_elem_of_singleton. done.
    + intros x. rewrite rubyWordsOf_app, elem_of_app, elem_of_union, Hkeys.
      cbn. rewrite elem_of_singleton, list_elem_of_singleton. tauto.
    + apply Forall_app. split; [done|]. constructor; [|done].
      unfold gathered. cbn [rw_obj word position length_ data kanjiChars].
      pose proof (indexOf_range text (getRubyBase ruby)) as Hr.
      pose proof (len_nonneg text) as Hl.
      split; [by exists ruby|]. split; [done|]. split; [done|].
      unfold JS.includes.
      destruct (JS.indexOf text (getRubyBase ruby) 0 =? -1) eqn:E; cbn [negb].
      * split; [lia|]. split; [done|]. split; [done|]. split; [done | by eexists].
      * split; [lia|]. split; [|split; [done|split; [done | by eexists]]].
        intros _. apply indexOf_found; lia.
  - intros x Hx. apply elem_of_app. by left.
  - intros _. apply elem_of_app. right. cbn. by left.
Qed.

Lemma gather_fold (text : jsstring) (rubyElements : list Node) :
  ∀ els st,
    (∀ r, r ∈ els → r ∈ rubyElements) → gatherInv text rubyElements st →
    gatherInv text rubyElements (foldl (rubyStep text) st els)
    ∧ (∀ x, x ∈ rubyWordsOf (fst st) →
            x ∈ rubyWordsOf (fst (foldl (rubyStep text) st els)))
    ∧ (∀ r, r ∈ els → getRubyBase r ≠ [] →
            getRubyBase r ∈ rubyWordsOf (fst (foldl (rubyStep text) st els))).
Proof.
  induction els as [|ruby els IH]; intros st Hsub Hinv; simpl.
  - split; [done|]. split; [done|]. by intros r ?%elem_of_nil.
  - destruct (rubyStep_inv text rubyElements st ruby) as (Hinv' & Hmono & Hnew);
      [apply Hsub; by left | done |].
    destruct (IH (rubyStep text st ruby)) as (Hinv'' & Hmono' & Hall);
      [intros r Hr; apply Hsub; by right | done |].
    split; [done|]. split; [by auto|].
    intros r [->|Hr]%elem_of_cons Hne; [by auto | by apply Hall].
Qed.

Lemma gatherRubyWords_inv (originalText : jsstring) (display : list Node) :
  gatherInv originalText (querySelectorAll "ruby" (Element "div" [] display))
            (gatherRubyWords originalText display)
  ∧ ∀ ruby, ruby ∈ querySelectorAll "ruby" (Element "div" [] display) →
            getRubyBase ruby ≠ [] →
            getRubyBase ruby
            ∈ rubyWordsOf (fst (gatherRubyWords originalText display)).
Proof.
  unfold gatherRubyWords.
  destruct (gather_fold originalText
              (querySelectorAll "ruby" (Element "div" [] display))
              (querySelectorAll "ruby" (Element "div" [] display)) ([], ∅))
    as (Hinv & _ & Hall); [done | | done].
  split; [constructor|]. split; [|constructor].
  intros x. cbn. rewrite elem_of_empty, elem_of_nil. tauto.
Qed.

(** X12: the words gathered from the ruby elements of a display have
    distinct surface strings, and these are the keys of [wordDataMap]; each
    is the base text of a ruby element, not empty, with a position between
    0 and the length of the text, which is its first occurrence in the text
    when it occurs and 0 when it does not; and every ruby element with a
    base text has its base among them. *)
Theorem gatherRubyWords_distinct (originalText : jsstring) (display : list Node) :
  gatherInv originalText (querySelectorAll "ruby" (Element "div" [] display))
            (gatherRubyWords originalText display)
  ∧ ∀ ruby, ruby ∈ querySelectorAll "ruby" (Element "div" [] display) →
            getRubyBase ruby ≠ [] →
            getRubyBase ruby
            ∈ rubyWordsOf (fst (gatherRubyWords originalText display)).
Proof.
  pose proof (gatherRubyWords_inv originalText display) as [Hinv Hall].
  split; [exact Hinv | exact Hall].
Qed.

(** *** Resolving and merging *)

(** *** The calls that can throw *)

Section WithNameTests.
Context (dom : NameTests).


Hypothesis div_accepted : elementNameOk dom "div" = true.


Section WithService.
Context (service : Service) (utilHasKanji : option (jsstring → bool)).










(** *** Ruby elements in the rebuilt display *)




End WithService.

End WithNameTests.

End TreeMergeRun.



(** ** The overlay player on text without markup *)

Section OverlayMore.
Import Overlay.

(** *** Tokens that make up the text *)

Lemma occursAt_middle (pre w rest : jsstring) :
  occursAt (pre ++ w ++ rest) w (JS.len pre).
Proof.
  unfold occursAt, JS.len. rewrite !length_app, Nat2Z.id.
  split; [lia|]. split; [lia|].
  by rewrite drop_app_length, take_app_length.
Qed.

Lemma nonblank_len (w : jsstring) : JS.isBlank w = false → 0 < JS.len w.
Proof. destruct w; [done|]. intros _. unfold JS.len. simpl. lia. Qed.

Lemma segmentWords_cons (t : Token) (tokens : list Token) :
  segmentWords (Some (t :: tokens))
  = if bool_decide (pos t ∈ targetPos)
    then {| sw_word := surface_form t;
            sw_reading := convertKatakanaToHiragana (Some (orEmpty (reading t)));
            sw_pos := pos t |} :: segmentWords (Some tokens)
    else segmentWords (Some tokens).
Proof. unfold segmentWords. simpl. by destruct (bool_decide _). Qed.

Lemma align_tokens (text : jsstring) :
  ∀ tokens pre acc k,
    text = pre ++ tokensText tokens → 0 ≤ k → k ≤ JS.len pre →
    ∃ out,
      fst (foldl (alignStep text) (acc, k) (segmentWords (Some tokens))) = acc ++ out
      ∧ inOrder out
      ∧ Forall (λ w, k ≤ position w ∧ placed text w ∧ is_Some (data w)) out
      ∧ map word out = keptWords tokens.
Proof.
  induction tokens as [|t tokens IH]; intros pre acc k Htext H0 Hk.
  - exists []. split; [by rewrite app_nil_r|]. split; [constructor|].
    split; [constructor | done].
  - pose proof (len_nonneg (surface_form t)) as Hlen.
    assert (text = (pre ++ surface_form t) ++ tokensText tokens) as Htext'
      by (rewrite Htext; unfold tokensText; simpl; by rewrite app_assoc).
    assert (JS.len (pre ++ surface_form t) = JS.len pre + JS.len (surface_form t))
      as Hlen' by apply len_app.
    unfold keptWords. rewrite segmentWords_cons.
    destruct (bool_decide (pos t ∈ targetPos)).
    2: { apply (IH (pre ++ surface_form t) acc k); [done | done | lia]. }
    cbn [foldl map List.filter sw_word]. unfold alignStep at 2. cbn [sw_word sw_reading].
    destruct (JS.isBlank (surface_form t)) eqn:Hb; cbn [negb].
    { apply (IH (pre ++ surface_form t) acc k); [done | done | lia]. }
    assert (occursAt text (surface_form t) (JS.len pre)) as Hocc.
    { rewrite Htext. unfold tokensText. simpl. apply occursAt_middle. }
    assert (k ≤ JS.len text) as Hkt.
    { rewrite Htext, len_app. pose proof (len_nonneg (tokensText (t :: tokens))). lia. }
    destruct (indexOf_spec text (surface_form t) k H0 Hkt) as [[_ Hnone]|Hf].
    { exfalso. by apply (Hnone (JS.len pre)). }
    pose proof Hf as (Hkp & Hp & Hmin).
    pose proof (firstFrom_bounds _ _ _ _ Hf) as [Hp0 Hp1].
    assert (JS.indexOf text (surface_form t) k ≤ JS.len pre) as Hle.
    { destruct (Z.le_gt_cases (JS.indexOf text (surface_form t) k) (JS.len pre))
        as [?|Hgt]; [done|].
      exfalso. apply (Hmin (JS.len pre)); [done | lia | done]. }
    destruct (Z.eqb_spec (JS.indexOf text (surface_form t) k) (-1)) as [?|_]; [lia|].
    set (p := JS.indexOf text (surface_form t) k) in *.
    destruct (IH (pre ++ surface_form t)
                 (acc ++ [mkWordObj (surface_form t) p
                            (convertKatakanaToHiragana (Some (orEmpty (reading t))))])
                 (p + JS.len (surface_form t)))
      as (out & Hout & Hord & Hall & Hwords); [done | lia | lia |].
    eexists (_ :: out). split; [by rewrite Hout, <- app_assoc|].
    split; [|split].
    + constructor; [done|]. eapply Forall_impl; [exact Hall|].
      intros w [Hw _]. cbn. lia.
    + constructor.
      * split; [done|]. split; [|by eexists].
        split; [by apply nonblank_len|]. split; done.
      * eapply Forall_impl; [exact Hall|]. intros w [Hw ?]. split; [lia | done].
    + cbn. f_equal. exact Hwords.
Qed.

(** X15: when the text is what the analyzer's tokens spell, one after the
    other, the aligner never falls back to a search from offset 0 and drops
    nothing: it places exactly the tokens of the kept parts of speech that
    are not blank, in token order, each where the text reads it, and no two
    placed words overlap. *)
Theorem alignWords_of_tokens (tokens : list Token) :
  inOrder (alignWords (tokensText tokens) (segmentWords (Some tokens)))
  ∧ Forall (placed (tokensText tokens))
           (alignWords (tokensText tokens) (segmentWords (Some tokens)))
  ∧ map word (alignWords (tokensText tokens) (segmentWords (Some tokens)))
    = keptWords tokens.
Proof.
  destruct (align_tokens (tokensText tokens) tokens [] [] 0)
    as (out & Hout & Hord & Hall & Hwords); [done | done | done |].
  unfold alignWords. rewrite Hout. cbn [app]. split; [done|]. split; [|done].
  eapply Forall_impl; [exact Hall|]. by intros w (_ & ? & _).
Qed.

(** *** One text leaf *)

Lemma visibleText_wordSpan (wordText : jsstring) (d : option WordData) :
  visibleText (wordSpan wordText d) = wordText.
Proof.
  unfold wordSpan.
  change (visibleText (Element "span" [("class", "kanji-word")]
                               (setTextContent wordText ++ [popup d])))
    with (if isRtOrRp "span" || isPopup [("class", "kanji-word")] then []
          else flat_map visibleText (setTextContent wordText ++ [popup d])).
  rewrite isPopup_word. cbn [isRtOrRp String.eqb orb Ascii.eqb Bool.eqb].
  rewrite flat_map_app. cbn [flat_map]. rewrite visibleText_popup, !app_nil_r.
  destruct wordText; [done|]. cbn. by rewrite app_nil_r.
Qed.

Lemma visibleTextOf_app (a b : list Node) :
  visibleTextOf (a ++ b) = visibleTextOf a ++ visibleTextOf b.
Proof. apply flat_map_app. Qed.

Lemma sort_sorted_id {A} (cmp : A → A → Z) (l : list A) :
  StronglySorted (λ x y, cmp x y ≤ 0) l → JS.sort cmp l = l.
Proof.
  induction 1 as [|x l Hl IH Hx]; [done|].
  unfold JS.sort in *. cbn [foldr]. rewrite IH.
  destruct l as [|y l]; [done|]. cbn.
  inversion Hx as [|? ? Hxy _]; subst.
  by destruct (Z.leb_spec (cmp x y) 0); [|lia].
Qed.

Lemma StronglySorted_weaken_in {A} (R R' : A → A → Prop) (l : list A) :
  (∀ x y, x ∈ l → y ∈ l → R x y → R' x y) →
  StronglySorted R l → StronglySorted R' l.
Proof.
  intros Himp Hs. induction Hs as [|x l Hl IH Hx]; [constructor|].
  constructor.
  - apply IH. intros a b Ha Hb. apply Himp; by right.
  - apply Forall_forall. intros y Hy. apply Himp; [by left | by right |].
    by apply (proj1 (Forall_forall _ _) Hx).
Qed.

Lemma StronglySorted_filter {A} (R : A → A → Prop) (p : A → bool) (l : list A) :
  StronglySorted R l → StronglySorted R (List.filter p l).
Proof.
  induction 1 as [|x l Hl IH Hx]; [constructor|]. cbn.
  destruct (p x); [|done]. constructor; [done|].
  apply Forall_forall. intros y Hy.
  apply list_elem_of_In, filter_In in Hy as [Hy _].
  by apply (proj1 (Forall_forall _ _) Hx), list_elem_of_In.
Qed.

Lemma substr_inside (text : jsstring) (start n : Z) :
  0 ≤ start → 0 ≤ n → start + n ≤ JS.len text →
  take (Z.to_nat start) text ++ JS.substr text start n
  = take (Z.to_nat (start + n)) text.
Proof.
  intros H0 Hn Hle. unfold JS.substr, JS.clamp.
  destruct (Z.ltb_spec start 0); [lia|].
  replace (Z.min start (JS.len text)) with start by lia.
  replace (Z.min (Z.max n 0) (JS.len text - start)) with n by lia.
  rewrite take_take_drop. f_equal. lia.
Qed.

Lemma highlightStep_inside (text : jsstring) (nodePosition : Z)
    (fragments : list Node) (lastIndex : Z) (w : WordObj) :
  0 < length_ w → insideLeaf nodePosition text w →
  0 ≤ lastIndex → lastIndex ≤ position w - nodePosition →
  visibleTextOf fragments = take (Z.to_nat lastIndex) text →
  ∃ fragments',
    highlightStep text nodePosition (fragments, lastIndex) w
    = (fragments', position w - nodePosition + length_ w)
    ∧ visibleTextOf fragments'
      = take (Z.to_nat (position w - nodePosition + length_ w)) text.
Proof.
  intros Hlen [Hin1 Hin2] H0 Hlast Hvis. unfold highlightStep.
  replace (Z.max 0 (position w - nodePosition)) with (position w - nodePosition)
    by lia.
  set (start := position w - nodePosition) in *.
  destruct (Z.geb_spec start (JS.len text)); [lia|].
  replace (Z.min (length_ w) (JS.len text - start)) with (length_ w) by lia.
  destruct (Z.ltb_spec start 0); [lia|].
  destruct (Z.leb_spec (length_ w) 0); [lia|]. cbn [orb].
  eexists. split; [reflexivity|].
  rewrite visibleTextOf_app. unfold visibleTextOf at 2. cbn [flat_map].
  rewrite visibleText_wordSpan, app_nil_r.
  destruct (Z.gtb_spec start lastIndex).
  - rewrite visibleTextOf_app, Hvis. unfold visibleTextOf. cbn [flat_map visibleText].
    rewrite app_nil_r, substring_mid by lia. apply substr_inside; lia.
  - assert (start = lastIndex) as Heq by lia. rewrite Hvis, <- Heq.
    apply substr_inside; lia.
Qed.

Lemma highlight_fold (text : jsstring) (nodePosition : Z) :
  ∀ ws fragments lastIndex,
    inOrder ws →
    Forall (λ w, 0 < length_ w ∧ insideLeaf nodePosition text w
                 ∧ lastIndex ≤ position w - nodePosition) ws →
    0 ≤ lastIndex → lastIndex ≤ JS.len text →
    visibleTextOf fragments = take (Z.to_nat lastIndex) text →
    ∃ fragments' lastIndex',
      foldl (highlightStep text nodePosition) (fragments, lastIndex) ws
      = (fragments', lastIndex')
      ∧ visibleTextOf fragments' = take (Z.to_nat lastIndex') text
      ∧ lastIndex ≤ lastIndex' ∧ lastIndex' ≤ JS.len text.
Proof.
  induction ws as [|w ws IH]; intros fragments lastIndex Hord Hall H0 Hle Hvis.
  - exists fragments, lastIndex. split; [done|]. split; [done|]. lia.
  - inversion Hord as [|? ? Hord' Hw]; subst.
    inversion Hall as [|? ? (Hlen & Hin & Hlast) Hall']; subst.
    destruct (highlightStep_inside text nodePosition fragments lastIndex w)
      as (fragments1 & Hstep & Hvis1); [done..|].
    cbn [foldl]. rewrite Hstep.
    destruct Hin as [Hin1 Hin2].
    destruct (IH fragments1 (position w - nodePosition + length_ w))
      as (fragments' & lastIndex' & Hfold & Hvis' & Hge & Hle');
      [done | | lia | lia | done |].
    + apply Forall_forall. intros w' Hw'.
      destruct (proj1 (Forall_forall _ _) Hall' w' Hw') as (? & ? & _).
      split; [done|]. split; [done|].
      pose proof (proj1 (Forall_forall _ _) Hw w' Hw'). cbn in *. lia.
    + exists fragments', lastIndex'. split; [done|]. split; [done|]. lia.
Qed.

Lemma relevantWords_inside (kanjiWords : list WordObj) (text : jsstring)
    (nodePosition : Z) :
  inOrder kanjiWords →
  Forall (λ w, 0 < length_ w
               ∧ (insideLeaf nodePosition text w ∨ outsideLeaf nodePosition text w))
         kanjiWords →
  inOrder (relevantWords kanjiWords text nodePosition)
  ∧ Forall (λ w, 0 < length_ w ∧ insideLeaf nodePosition text w
                 ∧ 0 ≤ position w - nodePosition)
           (relevantWords kanjiWords text nodePosition).
Proof.
  intros Hord Hall. unfold relevantWords.
  set (keep := λ w : WordObj,
         ((position w >=? nodePosition) && (position w <? nodePosition + JS.len text))
         || ((position w <? nodePosition) && (position w + length_ w >? nodePosition))).
  assert (inOrder (List.filter keep kanjiWords)) as Hord'
    by (by apply StronglySorted_filter).
  assert (Forall (λ w, 0 < length_ w ∧ insideLeaf nodePosition text w
                       ∧ 0 ≤ position w - nodePosition)
                 (List.filter keep kanjiWords)) as Hall'.
  { apply Forall_forall. intros w Hw.
    apply list_elem_of_In, filter_In in Hw as [Hw Hk].
    apply list_elem_of_In in Hw.
    destruct (proj1 (Forall_forall _ _) Hall w Hw) as (Hlen & [Hin|Hout]).
    - split; [done|]. split; [done|]. destruct Hin. lia.
    - exfalso. unfold keep, outsideLeaf in *. pose proof (len_nonneg text).
      destruct (Z.geb_spec (position w) nodePosition),
               (Z.ltb_spec (position w) (nodePosition + JS.len text)),
               (Z.ltb_spec (position w) nodePosition),
               (Z.gtb_spec (position w + length_ w) nodePosition);
        cbn in Hk; try done; lia. }
  rewrite sort_sorted_id; [done|].
  eapply StronglySorted_weaken_in; [|exact Hord'].
  intros a b Ha _ Hab. cbn in Hab.
  destruct (proj1 (Forall_forall _ _) Hall' a Ha) as (? & _). lia.
Qed.

Lemma highlightLeaf_tiles_aux (kanjiWords : list WordObj) (text : jsstring)
    (located : option Z) :
  inOrder kanjiWords →
  Forall (λ w, 0 < length_ w
               ∧ (insideLeaf (default 0 located) text w
                  ∨ outsideLeaf (default 0 located) text w)) kanjiWords →
  visibleTextOf (default [Text text] (highlightLeaf kanjiWords text located))
  = text.
Proof.
  intros Hord Hall.
  assert (visibleTextOf [Text text] = text) as Hsame
    by (unfold visibleTextOf; cbn; apply app_nil_r).
  unfold highlightLeaf. destruct (JS.isBlank text); [done|].
  destruct (relevantWords_inside kanjiWords text (default 0 located) Hord Hall)
    as [Hord' Hall'].
  destruct (length _ =? 0)%nat; [done|].
  pose proof (len_nonneg text) as Hlen.
  destruct (highlight_fold text (default 0 located)
              (relevantWords kanjiWords text (default 0 located)) [] 0)
    as (fragments & lastIndex & Hfold & Hvis & H0 & Hle); [done | done | lia | lia | done |].
  rewrite Hfold.
  assert (visibleTextOf
            (if lastIndex <? JS.len text
             then fragments ++ [Text (JS.substringFrom text lastIndex)]
             else fragments) = text) as Hall''.
  { destruct (Z.ltb_spec lastIndex (JS.len text)).
    - rewrite visibleTextOf_app, Hvis. unfold visibleTextOf. cbn [flat_map visibleText].
      rewrite app_nil_r. apply substringFrom_rest; lia.
    - rewrite Hvis. apply take_ge. unfold JS.len in *. lia. }
  by destruct (_ && _).
Qed.

(** X16: when the words are in text order without overlap and each of them
    lies inside the text leaf or does not meet it, the fragments that
    replace the leaf read as the leaf did; a leaf that is left in place
    does so trivially. *)
Theorem highlightLeaf_tiles (kanjiWords : list WordObj) (text : jsstring)
    (located : option Z) :
  inOrder kanjiWords →
  Forall (λ w, 0 < length_ w
               ∧ (insideLeaf (default 0 located) text w
                  ∨ outsideLeaf (default 0 located) text w)) kanjiWords →
  visibleTextOf (default [Text text] (highlightLeaf kanjiWords text located))
  = text.
Proof. intros Hord Hall. by apply highlightLeaf_tiles_aux. Qed.

(** *** Text without markup *)

Lemma startsWith_refl (s : jsstring) : JS.startsWith s s = true.
Proof. induction s as [|c s IH]; [done|]. cbn. by rewrite Z.eqb_refl. Qed.

Lemma indexOf_self (s : jsstring) : JS.indexOf s s 0 = 0.
Proof.
  unfold JS.indexOf, JS.clamp. pose proof (len_nonneg s).
  rewrite Z.max_id, Z.min_l by lia. change (drop (Z.to_nat 0) s) with s.
  destruct s as [|c s]; [done|].
  unfold JS.indexOf_scan. by rewrite startsWith_refl.
Qed.

Lemma applyHighlighting_plain (kanjiWords : list WordObj) (text : jsstring) :
  inOrder kanjiWords →
  Forall (λ w, 0 < length_ w ∧ insideLeaf 0 text w) kanjiWords →
  visibleTextOf (childNodesOf
                   (applyHighlighting (Element "div" [] [Text text]) kanjiWords text))
  = text.
Proof.
  intros Hord Hall. unfold applyHighlighting.
  cbn [collectTextNodes isRtOrRp String.eqb Ascii.eqb Bool.eqb orb flat_map].
  destruct (JS.isBlank text) eqn:Hb; cbn [negb app].
  - cbn [replaceForest replaceLeaves zip_with locateTextNodes childNodesOf fst].
    rewrite Hb. cbn. unfold visibleTextOf. cbn. apply app_nil_r.
  - unfold locateTextNodes. cbn [foldl]. unfold locateStep.
    destruct text as [|c text]; [done|]. rewrite indexOf_self. cbn [Z.eqb app fst zip_with].
    cbn [replaceForest replaceLeaves]. rewrite Hb. cbn [negb childNodesOf fst].
    rewrite app_nil_r. apply highlightLeaf_tiles_aux; [done|].
    eapply Forall_impl; [exact Hall|]. intros w [? ?]. split; [done | by left].
Qed.

Lemma resolved_places (ws out : list WordObj) (P : WordObj → WordObj → Prop) :
  Forall2 (λ w w', sameBut w w' ∧ P w w') ws out →
  map (λ w, (position w, length_ w)) out = map (λ w, (position w, length_ w)) ws.
Proof.
  induction 1 as [|w w' ws out [Hs _] _ IH]; [done|].
  cbn. rewrite IH. by destruct (sameBut_place _ _ Hs) as [-> ->].
Qed.

Lemma inOrder_places (ws : list WordObj) :
  inOrder ws
  ↔ StronglySorted (λ a b : Z * Z, a.1 + a.2 ≤ b.1)
                   (map (λ w, (position w, length_ w)) ws).
Proof.
  unfold inOrder. induction ws as [|w ws IH]; [split; constructor|].
  cbn [map]. split; inversion 1 as [|? ? Hs Hw]; subst; constructor;
    try (by apply IH).
  - apply Forall_forall. intros x Hx.
    apply list_elem_of_fmap in Hx as (w' & -> & Hw').
    by apply (proj1 (Forall_forall _ _) Hw).
  - apply Forall_forall. intros w' Hw'.
    apply (proj1 (Forall_forall _ _) Hw (position w', length_ w')).
    apply list_elem_of_fmap. by exists w'.
Qed.

Lemma places_Forall (P : Z → Z → Prop) (ws : list WordObj) :
  Forall (λ w, P (position w) (length_ w)) ws
  ↔ Forall (λ a : Z * Z, P a.1 a.2) (map (λ w, (position w, length_ w)) ws).
Proof. by rewrite Forall_fmap. Qed.

Section WithService.
Context (service : Net.Service).

(** X17: for a subtitle without markup whose text is what the analyzer's
    tokens spell, the overlay enhancer returns for every service; it leaves
    the display alone when no token is kept, and otherwise the display it
    builds reads as the subtitle does. *)
Theorem overlay_plain_text_round_trip (tokens : list Token)
    (display : list Node) (st : Net.World) :
  ∃ out st',
    enhanceWithKanjiPopups service (Some tokens) [Text (tokensText tokens)]
                           (tokensText tokens) display st
    = (Net.Returned out, st')
    ∧ (keptWords tokens = [] → out = display)
    ∧ (keptWords tokens ≠ [] → visibleTextOf out = tokensText tokens).
Proof.
  set (text := tokensText tokens).
  destruct (align_tokens text tokens [] [] 0)
    as (ws & Hws & Hord & Hall & Hwords); [done | done | done |].
  cbn [app] in Hws.
  assert (alignWords text (segmentWords (Some tokens)) = ws) as Hal by done.
  destruct (post_returns _ _ _
              (resolveAll_post service ws st ws st
                 ltac:(eapply Forall_impl; [exact Hall|]; by intros ? (_ & _ & ?))
                 (λ _ H, H) (grows_refl _ _)))
    as (out & st' & Hrun & HF & _).
  exists (render display [Text text] text out), st'. split.
  { unfold enhanceWithKanjiPopups, Net.try_catch, Net.bind. by rewrite Hal, Hrun. }
  pose proof (Forall2_length _ _ _ HF) as Hlen.
  pose proof (resolved_places _ _ _ HF) as Hplaces.
  unfold render. rewrite <- Hwords. split.
  - intros Hnil. apply (f_equal length) in Hnil. rewrite length_map in Hnil.
    cbn in Hnil. by rewrite <- Hlen, Hnil.
  - intros Hne. destruct out as [|w0 out'] eqn:Hout.
    { destruct ws; [done | discriminate Hlen]. }
    rewrite <- Hout in *. cbn [length Nat.eqb].
    replace (length out =? 0)%nat with false by (rewrite Hout; done).
    assert (inOrder out) as Hord'.
    { apply inOrder_places. rewrite Hplaces. by apply inOrder_places. }
    assert (Forall (λ w, 0 < length_ w ∧ insideLeaf 0 text w) out) as Hin.
    { pose proof (proj1 (places_Forall
                           (λ p l, 0 < l ∧ 0 ≤ p ∧ p + l ≤ 0 + JS.len text) ws))
        as H1.
      pose proof (proj2 (places_Forall
                           (λ p l, 0 < l ∧ 0 ≤ p ∧ p + l ≤ 0 + JS.len text) out))
        as H2.
      cbn beta in H1, H2. rewrite Hplaces in H2.
      eapply Forall_impl; [apply H2, H1|].
      - eapply Forall_impl; [exact Hall|].
        intros w (_ & (Hl & Hlw & H0 & Hle & _) & _). lia.
      - intros w (? & ? & ?). split; [done|]. split; lia. }
    rewrite sort_sorted_id.
    + by apply applyHighlighting_plain.
    + eapply StronglySorted_weaken_in; [|exact Hord'].
      intros a b Ha _ Hab. cbn in Hab.
      destruct (proj1 (Forall_forall _ _) Hin a Ha) as [? _].
      unfold byPositionThenLonger.
      destruct (Z.eqb_spec (position a) (position b)); cbn [negb]; lia.
Qed.

End WithService.

End OverlayMore.

Lemma highlightLeaf_tiles_witness :
  visibleTextOf
    (default [Text s_tokyo_ni_iku]
       (Overlay.highlightLeaf
          (Overlay.alignWords s_tokyo_ni_iku (Overlay.segmentWords (Some sampleTokens)))
          s_tokyo_ni_iku (Some 0)))
  = s_tokyo_ni_iku.
Proof.
  assert (Overlay.alignWords s_tokyo_ni_iku (Overlay.segmentWords (Some sampleTokens))
          = [Overlay.mkWordObj s_tokyo 0 h_tokyo; Overlay.mkWordObj s_iku 3 h_iku])
    as Hws by (by vm_compute).
  apply highlightLeaf_tiles; rewrite Hws.
  - unfold inOrder. repeat constructor; by vm_compute.
  - repeat (constructor; [split; [by vm_compute | left; split; by vm_compute]|]).
    constructor.
Defined.

Lemma overlay_plain_text_round_trip_witness :
  ∃ out st',
    Overlay.enhanceWithKanjiPopups emptyService (Some sampleTokens)
      [Text (tokensText sampleTokens)] (tokensText sampleTokens) [] emptyWorld
    = (Net.Returned out, st')
    ∧ visibleTextOf out = tokensText sampleTokens.
Proof.
  destruct (overlay_plain_text_round_trip emptyService sampleTokens [] emptyWorld)
    as (out & st' & Hrun & _ & Hout).
  exists out, st'. split; [exact Hrun |]. apply Hout. by vm_compute.
Defined.

(** ** Readings and ruby elements are left alone *)

Section Markup.

Lemma selectAll_text (name : string) (s : jsstring) :
  flat_map (selectAll name) (setTextContent s) = [].
Proof. by destruct s. Qed.

Lemma selectAll_popup (name : string) (d : option WordData) :
  String.eqb "span" name = false → selectAll name (popup d) = [].
Proof.
  intros Hn. unfold popup. cbn [selectAll]. rewrite Hn. apply selectAll_text.
Qed.

Lemma selectAll_wordSpan (name : string) (wordText : jsstring)
    (d : option WordData) :
  String.eqb "span" name = false → selectAll name (wordSpan wordText d) = [].
Proof.
  intros Hn. unfold wordSpan. cbn [selectAll]. rewrite Hn. cbn [app].
  rewrite (flat_map_app (selectAll name)), selectAll_text. cbn [app flat_map].
  by rewrite selectAll_popup.
Qed.

Lemma selectAll_pieces (name : string) (pieces : list Piece) :
  String.eqb "span" name = false →
  flat_map (selectAll name) (map pieceNode pieces) = [].
Proof.
  intros Hn. induction pieces as [|p pieces IH]; [done|].
  cbn [map flat_map]. rewrite IH, app_nil_r.
  destruct p; [done|]. by apply selectAll_wordSpan.
Qed.

Lemma flat_map_twice (f : Node → list Node) (g : Node → list Node)
    (children : list Node) :
  Forall (λ c, flat_map g (f c) = g c) children →
  flat_map g (flat_map f children) = flat_map g children.
Proof.
  induction 1 as [|c cs Hc _ IH]; [done|].
  cbn [flat_map]. by rewrite (flat_map_app g), Hc, IH.
Qed.

(** *** The tree-merge player *)

Lemma processNode_select (name : string) (kanjiWords : list WordObj) (node : Node) :
  name = "rt" ∨ name = "ruby" →
  flat_map (selectAll name) (TreeMerge.processNode kanjiWords node)
  = selectAll name node.
Proof.
  intros Hname.
  assert (String.eqb "span" name = false) as Hspan by (by destruct Hname as [-> | ->]).
  induction node as [text | n attrs children IH] using Node_induction.
  - cbn [TreeMerge.processNode selectAll].
    destruct (processText_tiles kanjiWords text) as (pieces & -> & _).
    by apply selectAll_pieces.
  - cbn [TreeMerge.processNode].
    destruct (String.eqb n "rt") eqn:Hrt; [cbn [flat_map]; apply app_nil_r|].
    destruct (String.eqb n "ruby") eqn:Hruby.
    { unfold TreeMerge.processRuby. destruct (JS.find _ kanjiWords) as [kw|].
      - cbn [flat_map]. rewrite app_nil_r.
        set (ruby := Element n attrs children).
        cbn [selectAll]. rewrite Hspan. cbn [app flat_map].
        rewrite selectAll_popup by done. cbn [app]. apply app_nil_r.
      - cbn [flat_map]. apply app_nil_r. }
    cbn [flat_map selectAll]. rewrite app_nil_r.
    assert (String.eqb n name = false) as ->
      by (by destruct Hname as [-> | ->]).
    cbn [app]. by apply flat_map_twice.
Qed.

(** *** The overlay player *)

Lemma highlightStep_free (name : string) (text : jsstring) (nodePosition : Z)
    (st : list Node * Z) (w : WordObj) :
  String.eqb "span" name = false →
  flat_map (selectAll name) (fst st) = [] →
  flat_map (selectAll name) (fst (Overlay.highlightStep text nodePosition st w)) = [].
Proof.
  intros Hn Hst. destruct st as [fragments lastIndex]. unfold Overlay.highlightStep.
  destruct (_ >=? _); [done|]. destruct (_ || _); [done|].
  cbn [fst] in *. rewrite (flat_map_app (selectAll name)). cbn [flat_map].
  rewrite selectAll_wordSpan, app_nil_r by done. cbn [app].
  destruct (_ >? _); [|done].
  rewrite (flat_map_app (selectAll name)), Hst. done.
Qed.

Lemma highlightLeaf_free (name : string) (kanjiWords : list WordObj)
    (text : jsstring) (located : option Z) :
  String.eqb "span" name = false →
  free name (Overlay.highlightLeaf kanjiWords text located).
Proof.
  intros Hn fragments. unfold Overlay.highlightLeaf.
  destruct (JS.isBlank text); [done|]. destruct (length _ =? 0)%nat; [done|].
  generalize (Overlay.relevantWords kanjiWords text (default 0 located)).
  intros ws.
  assert (flat_map (selectAll name)
            (fst (foldl (Overlay.highlightStep text (default 0 located)) ([], 0) ws))
          = []) as Hfold.
  { enough (∀ st, flat_map (selectAll name) (fst st) = [] →
                  flat_map (selectAll name)
                    (fst (foldl (Overlay.highlightStep text (default 0 located)) st ws))
                  = []) as Hgen by (by apply Hgen).
    induction ws as [|w ws IH]; intros st Hst; [done|].
    cbn [foldl]. apply IH. by apply highlightStep_free. }
  destruct (foldl _ _ ws) as [frs lastIndex]. cbn [fst] in Hfold.
  destruct (_ && _); [|done]. intros [= <-].
  destruct (_ <? _); [|done]. by rewrite (flat_map_app (selectAll name)), Hfold.
Qed.

Lemma replaceLeaves_select (name : string) (node : Node) :
  name = "rt" ∨ name = "rp" →
  ∀ rs, Forall (free name) rs →
        flat_map (selectAll name) (fst (Overlay.replaceLeaves node rs))
        = selectAll name node
        ∧ Forall (free name) (snd (Overlay.replaceLeaves node rs)).
Proof.
  intros Hname.
  induction node as [text | n attrs children IH] using Node_induction;
    intros rs Hrs.
  - cbn [Overlay.replaceLeaves]. destruct (negb (JS.isBlank text)); [|done].
    destruct Hrs as [|r rs Hr Hrs]; [done|]. cbn [fst snd]. split; [|done].
    destruct r as [fragments|]; [|done]. cbn. by apply Hr.
  - rewrite replaceLeaves_element.
    destruct (isRtOrRp n) eqn:Hn; [cbn [fst snd flat_map]; by rewrite app_nil_r|].
    enough (flat_map (selectAll name) (fst (Overlay.replaceForest children rs))
            = flat_map (selectAll name) children
            ∧ Forall (free name) (snd (Overlay.replaceForest children rs)))
      as [Hsel Hfree].
    { destruct (Overlay.replaceForest children rs) as [children' rs'].
      cbn [fst snd] in *. split; [|done].
      cbn [flat_map selectAll]. rewrite app_nil_r, Hsel.
      assert (String.eqb n name = false) as ->; [|done].
      unfold isRtOrRp in Hn. apply orb_false_iff in Hn as [? ?].
      by destruct Hname as [-> | ->]. }
    clear n attrs Hn. revert rs Hrs.
    induction IH as [|c cs Hc _ IHcs]; intros rs Hrs; [done|].
    cbn [Overlay.replaceForest].
    destruct (Hc rs Hrs) as [Hc1 Hc2].
    destruct (Overlay.replaceLeaves c rs) as [c' rs1]. cbn [fst snd] in *.
    destruct (IHcs rs1 Hc2) as [Hcs1 Hcs2].
    destruct (Overlay.replaceForest cs rs1) as [cs' rs2]. cbn [fst snd] in *.
    split; [|done]. cbn [flat_map]. by rewrite (flat_map_app (selectAll name)), Hc1, Hcs1.
Qed.

Lemma replaceForest_select (name : string) (children : list Node) :
  name = "rt" ∨ name = "rp" →
  ∀ rs, Forall (free name) rs →
        flat_map (selectAll name) (fst (Overlay.replaceForest children rs))
        = flat_map (selectAll name) children.
Proof.
  intros Hname. induction children as [|c cs IH]; intros rs Hrs; [done|].
  cbn [Overlay.replaceForest].
  destruct (replaceLeaves_select name c Hname rs Hrs) as [Hc1 Hc2].
  destruct (Overlay.replaceLeaves c rs) as [c' rs1]. cbn [fst snd] in *.
  specialize (IH rs1 Hc2).
  destruct (Overlay.replaceForest cs rs1) as [cs' rs2]. cbn [fst snd] in *.
  cbn [flat_map]. by rewrite (flat_map_app (selectAll name)), Hc1, IH.
Qed.

Lemma applyHighlighting_select (name : string) (rootNode : Node)
    (kanjiWords : list WordObj) (originalText : jsstring) :
  name = "rt" ∨ name = "rp" →
  selectAll name (Overlay.applyHighlighting rootNode kanjiWords originalText)
  = selectAll name rootNode.
Proof.
  intros Hname. unfold Overlay.applyHighlighting.
  destruct rootNode as [v | n attrs children]; [done|].
  destruct (isRtOrRp n) eqn:Hn; [done|].
  cbn [selectAll].
  assert (String.eqb n name = false) as ->.
  { unfold isRtOrRp in Hn. apply orb_false_iff in Hn as [? ?].
    by destruct Hname as [-> | ->]. }
  cbn [app]. apply replaceForest_select; [done|].
  assert (String.eqb "span" name = false) as Hspan by (by destruct Hname as [-> | ->]).
  generalize (Overlay.locateTextNodes originalText
                (Overlay.collectTextNodes (Element n attrs children))).
  generalize (Overlay.collectTextNodes (Element n attrs children)).
  induction l as [|t ts IH]; intros [|p ps]; cbn; try constructor.
  - by apply highlightLeaf_free.
  - apply IH.
Qed.

(** X18: neither player touches a reading: the [rt] elements of the markup
    a player returns are those of the markup it was given, in document
    order and unchanged. The tree-merge player keeps the ruby elements in
    the same way, and the overlay player the [rp] elements. *)
Theorem readings_left_alone (kanjiWords : list WordObj) :
  (∀ node,
     readingsOf (TreeMerge.processNode kanjiWords node) = selectAll "rt" node
     ∧ rubiesOf (TreeMerge.processNode kanjiWords node) = selectAll "ruby" node)
  ∧ (∀ display, readingsOf (TreeMerge.render display kanjiWords) = readingsOf display)
  ∧ (∀ rootNode originalText,
       selectAll "rt" (Overlay.applyHighlighting rootNode kanjiWords originalText)
       = selectAll "rt" rootNode
       ∧ selectAll "rp" (Overlay.applyHighlighting rootNode kanjiWords originalText)
         = selectAll "rp" rootNode).
Proof.
  split; [|split].
  - intros node. split; apply processNode_select; [by left | by right].
  - intros display. unfold TreeMerge.render.
    destruct (length kanjiWords =? 0)%nat; [done|].
    unfold readingsOf. rewrite processNode_select by (by left). done.
  - intros rootNode originalText.
    split; apply applyHighlighting_select; [by left | by right].
Qed.

End Markup.

(** ** Text leaves: where they are located and what is wrapped first *)

Section Leaves.

(** *** Locating the text leaves in the original text *)

Lemma locatedSpans_cons (t : jsstring) (o : option Z) (ts : list jsstring)
    (os : list (option Z)) :
  locatedSpans (t :: ts) (o :: os)
  = match o with
    | Some p => (p, JS.len t) :: locatedSpans ts os
    | None => locatedSpans ts os
    end.
Proof. unfold locatedSpans. cbn. by destruct o. Qed.

Lemma locatedSpans_from (originalText : jsstring) (cursor : Z)
    (ts : list jsstring) (os : list (option Z)) :
  Forall2 (locatedAt originalText cursor) ts os →
  Forall (λ span : Z * Z, cursor ≤ span.1) (locatedSpans ts os).
Proof.
  induction 1 as [|t o ts os Ht _ IH]; [constructor|].
  rewrite locatedSpans_cons. destruct o as [p|]; [|done].
  constructor; [|done]. by destruct (Ht p).
Qed.

Lemma locatedAt_earlier (originalText : jsstring) (c c' : Z) (t : jsstring)
    (o : option Z) :
  c ≤ c' → locatedAt originalText c' t o → locatedAt originalText c t o.
Proof. intros Hc H p Hp. destruct (H p Hp) as (? & ? & ?). split; [lia | done]. Qed.

Lemma locate_fold (originalText : jsstring) :
  ∀ textNodes acc cursor,
    0 ≤ cursor → cursor ≤ JS.len originalText →
    ∃ out,
      fst (foldl (Overlay.locateStep originalText) (acc, cursor) textNodes)
      = acc ++ out
      ∧ Forall2 (locatedAt originalText cursor) textNodes out
      ∧ StronglySorted (λ a b : Z * Z, a.1 + a.2 ≤ b.1) (locatedSpans textNodes out).
Proof.
  induction textNodes as [|t ts IH]; intros acc cursor H0 Hle.
  - exists []. split; [by rewrite app_nil_r|]. split; constructor.
  - cbn [foldl]. unfold Overlay.locateStep at 2.
    destruct t as [|c t].
    { destruct (IH (acc ++ [None]) cursor H0 Hle) as (out & Hout & HF & Hs).
      exists (None :: out). split; [by rewrite Hout, <- app_assoc|].
      split; [|by rewrite locatedSpans_cons]. by constructor. }
    destruct (Z.eqb_spec (JS.indexOf originalText (c :: t) cursor) (-1)) as [Hm|Hm].
    { destruct (IH (acc ++ [None]) cursor H0 Hle) as (out & Hout & HF & Hs).
      exists (None :: out). split; [by rewrite Hout, <- app_assoc|].
      split; [|by rewrite locatedSpans_cons]. by constructor. }
    apply indexOf_found in Hm; [|done..].
    pose proof (firstFrom_bounds _ _ _ _ Hm) as [Hp0 Hp1].
    pose proof (len_nonneg (c :: t)) as Hlen.
    destruct Hm as (Hcp & Hocc & _).
    set (p := JS.indexOf originalText (c :: t) cursor) in *.
    destruct (IH (acc ++ [Some p]) (p + JS.len (c :: t))) as (out & Hout & HF & Hs);
      [lia | lia |].
    exists (Some p :: out). split; [by rewrite Hout, <- app_assoc|]. split.
    + constructor.
      * by intros ? [= <-].
      * eapply Forall2_impl; [exact HF|]. intros t' o'.
        apply locatedAt_earlier. lia.
    + rewrite locatedSpans_cons. constructor; [done|].
      apply locatedSpans_from in HF.
      eapply Forall_impl; [exact HF|]. intros span. cbn. lia.
Qed.

(** X19: the text leaves are located from left to right: every leaf gets
    an entry; a located leaf is not empty and the original text reads it at
    the recorded offset; and a located leaf starts at or after the end of
    every leaf located before it. *)
Theorem locateTextNodes_in_order (originalText : jsstring)
    (textNodes : list jsstring) :
  Forall2 (locatedAt originalText 0) textNodes
          (Overlay.locateTextNodes originalText textNodes)
  ∧ StronglySorted (λ a b : Z * Z, a.1 + a.2 ≤ b.1)
      (locatedSpans textNodes (Overlay.locateTextNodes originalText textNodes)).
Proof.
  destruct (locate_fold originalText textNodes [] 0) as (out & Hout & HF & Hs);
    [done | apply len_nonneg |].
  unfold Overlay.locateTextNodes. rewrite Hout. by split.
Qed.

(** *** The first word of a leaf in the tree-merge player *)

Lemma isRangeProcessed_empty (a b : Z) : TreeMerge.isRangeProcessed a b ∅ = false.
Proof.
  apply not_true_is_false. rewrite isRangeProcessed_spec.
  intros (i & _ & Hi). by apply elem_of_empty in Hi.
Qed.

Lemma leafStep_grows (text : jsstring) (st : TreeMerge.LeafState) (w : WordObj) :
  ∃ more, TreeMerge.appended (TreeMerge.leafStep text st w)
          = TreeMerge.appended st ++ more.
Proof.
  unfold TreeMerge.leafStep. destruct (_ || _).
  - exists []. by rewrite app_nil_r.
  - by eexists.
Qed.

Lemma leaf_fold_grows (text : jsstring) (ws : list WordObj) :
  ∀ st, ∃ more, TreeMerge.appended (foldl (TreeMerge.leafStep text) st ws)
                = TreeMerge.appended st ++ more.
Proof.
  induction ws as [|w ws IH]; intros st.
  - exists []. by rewrite app_nil_r.
  - cbn [foldl]. destruct (IH (TreeMerge.leafStep text st w)) as (more & ->).
    destruct (leafStep_grows text st w) as (more' & ->).
    exists (more' ++ more). by rewrite app_assoc.
Qed.

(** X20: when some word occurs in a text leaf that is not blank, the word
    that comes first in leaf order is wrapped at its first occurrence: the
    rebuilt leaf starts with the text before that occurrence, if there is
    any, followed by the wrapper of the word. *)
Theorem processText_wraps_first (kanjiWords : list WordObj) (text : jsstring)
    (w : WordObj) (rest : list WordObj) :
  JS.isBlank text = false →
  TreeMerge.relevantWords kanjiWords text = w :: rest →
  firstFrom text (word w) 0 (JS.indexOf text (word w) 0)
  ∧ ∃ more,
      TreeMerge.processText kanjiWords text
      = (if JS.indexOf text (word w) 0 >? 0
         then [Text (JS.substring text 0 (JS.indexOf text (word w) 0))]
         else [])
        ++ wordSpan (word w) (data w) :: more.
Proof.
  intros Hb Hrel.
  assert (JS.includes text (word w) = true) as Hinc.
  { assert (w ∈ TreeMerge.relevantWords kanjiWords text) as Hin
      by (rewrite Hrel; by left).
    unfold TreeMerge.relevantWords in Hin. apply sort_elem in Hin.
    by apply list_elem_of_In, filter_In in Hin as [_ ?]. }
  unfold JS.includes in Hinc. apply negb_true_iff in Hinc.
  unfold TreeMerge.processText. rewrite Hb, Hrel. cbn [length Nat.eqb foldl].
  assert (TreeMerge.leafStep text
            {| TreeMerge.appended := []; TreeMerge.lastIndex := 0;
               TreeMerge.processedIndexes := ∅ |} w
          = {| TreeMerge.appended :=
                 (if JS.indexOf text (word w) 0 >? 0
                  then [Text (JS.substring text 0 (JS.indexOf text (word w) 0))]
                  else []) ++ [wordSpan (word w) (data w)];
               TreeMerge.lastIndex := JS.indexOf text (word w) 0 + JS.len (word w);
               TreeMerge.processedIndexes :=
                 TreeMerge.markRangeProcessed
                   (JS.indexOf text (word w) 0)
                   (JS.indexOf text (word w) 0 + JS.len (word w)) ∅ |}) as ->.
  { unfold TreeMerge.leafStep.
    cbn [TreeMerge.lastIndex TreeMerge.processedIndexes TreeMerge.appended app].
    by rewrite Hinc, isRangeProcessed_empty. }
  set (st1 := {| TreeMerge.appended := _ |}).
  destruct (leaf_fold_grows text rest st1) as (more & Hmore).
  split.
  - apply indexOf_found; [done | apply len_nonneg |].
    intros Heq. by rewrite Heq in Hinc.
  - destruct (_ <? _); rewrite Hmore; subst st1; cbn [TreeMerge.appended].
    + eexists. rewrite <- !app_assoc. cbn [app]. reflexivity.
    + eexists. rewrite <- !app_assoc. cbn [app]. reflexivity.
Qed.

End Leaves.

Lemma processText_wraps_first_witness :
  firstFrom s_tokyoto s_tokyoto 0 (JS.indexOf s_tokyoto s_tokyoto 0)
  ∧ ∃ more,
      TreeMerge.processText tokyotoWords s_tokyoto
      = (if JS.indexOf s_tokyoto s_tokyoto 0 >? 0
         then [Text (JS.substring s_tokyoto 0 (JS.indexOf s_tokyoto s_tokyoto 0))]
         else [])
        ++ wordSpan s_tokyoto (data (Overlay.mkWordObj s_tokyoto 0 [])) :: more.
Proof.
  apply (processText_wraps_first tokyotoWords s_tokyoto
           (Overlay.mkWordObj s_tokyoto 0 []) [Overlay.mkWordObj s_tokyo 0 []]);
    reflexivity.
Defined.

(** ** The cache of the dictionary object *)

Section Cache.
Import Net KanjiDictionary.
Context (service : Service).

Lemma post_cacheSet (w : jsstring) (v : option WordData) (st : World)
    (P : unit → World → Prop) (Q : World → Prop) :
  P () {| requests := requests st; cache := <[w := v]> (cache st) |} →
  post (cacheSet w v) st P Q.
Proof. done. Qed.

(** X21: [getWordMeaning] returns for every service and every word, with at
    most one request, a direct search for the word. It never removes or
    changes an entry of the cache: the entries of other words stay as they
    are, an entry for the word is written only when there was none, and
    when the word has an entry afterwards the entry is the value
    returned. *)
Theorem getWordMeaning_keeps_cache (w : jsstring) (st : World) :
  ∃ v st',
    getWordMeaning service w st = (Returned v, st')
    ∧ cache st ⊆ cache st'
    ∧ (∀ k, k ≠ w → cache st' !! k = cache st !! k)
    ∧ (∀ v', cache st' !! w = Some v' → v' = v)
    ∧ (requests st' = requests st
       ∨ requests st' = requests st ++ [request SearchDirect w]).
Proof.
  apply post_returns. unfold post at 1, getWordMeaning.
  destruct (cache st !! w) as [cached|] eqn:Hc.
  { split; [done|]. split; [done|]. split; [congruence | by left]. }
  assert (∀ v, cache st ⊆ <[w := v]> (cache st)) as Hsub
    by (intros v; by apply insert_subseteq).
  change (post
    (try_catch
       (let* u := url SearchDirect w in
        let* response := fetch service u in
        if negb (fst response) then ret None
        else
          let* matches := json (snd response) in
          match matches with
          | Some (m0 :: _) => let* _ := cacheSet w (Some m0) in ret (Some m0)
          | _ => let* _ := cacheSet w None in ret None
          end)
       (ret None)) st
    (λ v st', cache st ⊆ cache st'
              ∧ (∀ k, k ≠ w → cache st' !! k = cache st !! k)
              ∧ (∀ v', cache st' !! w = Some v' → v' = v)
              ∧ (requests st' = requests st
                 ∨ requests st' = requests st ++ [request SearchDirect w]))
    (λ _, False)).
  repeat first [post_step | apply post_cacheSet]; cbn [cache requests logged];
    (split; [done|]); (split; [try done|]);
    try (intros k Hk; by rewrite lookup_insert_ne);
    (split; [|try (by left); by right]);
    rewrite ?lookup_insert_eq; congruence.
Qed.

End Cache.
